(** * XAFS pre-edge subtraction and normalization (web/xafs_preedge.py)

    A shallow embedding of the array helpers [index_of], [index_nearest],
    [remove_dups], [remove_nans2] and of [preedge], over IEEE-754 binary64
    values as numpy's float64 arrays hold them, followed by the properties
    of the pipeline. *)

From Stdlib Require Import ZArith List Bool Lia PeanoNat Sorted.
From Stdlib Require Import Floats.SpecFloat.
Import ListNotations.

Set Implicit Arguments.

(** ** binary64 numbers

    numpy's float64 is IEEE-754 binary64: 53 bits of precision, infinities
    at exponent 1024.  The operations are those of [SpecFloat], rounding to
    nearest even. *)

Definition float : Type := spec_float.

Definition prec : Z := 53.
Definition emax : Z := 1024.

Definition fadd : float -> float -> float := SFadd prec emax.
Definition fsub : float -> float -> float := SFsub prec emax.
Definition fmul : float -> float -> float := SFmul prec emax.
Definition fdiv : float -> float -> float := SFdiv prec emax.
Definition fabs : float -> float := SFabs.
Definition flt : float -> float -> bool := SFltb.
Definition fle : float -> float -> bool := SFleb.
Definition feq : float -> float -> bool := SFeqb.

(** [x > y] and [x >= y] are the mirrored comparisons, false on NaN. *)
Definition fgt (x y : float) : bool := flt y x.
Definition fge (x y : float) : bool := fle y x.

Definition of_Z (z : Z) : float := binary_normalize prec emax z 0 false.

Definition nan : float := S754_nan.
Definition pinf : float := S754_infinity false.
Definition ninf : float := S754_infinity true.
Definition fzero : float := S754_zero false.

(** The decimal literals of the source, each the binary64 nearest to it. *)
Definition tiny_default : float := S754_finite false 6044629098073146 (-79).
Definition frac_default : float := S754_finite false 5764607523034235 (-58).
Definition five_percent : float := S754_finite false 7205759403792794 (-57).
Definition fone : float := S754_finite false 4503599627370496 (-52).
Definition ftwo : float := S754_finite false 4503599627370496 (-51).

(** [np.isnan], [np.isinf] *)
Definition isnan (x : float) : bool :=
  match x with S754_nan => true | _ => false end.

Definition isinf (x : float) : bool :=
  match x with S754_infinity _ => true | _ => false end.

Definition is_zero (x : float) : bool :=
  match x with S754_zero _ => true | _ => false end.

(** ** Python exceptions and the result of a call *)

Inductive pyerr : Type :=
| ValueError
| IndexError
| TypeError
| LinAlgError.

Inductive exc (A : Type) : Type :=
| Ok (a : A)
| Raise (e : pyerr).

Arguments Ok {A} a.
Arguments Raise {A} e.

Definition bind {A B : Type} (c : exc A) (k : A -> exc B) : exc B :=
  match c with
  | Ok a => k a
  | Raise e => Raise e
  end.

Notation "x <- c ;; k" := (bind c (fun x => k))
  (at level 61, c at next level, right associativity).
Notation "' pat <- c ;; k" := (bind c (fun x => match x with pat => k end))
  (at level 61, pat pattern, c at next level, right associativity).

(** ** Python built-ins and numpy primitives on one-dimensional arrays *)

(** [arr[i]] for an index that may be out of range. *)
Definition getitem {A : Type} (arr : list A) (i : nat) : exc A :=
  match nth_error arr i with
  | Some x => Ok x
  | None => Raise IndexError
  end.

(** [arr[-1]] *)
Definition getlast {A : Type} (arr : list A) : exc A :=
  match arr with
  | [] => Raise IndexError
  | x :: xs => Ok (last xs x)
  end.

(** [arr[p1:p2]] for non-negative bounds: slices clamp, they never raise. *)
Definition slice {A : Type} (p1 p2 : nat) (arr : list A) : list A :=
  firstn (p2 - p1) (skipn p1 arr).

(** [arr[i] = v] for an index in range. *)
Fixpoint setitem {A : Type} (arr : list A) (i : nat) (v : A) : list A :=
  match arr, i with
  | [], _ => []
  | _ :: xs, O => v :: xs
  | x :: xs, S j => x :: setitem xs j v
  end.

(** The built-in [min] of a sequence keeps the first item and replaces it
    by a later one only when [item < current]; [max] likewise with [>].
    Both raise [ValueError] on an empty sequence. *)
Definition min_from (x : float) (xs : list float) : float :=
  fold_left (fun m y => if flt y m then y else m) xs x.

Definition max_from (x : float) (xs : list float) : float :=
  fold_left (fun m y => if fgt y m then y else m) xs x.

Definition py_min (arr : list float) : exc float :=
  match arr with
  | [] => Raise ValueError
  | x :: xs => Ok (min_from x xs)
  end.

Definition py_max (arr : list float) : exc float :=
  match arr with
  | [] => Raise ValueError
  | x :: xs => Ok (max_from x xs)
  end.

(** [min(a, b)] and [max(a, b)] of two scalars. *)
Definition py_min2 (a b : float) : float := if flt b a then b else a.
Definition py_max2 (a b : float) : float := if fgt b a then b else a.

(** [max] of a sequence of indices. *)
Definition py_max_index (l : list nat) : exc nat :=
  match l with
  | [] => Raise ValueError
  | i :: rest => Ok (fold_left Nat.max rest i)
  end.

(** [np.where(mask)[0]]: the indices at which the mask holds, ascending. *)
Fixpoint where_from (i : nat) (mask : list bool) : list nat :=
  match mask with
  | [] => []
  | b :: rest => if b then i :: where_from (S i) rest else where_from (S i) rest
  end.

Definition np_where (mask : list bool) : list nat := where_from 0 mask.

(** [i in pts] *)
Definition contains (pts : list nat) (i : nat) : bool := existsb (Nat.eqb i) pts.

(** Element-wise binary operation with numpy's broadcasting of a length-one
    operand; other length mismatches raise [ValueError]. *)
Fixpoint zip_with {A B C : Type} (f : A -> B -> C) (a : list A) (b : list B) : list C :=
  match a, b with
  | x :: a', y :: b' => f x y :: zip_with f a' b'
  | _, _ => []
  end.

Definition broadcast (f : float -> float -> float) (a b : list float) : exc (list float) :=
  if Nat.eqb (length a) (length b) then Ok (zip_with f a b)
  else match a, b with
       | [x], _ => Ok (map (f x) b)
       | _, [y] => Ok (map (fun x => f x y) a)
       | _, _ => Raise ValueError
       end.

(** [ndarray.argmin()]: the first NaN if there is one, else the first
    smallest entry; [ValueError] on an empty array.  The scan replaces the
    current minimum when [not (x >= current)] and stops at a NaN. *)
Fixpoint argmin_from (i : nat) (best : nat) (mp : float) (rest : list float) : nat :=
  match rest with
  | [] => best
  | x :: rest' =>
      if isnan mp then best
      else if negb (fge x mp) then argmin_from (S i) i x rest'
      else argmin_from (S i) best mp rest'
  end.

Definition np_argmin (arr : list float) : exc nat :=
  match arr with
  | [] => Raise ValueError
  | x :: rest => Ok (argmin_from 1 0 x rest)
  end.

(** [np.delete(arr, obj)] for an index array [obj]: the entries whose index
    is listed are dropped.  An index past the end is ignored by the numpy
    releases of the source's time and raises [IndexError] in current ones;
    the embedding carries the choice as a parameter. *)
Inductive oob_policy : Type :=
| OobIgnored
| OobRaises.

Fixpoint drop_from {A : Type} (i : nat) (obj : list nat) (arr : list A) : list A :=
  match arr with
  | [] => []
  | x :: rest =>
      if contains obj i then drop_from (S i) obj rest
      else x :: drop_from (S i) obj rest
  end.

Definition np_delete {A : Type} (pol : oob_policy) (arr : list A) (obj : list nat)
  : exc (list A) :=
  match pol with
  | OobRaises =>
      if forallb (fun i => Nat.ltb i (length arr)) obj
      then Ok (drop_from 0 obj arr)
      else Raise IndexError
  | OobIgnored => Ok (drop_from 0 obj arr)
  end.

(** [np.gradient(f)] with unit spacing: one-sided differences at the two
    ends, central differences inside; arrays shorter than two raise. *)
Fixpoint gradient_inner (prev : float) (rest : list float) : list float :=
  match rest with
  | [] => []
  | [x] => [fdiv (fsub x prev) fone]
  | x :: ((y :: _) as rest') => fdiv (fsub y prev) ftwo :: gradient_inner x rest'
  end.

Definition np_gradient (f : list float) : exc (list float) :=
  match f with
  | x0 :: ((x1 :: _) as rest) => Ok (fdiv (fsub x1 x0) fone :: gradient_inner x0 rest)
  | _ => Raise ValueError
  end.

(** ** The helpers of xafs_preedge.py *)

(** index of array at or below value; 0 if value < min(array) *)
Definition index_of (arrval : list float) (value : float) : exc nat :=
  m <- py_min arrval ;;
  if flt value m then Ok 0
  else py_max_index (np_where (map (fun x => fle x value) arrval)).

(** index of array nearest to value *)
Definition index_nearest (array : list float) (value : float) : exc nat :=
  np_argmin (map (fun x => fabs (fsub x value)) array).

(** The body of the loop of [remove_dups] for one index [i]: [t] holds what
    is appended to the list that starts as [[tiny]]. *)
Definition remove_dups_step (tiny frac : float) (arr : list float) (i : nat) : list float :=
  let at_ k := nth k arr nan in
  let t := (if Nat.ltb 0 i
            then [fmul frac (fabs (fsub (at_ i) (at_ (i - 1))))] else [])
           ++ (if Nat.ltb i (length arr - 1)
               then [fmul frac (fabs (fsub (at_ (i + 1)) (at_ i)))] else []) in
  let dx := max_from tiny t in
  setitem arr i (fsub (at_ i) dx).

(** The indices [i] with [abs(arr[i] - arr[i+1]) < tiny]. *)
Definition dups_of (tiny : float) (arr : list float) : list nat :=
  np_where (zip_with (fun x y => flt (fabs (fsub x y)) tiny) (removelast arr) (tl arr)).

Definition remove_dups_with (tiny frac : float) (arr : list float) : list float :=
  fold_left (remove_dups_step tiny frac) (dups_of tiny arr) arr.

Definition remove_dups (arr : list float) : list float :=
  remove_dups_with tiny_default frac_default arr.

(** One of the four guarded deletions of [remove_nans2]: when [guard] holds,
    the indices at which [src] equals [target] are deleted from both
    working arrays. *)
Definition delete_where (pol : oob_policy) (guard : bool) (src : list float)
  (target : float) (ab : list float * list float) : exc (list float * list float) :=
  if guard then
    let bad := np_where (map (fun x => feq x target) src) in
    a1 <- np_delete pol (fst ab) bad ;;
    b1 <- np_delete pol (snd ab) bad ;;
    Ok (a1, b1)
  else Ok ab.

Definition remove_nans2 (pol : oob_policy) (a b : list float)
  : exc (list float * list float) :=
  if existsb isinf a || existsb isinf b || existsb isnan a || existsb isnan b then
    ab1 <- delete_where pol (existsb isinf a) a pinf (a, b) ;;
    ab2 <- delete_where pol (existsb isinf b) b pinf ab1 ;;
    ab3 <- delete_where pol (existsb isnan a) a nan ab2 ;;
    delete_where pol (existsb isnan b) b nan ab3
  else Ok (a, b).

(** ** preedge *)

(** A numpy value that is either a scalar or an array: [post_edge] starts
    as the scalar 0 and becomes an array with the first coefficient. *)
Inductive npval : Type :=
| NpScalar (x : float)
| NpArray (l : list float).

(** The dictionary returned by [preedge]. *)
Record preedge_out : Type := {
  out_e0 : float;
  out_edge_step : float;
  out_norm : list float;
  out_pre_edge : list float;
  out_post_edge : npval;
  out_norm_coefs : list float;
  out_nvict : Z;
  out_nnorm : Z;
  out_norm1 : float;
  out_norm2 : float;
  out_pre1 : float;
  out_pre2 : float;
  out_precoefs : list float
}.

(** [e0 is None or e0 < energy[0] or e0 > energy[-1]] *)
Definition e0_unusable (energy : list float) (e0 : option float) : exc bool :=
  match e0 with
  | None => Ok true
  | Some v =>
      first <- getitem energy 0 ;;
      if flt v first then Ok true
      else lst <- getlast energy ;; Ok (fgt v lst)
  end.

(** [np.where(dmu > max(dmu)*0.05)[0]] *)
Definition high_deriv_pts (dmu : list float) : exc (list nat) :=
  m <- py_max dmu ;;
  Ok (np_where (map (fun d => fgt d (fmul m five_percent)) dmu)).

(** One round of the loop over [high_deriv_pts]; the state is
    [(idmu_max, dmu_max)]. *)
Definition edge_scan_step (dmu : list float) (pts : list nat)
  (st : nat * float) (i : nat) : nat * float :=
  let d := nth i dmu nan in
  if fgt d (snd st)
     && contains pts (i + 1)
     && match i with O => false | S j => contains pts j end
  then (i, d) else st.

Definition edge_scan (dmu : list float) (pts : list nat) : nat * float :=
  fold_left (edge_scan_step dmu pts) pts (0, fzero).

(** The shape of that round: the state moves to [i] when the value at [i]
    exceeds the current one and [i] passes the test [ok]. *)
Definition scan_step (f : nat -> float) (ok : nat -> bool)
  (st : nat * float) (i : nat) : nat * float :=
  if fgt (f i) (snd st) && ok i then (i, f i) else st.

(** The discrete derivative [np.gradient(mu)/np.gradient(energy)]. *)
Definition deriv (energy mu : list float) : exc (list float) :=
  gmu <- np_gradient mu ;;
  ge <- np_gradient energy ;;
  broadcast fdiv gmu ge.

(** The branch that derives e0 (lines 177-188): the de-duplicated energy
    array and the energy at the chosen index. *)
Definition find_e0 (energy mu : list float) : exc (list float * float) :=
  let energy := remove_dups energy in
  dmu <- deriv energy mu ;;
  pts <- high_deriv_pts dmu ;;
  e0 <- getitem energy (fst (edge_scan dmu pts)) ;;
  Ok (energy, e0).

(** Lines 174-188: sanitize the energies, keep or derive e0. *)
Definition locate_edge (energy mu : list float) (e0 : option float)
  : exc (list float * float) :=
  let energy := remove_dups energy in
  derive <- e0_unusable energy e0 ;;
  if derive then find_e0 energy mu
  else match e0 with
       | Some v => Ok (energy, v)
       | None => find_e0 energy mu
       end.

(** Lines 190-191: e0 becomes the energy of the nearest sample. *)
Definition snap_e0 (energy : list float) (e0 : float) : exc (nat * float) :=
  ie0 <- index_nearest energy e0 ;;
  e0' <- getitem energy ie0 ;;
  Ok (ie0, e0').

(** Lines 193-202: defaults, sign convention, clamping and ordering of the
    four bounds, all relative to e0. *)
Definition resolve_bounds (energy : list float) (e0 : float)
  (pre1 : option float) (pre2 norm1 : float) (norm2 : option float)
  : exc (float * float * float * float) :=
  pre1 <- match pre1 with
          | None => lo <- py_min energy ;; Ok (fsub lo e0)
          | Some v => Ok v
          end ;;
  norm2 <- match norm2 with
           | None => hi <- py_max energy ;; Ok (fsub hi e0)
           | Some v => Ok v
           end ;;
  norm2 <- (if flt norm2 fzero
            then hi <- py_max energy ;; Ok (fsub (fsub hi e0) norm2)
            else Ok norm2) ;;
  lo <- py_min energy ;;
  let pre1 := py_max2 pre1 (fsub lo e0) in
  hi <- py_max energy ;;
  let norm2 := py_min2 norm2 (fsub hi e0) in
  let '(pre1, pre2) := if fgt pre1 pre2 then (pre2, pre1) else (pre1, pre2) in
  let '(norm1, norm2) := if fgt norm1 norm2 then (norm2, norm1) else (norm1, norm2) in
  Ok (pre1, pre2, norm1, norm2).

(** Lines 204-207 and 214-217: the index range [p1:p2] of a fit window
    whose bounds [lo], [hi] are relative to e0. *)
Definition fit_window (energy : list float) (e0 lo hi : float) : exc (nat * nat) :=
  p1 <- index_of energy (fadd lo e0) ;;
  p2 <- index_nearest energy (fadd hi e0) ;;
  if (Z.of_nat p2 - Z.of_nat p1 <? 2)%Z
  then Ok (p1, Nat.min (length energy) (p1 + 2))
  else Ok (p1, p2).

(** [post_edge[ie0]] *)
Definition npval_getitem (v : npval) (i : nat) : exc float :=
  match v with
  | NpScalar _ => Raise TypeError
  | NpArray l => getitem l i
  end.

(** Lines 224-228: the edge step and the normalized spectrum. *)
Definition normalize (mu pre_edge : list float) (post_edge : npval) (ie0 : nat)
  (step : option float) : exc (float * list float) :=
  edge_step <- match step with
               | Some s => Ok s
               | None =>
                   hi <- npval_getitem post_edge ie0 ;;
                   lo <- getitem pre_edge ie0 ;;
                   Ok (fsub hi lo)
               end ;;
  d <- broadcast fsub mu pre_edge ;;
  Ok (edge_step, map (fun x => fdiv x edge_step) d).

Section Pipeline.

(** [scipy.polyfit] (numpy's least-squares polynomial fit, coefficients
    with the highest power first) and the power function behind [**]
    belong to the numerical libraries; the pipeline takes them as given. *)
Variable polyfit : list float -> list float -> Z -> exc (list float).
Variable fpow : float -> Z -> float.
Variable pol : oob_policy.

(** [mu*energy**nvict] *)
Definition weighted (energy mu : list float) (nvict : Z) : exc (list float) :=
  broadcast fmul mu (map (fun e => fpow e nvict) energy).

(** Lines 210-212: the pre-edge line and its evaluation on all energies. *)
Definition fit_pre_edge (energy omu : list float) (nvict : Z) (p1 p2 : nat)
  : exc (list float * list float) :=
  '(ex, mx) <- remove_nans2 pol (slice p1 p2 energy) (slice p1 p2 omu) ;;
  precoefs <- polyfit ex mx 1%Z ;;
  c0 <- getitem precoefs 0 ;;
  c1 <- getitem precoefs 1 ;;
  Ok (precoefs,
      map (fun e => fmul (fadd (fmul c0 e) c1) (fpow e (- nvict)%Z)) energy).

(** One round of the loop over [enumerate(reversed(list(coefs)))]. *)
Definition post_edge_add (energy : list float) (nvict : Z) (acc : npval)
  (nc : nat * float) : npval :=
  let term := map (fun e => fmul (snd nc) (fpow e (Z.of_nat (fst nc) - nvict)%Z)) energy in
  match acc with
  | NpScalar s => NpArray (map (fadd s) term)
  | NpArray l => NpArray (zip_with fadd l term)
  end.

(** Lines 218-223: the post-edge polynomial, its evaluation and the
    reversed coefficient list. *)
Definition fit_post_edge (energy omu : list float) (nvict nnorm : Z) (p1 p2 : nat)
  : exc (npval * list float) :=
  coefs <- polyfit (slice p1 p2 energy) (slice p1 p2 omu) nnorm ;;
  let rc := rev coefs in
  Ok (fold_left (post_edge_add energy nvict) (combine (seq 0 (length rc)) rc)
        (NpScalar fzero),
      rc).

Definition preedge (energy mu : list float) (e0 step : option float)
  (nnorm nvict : Z) (pre1 : option float) (pre2 norm1 : float)
  (norm2 : option float) : exc preedge_out :=
  '(energy, e0) <- locate_edge energy mu e0 ;;
  let nnorm := Z.max (Z.min nnorm 5) 1 in
  '(ie0, e0) <- snap_e0 energy e0 ;;
  '(pre1, pre2, norm1, norm2) <- resolve_bounds energy e0 pre1 pre2 norm1 norm2 ;;
  '(p1, p2) <- fit_window energy e0 pre1 pre2 ;;
  omu <- weighted energy mu nvict ;;
  '(precoefs, pre_edge) <- fit_pre_edge energy omu nvict p1 p2 ;;
  '(p1, p2) <- fit_window energy e0 norm1 norm2 ;;
  '(post_edge, norm_coefs) <- fit_post_edge energy omu nvict nnorm p1 p2 ;;
  '(edge_step, norm) <- normalize mu pre_edge post_edge ie0 step ;;
  Ok {| out_e0 := e0; out_edge_step := edge_step; out_norm := norm;
        out_pre_edge := pre_edge; out_post_edge := post_edge;
        out_norm_coefs := norm_coefs; out_nvict := nvict; out_nnorm := nnorm;
        out_norm1 := norm1; out_norm2 := norm2; out_pre1 := pre1;
        out_pre2 := pre2; out_precoefs := precoefs |}.

End Pipeline.

(** ** Reference instances of the library functions

    A least-squares polynomial fit by the normal equations and an integer
    power by repeated multiplication, both in binary64, with which the
    pipeline runs on concrete spectra.  Like numpy's fit, which solves a
    rank-deficient system by SVD and only warns, this one raises on an
    empty or mismatched window only; on a deficient system it divides by
    the zero pivot and returns NaN coefficients.  The theorems on
    [preedge] hold for any [polyfit] and [fpow]. *)

Fixpoint pow_nat (x : float) (n : nat) : float :=
  match n with
  | O => fone
  | S k => fmul x (pow_nat x k)
  end.

Definition pow_int (x : float) (n : Z) : float :=
  match n with
  | Z0 => fone
  | Zpos p => pow_nat x (Pos.to_nat p)
  | Zneg p => fdiv fone (pow_nat x (Pos.to_nat p))
  end.

Definition fsum (l : list float) : float := fold_left fadd l fzero.

(** Gaussian elimination on the augmented rows of an n-by-n system. *)
Fixpoint gauss_solve (n : nat) (rows : list (list float)) : list float :=
  match n, rows with
  | S k, (p :: prow) :: rest =>
      let reduce r :=
        match r with
        | a :: r' => zip_with (fun u v => fsub u (fmul (fdiv a p) v)) r' prow
        | [] => []
        end in
      let sol := gauss_solve k (map reduce rest) in
      fdiv (fsub (last prow fzero) (fsum (zip_with fmul prow sol))) p :: sol
  | _, _ => []
  end.

Definition lstsq_polyfit (x y : list float) (deg : Z) : exc (list float) :=
  if (deg <? 0)%Z then Raise ValueError
  else if Nat.eqb (length x) 0 then Raise TypeError
  else if negb (Nat.eqb (length x) (length y)) then Raise TypeError
  else
    let d := Z.to_nat deg in
    let moment k := fsum (map (fun xi => pow_nat xi k) x) in
    let rhs k := fsum (zip_with (fun xi yi => fmul (pow_nat xi k) yi) x y) in
    let row i := map (fun j => moment (i + j)) (seq 0 (S d)) ++ [rhs i] in
    Ok (rev (gauss_solve (S d) (map row (seq 0 (S d))))).

Definition preedge_ref : list float -> list float -> option float -> option float ->
  Z -> Z -> option float -> float -> float -> option float -> exc preedge_out :=
  preedge lstsq_polyfit pow_int OobRaises.

(** ** The order of binary64 values

    Away from NaN, [SFcompare] is the lexicographic order of a key made of
    the sign class, the exponent and the mantissa. *)

Definition key (x : float) : Z * Z * Z :=
  match x with
  | S754_nan => (0, 0, 0)
  | S754_zero _ => (0, 0, 0)
  | S754_infinity true => (-2, 0, 0)
  | S754_infinity false => (2, 0, 0)
  | S754_finite true m e => (-1, - e, - Zpos m)
  | S754_finite false m e => (1, e, Zpos m)
  end%Z.

Definition key_lt (a b : Z * Z * Z) : Prop :=
  let '(a1, a2, a3) := a in
  let '(b1, b2, b3) := b in
  (a1 < b1 \/ (a1 = b1 /\ (a2 < b2 \/ (a2 = b2 /\ a3 < b3))))%Z.

Definition key_le (a b : Z * Z * Z) : Prop := key_lt a b \/ a = b.

(** ** Predicates of the specification *)

(** No two neighbours of the array are closer than [tiny], as the test of
    [remove_dups] measures it. *)
Definition well_separated (tiny : float) (arr : list float) : Prop :=
  forall i, S i < length arr ->
    flt (fabs (fsub (nth i arr nan) (nth (S i) arr nan))) tiny = false.

Inductive subseq {A : Type} : list A -> list A -> Prop :=
| subseq_nil : subseq [] []
| subseq_keep (x : A) (s l : list A) : subseq s l -> subseq (x :: s) (x :: l)
| subseq_drop (x : A) (s l : list A) : subseq s l -> subseq s (x :: l).

(** [paired a b a' b']: the entries of [a'] and [b'] sit at the same,
    increasing, positions of [a] and [b]. *)
Definition paired {A B : Type} (a : list A) (b : list B) (a' : list A) (b' : list B) : Prop :=
  length a' = length b' /\
  exists origin : list nat,
    StronglySorted lt origin /\ length origin = length a' /\
    forall i k, nth_error origin i = Some k ->
      k < length a /\ nth_error a' i = nth_error a k /\ nth_error b' i = nth_error b k.

(** The invariant of the deletions of [remove_nans2]. *)
Definition in_step (a b a1 b1 : list float) : Prop :=
  length a1 = length b1 /\ subseq (combine a1 b1) (combine a b).


(** The edge search in the words of the specification: an index is a
    candidate when its derivative exceeds the threshold, it is supported
    when its two neighbours are candidates as well, and the edge index is
    the first supported index of largest derivative, or 0 when no index is
    supported. *)
Definition candidate (dmu : list float) (thr : float) (i : nat) : Prop :=
  fgt (nth i dmu nan) thr = true.

Definition supported (dmu : list float) (thr : float) (i : nat) : Prop :=
  candidate dmu thr i /\ candidate dmu thr (i + 1) /\
  exists j, i = S j /\ candidate dmu thr j.

Definition edge_index (dmu : list float) (thr : float) (k : nat) : Prop :=
  (supported dmu thr k /\
   forall j, supported dmu thr j ->
     fgt (nth j dmu nan) (nth k dmu nan) = false /\
     (j < k -> flt (nth j dmu nan) (nth k dmu nan) = true))
  \/ (k = 0 /\ forall j, ~ supported dmu thr j).

(** The caller gave no edge energy, or one outside
    [[energy[0], energy[-1]]]. *)
Definition edge_missing_or_outside (energy : list float) (e0 : option float) : Prop :=
  match e0 with
  | None => True
  | Some v => flt v (nth 0 energy nan) = true \/ fgt v (last energy nan) = true
  end.

(** A float whose mantissa fits the precision and whose exponent is in the
    range of binary64. *)
Definition bounded_float (x : float) : Prop :=
  match x with
  | S754_finite _ m e => (Zpos (digits2_pos m) <= 53 /\ -1074 <= e <= 971)%Z
  | _ => True
  end.

(** ** Concrete spectra *)

(** The decimal literal [n/d] for a power of ten [d]: both integers are
    exact in binary64, so the quotient is the binary64 nearest to it. *)
Definition dec (n d : Z) : float := fdiv (of_Z n) (of_Z d).

(** The arrays of the docstring of [remove_nans2]. *)
Definition docstring_x : list float := [of_Z 0; dec 11 10; dec 22 10; nan; dec 33 10].
Definition docstring_y : list float := [of_Z 1; of_Z 2; of_Z 3; of_Z 4; of_Z 5].

(** Energies 0, 10, ..., 10(n-1). *)
Definition ramp (n : nat) : list float :=
  map (fun k => of_Z (10 * Z.of_nat k)) (seq 0 n).

(** A step from 0.1 to 1.1 at sample 10 on a drift of 0.001 per eV. *)
Definition step_mu (n : nat) : list float :=
  map (fun k => fadd (fmul (dec 1 1000) (of_Z (10 * Z.of_nat k)))
                  (if Nat.ltb k 10 then dec 1 10 else dec 11 10)) (seq 0 n).

(** An edge that rises over three samples. *)
Definition soft_edge_mu : list float :=
  [of_Z 0; of_Z 0; of_Z 0; of_Z 1; of_Z 3; of_Z 4; of_Z 4; of_Z 4].

(** Two energies 5e-9 apart. *)
Definition close_pair : list float := [of_Z 0; dec 5 1000000000].

Definition strictly_increasing (arr : list float) : Prop :=
  forall i, S i < length arr -> flt (nth i arr nan) (nth (S i) arr nan) = true.

Definition result_or {A : Type} (d : A) (r : exc A) : A :=
  match r with
  | Ok a => a
  | Raise _ => d
  end.

Definition empty_out : preedge_out :=
  {| out_e0 := nan; out_edge_step := nan; out_norm := []; out_pre_edge := [];
     out_post_edge := NpScalar nan; out_norm_coefs := []; out_nvict := 0;
     out_nnorm := 0; out_norm1 := nan; out_norm2 := nan; out_pre1 := nan;
     out_pre2 := nan; out_precoefs := [] |}.

(** preedge(energy, mu, e0=104, norm1=30) on the step spectrum. *)
Definition step_run : exc preedge_out :=
  preedge_ref (ramp 21) (step_mu 21) (Some (of_Z 104)) None 3 0 None
    (of_Z (-50)) (of_Z 30) None.

Definition step_out : preedge_out := Eval vm_compute in result_or empty_out step_run.

(** preedge(energy, mu, e0=100, norm1=50, norm2=-20) on the step spectrum. *)
Definition negative_norm2_run : exc preedge_out :=
  preedge_ref (ramp 21) (step_mu 21) (Some (of_Z 100)) None 3 0 None
    (of_Z (-50)) (of_Z 50) (Some (of_Z (-20))).

Definition negative_norm2_out : preedge_out :=
  Eval vm_compute in result_or empty_out negative_norm2_run.

(** preedge(energy, mu, e0=10) on three samples: the post-edge window is
    the last sample alone. *)
Definition short_run : exc preedge_out :=
  preedge_ref (ramp 3) [of_Z 1; of_Z 2; of_Z 3] (Some (of_Z 10)) None 3 0 None
    (of_Z (-50)) (of_Z 100) None.

(** preedge(energy, mu, e0=100, step=0) on the step spectrum. *)
Definition zero_step_run : exc preedge_out :=
  preedge_ref (ramp 21) (step_mu 21) (Some (of_Z 100)) (Some fzero) 3 0 None
    (of_Z (-50)) (of_Z 30) None.

(** ** Further definitions *)

(** A zero of either sign or a NaN: what the derivative of a constant is. *)
Definition zero_or_nan (x : float) : bool := is_zero x || isnan x.

(** ** The XANES window of the spectrum page (web/server.py)

    [spectrum] cuts the window from 30 eV below to 70 eV above the edge out
    of the energies and of the normalized spectrum:

      i1 = max(np.where(group.energy<=e0 - 30)[0])
      i2 = max(np.where(group.energy<=e0 + 70)[0]) + 1
      xanes_en = group.energy[i1:i2] - e0
      xanes_mu = group.norm[i1:i2]                                        *)
Definition xanes_window (energy norm : list float) (e0 : float)
  : exc (list float * list float) :=
  i1 <- py_max_index (np_where (map (fun x => fle x (fsub e0 (of_Z 30))) energy)) ;;
  i2 <- py_max_index (np_where (map (fun x => fle x (fadd e0 (of_Z 70))) energy)) ;;
  let i2 := i2 + 1 in
  Ok (map (fun x => fsub x e0) (slice i1 i2 energy), slice i1 i2 norm).

(** The entries of [np.gradient(f)] for unit spacing, index by index: the
    difference to the neighbour at the two ends, half the difference of
    the two neighbours inside. *)
Definition difference (f : list float) (i : nat) : float :=
  if i =? 0 then fdiv (fsub (nth 1 f nan) (nth 0 f nan)) fone
  else if S i =? length f then fdiv (fsub (nth i f nan) (nth (i - 1) f nan)) fone
  else fdiv (fsub (nth (i + 1) f nan) (nth (i - 1) f nan)) ftwo.

(** An uneven grid: steps of 1 eV up to 4 eV, of 100 eV from there on; mu
    rises by 1 per sample on the fine steps and by 50 on the wide ones, so
    its slope per eV is largest on the fine steps. *)
Definition uneven_energy : list float := map of_Z [0; 1; 2; 3; 4; 104; 204; 304]%Z.
Definition uneven_mu : list float := map of_Z [0; 1; 2; 3; 4; 54; 104; 154]%Z.

Lemma flt_key (x y : float) :
  isnan x = false -> isnan y = false ->
  (flt x y = true <-> key_lt (key x) (key y)).
Proof.
  unfold flt, SFltb, key_lt.
  destruct x as [sx|sx| |sx mx ex], y as [sy|sy| |sy my ey];
    try discriminate; intros _ _;
    try destruct sx; try destruct sy; cbn;
    try (split; [discriminate | lia]);
    try (split; [lia | reflexivity]).
  - rewrite Pos.compare_cont_spec; cbn.
    destruct (Z.compare_spec ex ey); cbn.
    + destruct (Pos.compare_spec mx my); cbn; split; intros; try discriminate; try reflexivity; lia.
    + split; [discriminate | lia].
    + split; [intros _; lia | reflexivity].
  - rewrite Pos.compare_cont_spec; cbn.
    destruct (Z.compare_spec ex ey); cbn.
    + destruct (Pos.compare_spec mx my); cbn; split; intros; try discriminate; try reflexivity; lia.
    + split; [intros _; lia | reflexivity].
    + split; [discriminate | lia].
Qed.

Lemma fle_key (x y : float) :
  isnan x = false -> isnan y = false ->
  (fle x y = true <-> key_le (key x) (key y)).
Proof.
  unfold fle, SFleb, key_le, key_lt.
  assert (forall mx my, Pos.compare_cont Eq mx my = Pos.compare mx my) as Hcc
    by (intros; rewrite Pos.compare_cont_spec; destruct (Pos.compare mx my); reflexivity).
  destruct x as [sx|sx| |sx mx ex], y as [sy|sy| |sy my ey];
    try discriminate; intros _ _;
    try destruct sx; try destruct sy; cbn;
    try rewrite Hcc;
    try (destruct (Z.compare_spec ex ey); cbn);
    try (destruct (Pos.compare_spec mx my); cbn);
    (split; intros HH;
     [ first [ discriminate | right; subst; reflexivity | left; lia ]
     | first [ reflexivity
             | exfalso; destruct HH as [HH|HH]; [lia | first [discriminate | injection HH; intros; lia]] ] ]).
Qed.

Lemma flt_notnan (x y : float) : flt x y = true -> isnan x = false /\ isnan y = false.
Proof.
  destruct x, y; try discriminate; auto.
Qed.

Lemma fle_notnan (x y : float) : fle x y = true -> isnan x = false /\ isnan y = false.
Proof.
  destruct x, y; try discriminate; auto.
Qed.

Lemma flt_nan_r (x : float) : flt x nan = false.
Proof. destruct x; reflexivity. Qed.

Lemma flt_nan_l (x : float) : flt nan x = false.
Proof. reflexivity. Qed.

Ltac key_order :=
  unfold key_le, key_lt in *;
  repeat match goal with
         | |- context [key ?x] => destruct (key x) as [[? ?] ?]
         | H : context [key ?x] |- _ => destruct (key x) as [[? ?] ?]
         end;
  repeat match goal with
         | H : (_, _, _) = (_, _, _) |- _ => injection H as ? ? ?
         | H : _ /\ _ |- _ => destruct H
         end;
  try lia.

Lemma flt_trans (x y z : float) :
  flt x y = true -> flt y z = true -> flt x z = true.
Proof.
  intros Hxy Hyz.
  destruct (flt_notnan _ _ Hxy) as [Hx Hy], (flt_notnan _ _ Hyz) as [_ Hz].
  rewrite flt_key in * by assumption. key_order.
Qed.

Lemma flt_irrefl (x : float) : flt x x = false.
Proof.
  destruct (flt x x) eqn:E; [|reflexivity].
  destruct (flt_notnan _ _ E) as [Hx _].
  rewrite flt_key in E by assumption. key_order.
Qed.

Lemma flt_false_fle (x y : float) :
  isnan x = false -> isnan y = false -> flt x y = false -> fle y x = true.
Proof.
  intros Hx Hy H.
  apply fle_key; try assumption.
  assert (~ key_lt (key x) (key y)) as N.
  { intros K. apply flt_key in K; try assumption. congruence. }
  unfold key_le. key_order.
  destruct (Z.eq_dec z3 z0), (Z.eq_dec z4 z1), (Z.eq_dec z2 z); subst; try (left; lia).
  right; reflexivity.
Qed.

Lemma fle_trans (x y z : float) :
  fle x y = true -> fle y z = true -> fle x z = true.
Proof.
  intros Hxy Hyz.
  destruct (fle_notnan _ _ Hxy) as [Hx Hy], (fle_notnan _ _ Hyz) as [_ Hz].
  rewrite fle_key in * by assumption.
  unfold key_le in *. destruct Hxy as [Hxy|Hxy], Hyz as [Hyz|Hyz].
  - left. key_order.
  - left. rewrite <- Hyz. exact Hxy.
  - left. rewrite Hxy. exact Hyz.
  - right. congruence.
Qed.

Lemma fle_refl (x : float) : isnan x = false -> fle x x = true.
Proof.
  intros Hx. apply fle_key; try assumption. right; reflexivity.
Qed.

Lemma flt_fle (x y : float) : flt x y = true -> fle x y = true.
Proof.
  intros H. destruct (flt_notnan _ _ H) as [Hx Hy].
  apply fle_key; try assumption. left. apply flt_key; assumption.
Qed.

Lemma fle_flt_trans (x y z : float) :
  fle x y = true -> flt y z = true -> flt x z = true.
Proof.
  intros Hxy Hyz.
  destruct (fle_notnan _ _ Hxy) as [Hx Hy], (flt_notnan _ _ Hyz) as [_ Hz].
  rewrite fle_key in Hxy by assumption. rewrite flt_key in * by assumption.
  destruct Hxy as [Hxy|Hxy]; [key_order | rewrite Hxy; exact Hyz].
Qed.

Lemma flt_fle_trans (x y z : float) :
  flt x y = true -> fle y z = true -> flt x z = true.
Proof.
  intros Hxy Hyz.
  destruct (flt_notnan _ _ Hxy) as [Hx Hy], (fle_notnan _ _ Hyz) as [_ Hz].
  rewrite fle_key in Hyz by assumption. rewrite flt_key in * by assumption.
  destruct Hyz as [Hyz|Hyz]; [key_order | rewrite <- Hyz; exact Hxy].
Qed.

Lemma fle_flt_false (x y : float) : fle x y = true -> flt y x = false.
Proof.
  intros H. destruct (flt y x) eqn:E; [|reflexivity].
  pose proof (flt_fle_trans _ _ _ E H) as K. rewrite flt_irrefl in K. discriminate.
Qed.

(** np.where *)
Lemma where_from_In (mask : list bool) (i k : nat) :
  In k (where_from i mask) <-> i <= k /\ nth_error mask (k - i) = Some true.
Proof.
  revert i. induction mask as [|b rest IH]; intros i; cbn.
  - split; [contradiction | intros [_ H]; destruct (k - i); discriminate].
  - assert (In k (where_from (S i) rest) <-> S i <= k /\ nth_error (b :: rest) (k - i) = Some true) as IH'.
    { rewrite IH. split; intros [Hk Hn]; split; try lia.
      - replace (k - i) with (S (k - S i)) by lia. exact Hn.
      - replace (k - i) with (S (k - S i)) in Hn by lia. exact Hn. }
    destruct b; cbn; rewrite ?IH'.
    + split.
      * intros [<-|[Hk Hn]]; [split; [lia | now rewrite Nat.sub_diag] | split; [lia | exact Hn]].
      * intros [Hk Hn]. destruct (Nat.eq_dec i k) as [->|Hne]; [now left | right; split; [lia | exact Hn]].
    + split.
      * intros [Hk Hn]; split; [lia | exact Hn].
      * intros [Hk Hn]. destruct (Nat.eq_dec i k) as [->|Hne].
        -- rewrite Nat.sub_diag in Hn. discriminate.
        -- split; [lia | exact Hn].
Qed.

Lemma np_where_In (mask : list bool) (k : nat) :
  In k (np_where mask) <-> nth_error mask k = Some true.
Proof.
  unfold np_where. rewrite where_from_In, Nat.sub_0_r. intuition lia.
Qed.

Lemma np_where_lt (mask : list bool) (k : nat) :
  In k (np_where mask) -> k < length mask.
Proof.
  rewrite np_where_In. intros H. apply nth_error_Some. congruence.
Qed.

Lemma where_from_nil (mask : list bool) (i : nat) :
  (forall b, In b mask -> b = false) -> where_from i mask = [].
Proof.
  revert i. induction mask as [|b rest IH]; intros i H; cbn; [reflexivity|].
  rewrite (H b) by now left. apply IH. intros; apply H; now right.
Qed.

Lemma contains_In (pts : list nat) (i : nat) : contains pts i = true <-> In i pts.
Proof.
  unfold contains. rewrite existsb_exists. split.
  - intros (x & Hx & E). apply Nat.eqb_eq in E. now subst.
  - intros H. exists i. split; [exact H | apply Nat.eqb_refl].
Qed.

(** adjacent pairs *)
Lemma zip_adjacent_In {C : Type} (f : float -> float -> C) (arr : list float) (c : C) :
  In c (zip_with f (removelast arr) (tl arr)) ->
  exists i, S i < length arr /\ c = f (nth i arr nan) (nth (S i) arr nan).
Proof.
  induction arr as [|x [|y rest] IH]; cbn; try contradiction.
  intros [<-|H].
  - exists 0. split; [lia | reflexivity].
  - destruct (IH H) as (i & Hi & ->). exists (S i). split; [cbn in *; lia | reflexivity].
Qed.

Lemma dups_of_nil (tiny : float) (arr : list float) :
  (forall i, S i < length arr ->
     flt (fabs (fsub (nth i arr nan) (nth (S i) arr nan))) tiny = false) ->
  dups_of tiny arr = [].
Proof.
  intros H. unfold dups_of, np_where. apply where_from_nil.
  intros b Hb. apply zip_adjacent_In in Hb. destruct Hb as (i & Hi & ->). now apply H.
Qed.

(** C9, as the code has it: on an array none of whose neighbours are
    closer than tiny, [remove_dups] changes nothing, and so applying it
    twice is applying it once. *)
Theorem remove_dups_noop (arr : list float) :
  well_separated tiny_default arr ->
  remove_dups arr = arr /\ remove_dups (remove_dups arr) = remove_dups arr.
Proof.
  intros H.
  assert (remove_dups arr = arr) as E.
  { unfold remove_dups, remove_dups_with. now rewrite dups_of_nil. }
  split; [exact E | now rewrite !E].
Qed.

Lemma subseq_refl {A : Type} (l : list A) : subseq l l.
Proof. induction l; constructor; assumption. Qed.

Lemma subseq_trans {A : Type} (l1 l2 l3 : list A) :
  subseq l1 l2 -> subseq l2 l3 -> subseq l1 l3.
Proof.
  intros H12 H23. revert l1 H12.
  induction H23 as [|x s l H IH|x s l H IH]; intros l1 H12.
  - exact H12.
  - inversion H12; subst.
    + constructor. now apply IH.
    + apply subseq_drop. now apply IH.
  - apply subseq_drop. now apply IH.
Qed.

Lemma drop_from_subseq {A : Type} (obj : list nat) (arr : list A) (i : nat) :
  subseq (drop_from i obj arr) arr.
Proof.
  revert i. induction arr as [|x rest IH]; intros i; cbn.
  - constructor.
  - destruct (contains obj i); constructor; apply IH.
Qed.

Lemma drop_from_combine {A B : Type} (obj : list nat) (a : list A) (b : list B) (i : nat) :
  drop_from i obj (combine a b) = combine (drop_from i obj a) (drop_from i obj b).
Proof.
  revert b i. induction a as [|x a IH]; intros [|y b] i; cbn; try reflexivity.
  - now rewrite combine_nil.
  - destruct (contains obj i); cbn; now rewrite IH.
Qed.

Lemma subseq_origin {A : Type} (s l : list A) :
  subseq s l ->
  exists origin : list nat,
    StronglySorted lt origin /\ length origin = length s /\
    forall i k, nth_error origin i = Some k ->
      k < length l /\ nth_error s i = nth_error l k.
Proof.
  induction 1 as [|x s l H IH|x s l H IH].
  - exists []. split; [constructor | split; [reflexivity | intros [|i] k; discriminate]].
  - destruct IH as (origin & Hs & Hl & Ho).
    exists (0 :: map S origin). split; [|split].
    + constructor.
      * clear Hl Ho. induction Hs as [|k ks Hks IHs Hall]; cbn; constructor.
        -- exact IHs.
        -- rewrite Forall_map. eapply Forall_impl; [|exact Hall]. cbn; intros; lia.
      * rewrite Forall_map. apply Forall_forall. intros; lia.
    + cbn. now rewrite length_map, Hl.
    + intros [|i] k; cbn.
      * intros [= <-]. split; [lia | reflexivity].
      * rewrite nth_error_map. destruct (nth_error origin i) as [k'|] eqn:E; [|discriminate].
        intros [= <-]. destruct (Ho _ _ E) as [Hk Hn]. split; [lia | exact Hn].
  - destruct IH as (origin & Hs & Hl & Ho).
    exists (map S origin). split; [|split].
    + clear Hl Ho. induction Hs as [|k ks Hks IHs Hall]; cbn; constructor.
      * exact IHs.
      * rewrite Forall_map. eapply Forall_impl; [|exact Hall]. cbn; intros; lia.
    + now rewrite length_map.
    + intros i k. rewrite nth_error_map.
      destruct (nth_error origin i) as [k'|] eqn:E; [|discriminate].
      intros [= <-]. destruct (Ho _ _ E) as [Hk Hn]. split; [cbn; lia | exact Hn].
Qed.

Lemma nth_error_combine {A B : Type} (a : list A) (b : list B) (i : nat) :
  nth_error (combine a b) i =
  match nth_error a i, nth_error b i with
  | Some x, Some y => Some (x, y)
  | _, _ => None
  end.
Proof.
  revert b i. induction a as [|x a IH]; intros [|y b] [|i]; cbn; try reflexivity.
  - now destruct (nth_error a i).
  - apply IH.
Qed.

Lemma subseq_paired {A B : Type} (a a' : list A) (b b' : list B) :
  length a = length b -> length a' = length b' ->
  subseq (combine a' b') (combine a b) -> paired a b a' b'.
Proof.
  intros Hab Hab' H. split; [exact Hab'|].
  destruct (subseq_origin H) as (origin & Hs & Hl & Ho).
  exists origin. rewrite length_combine, <- Hab', Nat.min_id in Hl.
  split; [exact Hs | split; [exact Hl|]].
  intros i k E. destruct (Ho _ _ E) as [Hk Hn].
  rewrite length_combine, <- Hab, Nat.min_id in Hk. split; [exact Hk|].
  rewrite !nth_error_combine in Hn.
  assert (i < length a') as Hi.
  { rewrite <- Hl. apply nth_error_Some. congruence. }
  destruct (nth_error a' i) as [x|] eqn:Ea; [|apply nth_error_None in Ea; lia].
  destruct (nth_error b' i) as [y|] eqn:Eb; [|apply nth_error_None in Eb; lia].
  destruct (nth_error a k) as [x'|] eqn:Ea'; [|apply nth_error_None in Ea'; lia].
  destruct (nth_error b k) as [y'|] eqn:Eb'; [|apply nth_error_None in Eb'; lia].
  injection Hn as -> ->. split; reflexivity.
Qed.

Lemma drop_from_length {A B : Type} (obj : list nat) (a : list A) (b : list B) (i : nat) :
  length a = length b -> length (drop_from i obj a) = length (drop_from i obj b).
Proof.
  revert b i. induction a as [|x a IH]; intros [|y b] i; cbn; try discriminate; try reflexivity.
  intros [= H]. destruct (contains obj i); cbn; now rewrite (IH b).
Qed.

Lemma np_delete_Ok {A : Type} (pol : oob_policy) (arr : list A) (obj : list nat) (r : list A) :
  np_delete pol arr obj = Ok r -> r = drop_from 0 obj arr.
Proof.
  unfold np_delete. destruct pol; [|destruct (forallb _ obj)]; congruence.
Qed.

Lemma delete_where_step (pol : oob_policy) (guard : bool) (src : list float) (target : float)
  (a b a1 b1 a2 b2 : list float) :
  in_step a b a1 b1 ->
  delete_where pol guard src target (a1, b1) = Ok (a2, b2) ->
  in_step a b a2 b2.
Proof.
  intros [Hl Hs]. unfold delete_where. destruct guard; [|intros [= <- <-]; now split].
  cbn [fst snd].
  destruct (np_delete pol a1 _) as [a1'|] eqn:Ea; [|discriminate].
  destruct (np_delete pol b1 _) as [b1'|] eqn:Eb; [|discriminate].
  cbn. intros [= <- <-]. apply np_delete_Ok in Ea, Eb. subst.
  split; [now apply drop_from_length|].
  rewrite <- drop_from_combine. eapply subseq_trans; [apply drop_from_subseq | exact Hs].
Qed.

Lemma remove_nans2_in_step (pol : oob_policy) (a b a' b' : list float) :
  length a = length b -> remove_nans2 pol a b = Ok (a', b') -> in_step a b a' b'.
Proof.
  intros Hlen. unfold remove_nans2.
  assert (in_step a b a b) as H0 by (split; [exact Hlen | apply subseq_refl]).
  destruct (_ || _); [|intros [= <- <-]; exact H0].
  destruct (delete_where pol (existsb isinf a) a pinf (a, b)) as [[a1 b1]|] eqn:E1; [|discriminate].
  cbn. destruct (delete_where pol (existsb isinf b) b pinf (a1, b1)) as [[a2 b2]|] eqn:E2; [|discriminate].
  cbn. destruct (delete_where pol (existsb isnan a) a nan (a2, b2)) as [[a3 b3]|] eqn:E3; [|discriminate].
  cbn. intros E4.
  eapply delete_where_step; [|exact E4].
  eapply delete_where_step; [|exact E3].
  eapply delete_where_step; [|exact E2].
  eapply delete_where_step; [exact H0|exact E1].
Qed.

Lemma remove_nans2_pairing (pol : oob_policy) (a b a' b' : list float) :
  length a = length b -> remove_nans2 pol a b = Ok (a', b') -> paired a b a' b'.
Proof.
  intros Hlen H. destruct (remove_nans2_in_step _ _ _ Hlen H) as [Hl Hs].
  now apply subseq_paired.
Qed.

Lemma drop_from_none {A : Type} (arr : list A) (i : nat) : drop_from i [] arr = arr.
Proof.
  revert i. induction arr as [|x rest IH]; intros i; cbn; [reflexivity | now rewrite IH].
Qed.

Lemma np_delete_none {A : Type} (pol : oob_policy) (arr : list A) :
  np_delete pol arr [] = Ok arr.
Proof.
  destruct pol; cbn; now rewrite drop_from_none.
Qed.

Lemma np_where_absent (target : float) (src : list float) :
  existsb (fun x => feq x target) src = false ->
  np_where (map (fun x => feq x target) src) = [].
Proof.
  intros H. apply where_from_nil. intros b Hb.
  apply in_map_iff in Hb. destruct Hb as (x & <- & Hx).
  destruct (feq x target) eqn:E; [|reflexivity].
  assert (existsb (fun x => feq x target) src = true) as K
    by (apply existsb_exists; now exists x).
  congruence.
Qed.

Lemma delete_where_absent (pol : oob_policy) (guard : bool) (src : list float)
  (target : float) (ab : list float * list float) :
  existsb (fun x => feq x target) src = false ->
  delete_where pol guard src target ab = Ok ab.
Proof.
  intros H. unfold delete_where. destruct guard; [|reflexivity].
  rewrite np_where_absent by exact H. rewrite !np_delete_none. now destruct ab.
Qed.

Lemma feq_nan (x : float) : feq x nan = false.
Proof. destruct x; reflexivity. Qed.

Lemma delete_where_nan (pol : oob_policy) (guard : bool) (src : list float)
  (ab : list float * list float) :
  delete_where pol guard src nan ab = Ok ab.
Proof.
  apply delete_where_absent. induction src as [|x rest IH]; cbn; [reflexivity|].
  now rewrite feq_nan.
Qed.

Lemma np_delete_in_range {A : Type} (pol : oob_policy) (arr : list A) (mask : list bool) :
  length mask = length arr ->
  np_delete pol arr (np_where mask) = Ok (drop_from 0 (np_where mask) arr).
Proof.
  intros H. destruct pol; cbn; [reflexivity|].
  replace (forallb _ _) with true; [reflexivity|].
  symmetry. apply forallb_forall. intros k Hk. apply Nat.ltb_lt.
  rewrite <- H. now apply np_where_lt.
Qed.

Lemma delete_where_Raise (pol : oob_policy) (guard : bool) (src : list float)
  (target : float) (ab : list float * list float) (e : pyerr) :
  delete_where pol guard src target ab = Raise e -> pol = OobRaises /\ e = IndexError.
Proof.
  unfold delete_where. destruct guard; [|discriminate].
  destruct pol; cbn; [discriminate|].
  destruct (forallb _ _); cbn; [|intros [= <-]; now split].
  destruct (forallb _ _); cbn; [discriminate | intros [= <-]; now split].
Qed.

(** [remove_nans2] raises only where [np.delete] meets an index past the end,
    which takes +inf entries in both arrays. *)
Lemma remove_nans2_Raise (pol : oob_policy) (a b : list float) (e : pyerr) :
  length a = length b ->
  remove_nans2 pol a b = Raise e ->
  pol = OobRaises /\ e = IndexError /\
  existsb (fun x => feq x pinf) a = true /\ existsb (fun x => feq x pinf) b = true.
Proof.
  intros Hlen. unfold remove_nans2. destruct (_ || _); [|discriminate].
  assert (delete_where pol (existsb isinf a) a pinf (a, b)
          = Ok (if existsb isinf a
                then (drop_from 0 (np_where (map (fun x => feq x pinf) a)) a,
                      drop_from 0 (np_where (map (fun x => feq x pinf) a)) b)
                else (a, b))) as E1.
  { unfold delete_where. destruct (existsb isinf a); [|reflexivity]. cbn [fst snd].
    rewrite !np_delete_in_range by (rewrite length_map; congruence). reflexivity. }
  rewrite E1. cbn [bind]. clear E1.
  destruct (delete_where pol (existsb isinf b) b pinf _) as [ab2|e'] eqn:E2.
  - cbn [bind]. rewrite delete_where_nan. cbn [bind]. rewrite delete_where_nan. discriminate.
  - cbn [bind]. intros [= <-].
    destruct (delete_where_Raise _ _ _ _ _ E2) as [-> ->].
    split; [reflexivity | split; [reflexivity|]].
    destruct (existsb (fun x => feq x pinf) b) eqn:Eb;
      [|rewrite delete_where_absent in E2 by exact Eb; discriminate].
    destruct (existsb (fun x => feq x pinf) a) eqn:Ea; [now split|].
    exfalso. rewrite np_where_absent in E2 by exact Ea. rewrite !drop_from_none in E2.
    replace (if existsb isinf a then (a, b) else (a, b)) with (a, b) in E2
      by now destruct (existsb isinf a).
    unfold delete_where in E2. destruct (existsb isinf b); [|discriminate]. cbn [fst snd] in E2.
    rewrite !np_delete_in_range in E2 by (rewrite length_map; congruence). discriminate.
Qed.

(** X22: whenever [remove_nans2] returns on arrays of equal length, the
    two results have equal length and their entries at every index come
    from one and the same index of the inputs, in the original order.  The
    only other outcome is the IndexError of an [np.delete] that rejects
    indices past the end, which takes +inf entries in both inputs. *)
Theorem remove_nans2_keeps_pairs (pol : oob_policy) (a b : list float) :
  length a = length b ->
  match remove_nans2 pol a b with
  | Ok (a', b') => paired a b a' b'
  | Raise e =>
      pol = OobRaises /\ e = IndexError /\
      existsb (fun x => feq x pinf) a = true /\ existsb (fun x => feq x pinf) b = true
  end.
Proof.
  intros Hlen. destruct (remove_nans2 pol a b) as [[a' b']|e] eqn:E.
  - now apply remove_nans2_pairing with pol.
  - now apply remove_nans2_Raise.
Qed.

(** ** Index searches stay inside the array *)

Lemma fold_max_In (rest : list nat) (i : nat) : In (fold_left Nat.max rest i) (i :: rest).
Proof.
  revert i. induction rest as [|j rest IH]; intros i; cbn; [now left|].
  destruct (IH (Nat.max i j)) as [H|H]; [|now right; right].
  rewrite <- H. destruct (Nat.max_spec i j) as [[_ E]|[_ E]]; rewrite E; cbn; auto.
Qed.

Lemma py_max_index_In (l : list nat) (p : nat) : py_max_index l = Ok p -> In p l.
Proof.
  destruct l as [|i rest]; [discriminate|]. intros [= <-]. apply fold_max_In.
Qed.

Lemma py_min_Ok (arr : list float) (m : float) : py_min arr = Ok m -> arr <> [].
Proof. destruct arr; [discriminate | intros _; discriminate]. Qed.

Lemma index_of_lt (arrval : list float) (value : float) (p : nat) :
  index_of arrval value = Ok p -> p < length arrval.
Proof.
  unfold index_of. destruct (py_min arrval) as [m|] eqn:Em; [|discriminate]. cbn.
  destruct (flt value m).
  - intros [= <-]. destruct arrval; [discriminate | cbn; lia].
  - intros H. apply py_max_index_In, np_where_lt in H. now rewrite length_map in H.
Qed.

Lemma argmin_from_lt (rest : list float) (i best : nat) (mp : float) :
  best < i -> argmin_from i best mp rest < i + length rest.
Proof.
  revert i best mp. induction rest as [|x rest IH]; intros i best mp Hb; cbn; [lia|].
  destruct (isnan mp); [lia|].
  destruct (negb (fge x mp)).
  - specialize (IH (S i) i x). lia.
  - specialize (IH (S i) best mp). lia.
Qed.

Lemma np_argmin_lt (arr : list float) (p : nat) : np_argmin arr = Ok p -> p < length arr.
Proof.
  destruct arr as [|x rest]; [discriminate|]. intros [= <-].
  pose proof (argmin_from_lt rest x (i := 1) (best := 0)). cbn. lia.
Qed.

Lemma index_nearest_lt (array : list float) (value : float) (p : nat) :
  index_nearest array value = Ok p -> p < length array.
Proof.
  unfold index_nearest. intros H. apply np_argmin_lt in H. now rewrite length_map in H.
Qed.

Lemma slice_length {A : Type} (p1 p2 : nat) (arr : list A) :
  p2 <= length arr -> length (slice p1 p2 arr) = p2 - p1.
Proof.
  intros H. unfold slice. rewrite length_firstn, length_skipn. lia.
Qed.

(** C6, as the code has it: a resolved window [p1:p2] starts at
    [index_of(energy, lo + e0)].  Its end is [index_nearest(energy, hi + e0)]
    when that index is at least two above the start; otherwise the end is
    the start plus two, clamped to the length of the array.  The window
    lies inside the array and holds p2 - p1 samples: at least one, at
    least two when two samples remain from p1 on, and exactly one when p1
    is the last index. *)
Theorem fit_window_samples (energy : list float) (e0 lo hi : float) (p1 p2 : nat) :
  fit_window energy e0 lo hi = Ok (p1, p2) ->
  (exists q2,
     index_of energy (fadd lo e0) = Ok p1 /\
     index_nearest energy (fadd hi e0) = Ok q2 /\
     (p1 + 2 <= q2 -> p2 = q2) /\
     (q2 < p1 + 2 -> p2 = Nat.min (length energy) (p1 + 2))) /\
  p1 < length energy /\ p2 <= length energy /\
  length (slice p1 p2 energy) = p2 - p1 /\
  1 <= p2 - p1 /\
  (p1 + 2 <= length energy -> 2 <= p2 - p1) /\
  (p1 + 1 = length energy -> p2 - p1 = 1).
Proof.
  unfold fit_window.
  destruct (index_of energy (fadd lo e0)) as [q1|] eqn:E1; [|discriminate]. cbn [bind].
  destruct (index_nearest energy (fadd hi e0)) as [q2|] eqn:E2; [|discriminate]. cbn [bind].
  pose proof (index_of_lt _ _ E1) as L1. pose proof (index_nearest_lt _ _ E2) as L2.
  destruct (Z.ltb_spec (Z.of_nat q2 - Z.of_nat q1) 2); intros [= <- <-];
    (split; [exists q2; repeat split; try reflexivity; lia|]);
    (split; [exact L1|]); (split; [lia|]); rewrite slice_length by lia; lia.
Qed.

(** ** NaN through the arithmetic *)

Lemma fadd_nan_r (x : float) : fadd x nan = nan.
Proof. destruct x; reflexivity. Qed.

Lemma fsub_nan_l (x : float) : fsub nan x = nan.
Proof. reflexivity. Qed.

Lemma fabs_isnan (x : float) : isnan (fabs x) = isnan x.
Proof. destruct x; reflexivity. Qed.

Lemma fle_nan_r (x : float) : fle x nan = false.
Proof. destruct x; reflexivity. Qed.

(** ** The built-in min and max *)

Lemma min_from_spec (xs : list float) (x : float) :
  isnan x = false ->
  isnan (min_from x xs) = false /\
  forall y, In y (x :: xs) -> isnan y = false -> fle (min_from x xs) y = true.
Proof.
  unfold min_from. revert x. induction xs as [|z xs IH]; intros x Hx; cbn.
  - split; [exact Hx|]. intros y [<-|[]] _. now apply fle_refl.
  - destruct (flt z x) eqn:E.
    + destruct (flt_notnan _ _ E) as [Hz _].
      destruct (IH z Hz) as [Hn Hall]. split; [exact Hn|].
      intros y [<-|[<-|Hy]] Hy'.
      * apply fle_trans with z; [apply Hall; [now left | exact Hz] | now apply flt_fle].
      * apply Hall; [now left | exact Hz].
      * apply Hall; [now right | exact Hy'].
    + destruct (IH x Hx) as [Hn Hall]. split; [exact Hn|].
      intros y [<-|[<-|Hy]] Hy'.
      * apply Hall; [now left | exact Hx].
      * apply fle_trans with x; [apply Hall; [now left | exact Hx] | now apply flt_false_fle].
      * apply Hall; [now right | exact Hy'].
Qed.

Lemma max_from_spec (xs : list float) (x : float) :
  isnan x = false ->
  isnan (max_from x xs) = false /\
  forall y, In y (x :: xs) -> isnan y = false -> fle y (max_from x xs) = true.
Proof.
  unfold max_from, fgt. revert x. induction xs as [|z xs IH]; intros x Hx; cbn.
  - split; [exact Hx|]. intros y [<-|[]] _. now apply fle_refl.
  - destruct (flt x z) eqn:E.
    + destruct (flt_notnan _ _ E) as [_ Hz].
      destruct (IH z Hz) as [Hn Hall]. split; [exact Hn|].
      intros y [<-|[<-|Hy]] Hy'.
      * apply fle_trans with z; [now apply flt_fle | apply Hall; [now left | exact Hz]].
      * apply Hall; [now left | exact Hz].
      * apply Hall; [now right | exact Hy'].
    + destruct (IH x Hx) as [Hn Hall]. split; [exact Hn|].
      intros y [<-|[<-|Hy]] Hy'.
      * apply Hall; [now left | exact Hx].
      * apply fle_trans with x; [now apply flt_false_fle | apply Hall; [now left | exact Hx]].
      * apply Hall; [now right | exact Hy'].
Qed.

(** ** What a successful search says about its arguments *)

Lemma index_of_notnan (arrval : list float) (value : float) (p : nat) :
  index_of arrval value = Ok p -> isnan value = false.
Proof.
  unfold index_of. destruct (py_min arrval) as [m|]; [|discriminate]. cbn.
  destruct (flt value m) eqn:E.
  - intros _. now destruct (flt_notnan _ _ E).
  - intros H. apply py_max_index_In, np_where_In in H.
    rewrite nth_error_map in H. destruct (nth_error arrval p) as [x|]; [|discriminate].
    injection H as H. now destruct (fle_notnan _ _ H).
Qed.

Lemma np_argmin_head (x : float) (rest : list float) (k : nat) :
  np_argmin (x :: rest) = Ok k -> k <> 0 -> isnan x = false.
Proof.
  intros [= <-] Hk. destruct rest as [|y rest]; [now elim Hk|]. cbn in Hk.
  destruct (isnan x); [now elim Hk | reflexivity].
Qed.

Lemma snap_e0_spec (energy : list float) (e1 : float) (ie0 : nat) (e0 : float) :
  snap_e0 energy e1 = Ok (ie0, e0) ->
  index_nearest energy e1 = Ok ie0 /\ nth_error energy ie0 = Some e0.
Proof.
  unfold snap_e0. destruct (index_nearest energy e1) as [i|]; [|discriminate]. cbn.
  unfold getitem. destruct (nth_error energy i) as [x|] eqn:E; [|discriminate]. cbn.
  now intros [= <- <-].
Qed.

(** A sample picked by [index_nearest] that is not NaN lies between the
    built-in minimum and maximum of the array. *)
Lemma nearest_within_span (energy : list float) (e1 : float) (ie0 : nat) (e0 : float) :
  index_nearest energy e1 = Ok ie0 -> nth_error energy ie0 = Some e0 ->
  isnan e0 = false ->
  exists lo hi, py_min energy = Ok lo /\ py_max energy = Ok hi /\
                fle lo e0 = true /\ fle e0 hi = true.
Proof.
  intros Hi Hn He0. destruct energy as [|x xs]; [destruct ie0; discriminate|].
  assert (isnan x = false) as Hx.
  { destruct ie0 as [|j].
    - cbn in Hn. congruence.
    - unfold index_nearest in Hi. cbn [map] in Hi.
      apply np_argmin_head in Hi; [|discriminate].
      rewrite fabs_isnan in Hi. destruct x; try reflexivity. discriminate. }
  apply nth_error_In in Hn.
  exists (min_from x xs), (max_from x xs). repeat split.
  - now apply min_from_spec.
  - now apply max_from_spec.
Qed.

(** ** The scan for the edge index *)

Section Scan.
Variable f : nat -> float.
Variable ok : nat -> bool.

Lemma scan_inv (l : list nat) (st : nat * float) :
  isnan (snd st) = false ->
  let st' := fold_left (scan_step f ok) l st in
  isnan (snd st') = false /\
  (snd st' = snd st \/ fgt (snd st') (snd st) = true) /\
  (forall j, In j l -> ok j = true -> fgt (f j) (snd st') = false) /\
  (st' = st \/
   exists l1 l2, l = l1 ++ fst st' :: l2 /\ ok (fst st') = true /\
                 snd st' = f (fst st') /\ fgt (snd st') (snd st) = true /\
                 forall j, In j l1 -> ok j = true -> isnan (f j) = false ->
                           flt (f j) (snd st') = true).
Proof.
  revert st. induction l as [|i l IH]; intros st Hst; cbn zeta.
  - cbn. repeat split; auto. contradiction.
  - cbn [fold_left].
    assert (isnan (snd (scan_step f ok st i)) = false) as Hst1.
    { unfold scan_step. destruct (fgt (f i) (snd st) && ok i) eqn:E; [|exact Hst].
      apply andb_prop in E. destruct E as [E _]. cbn. now destruct (flt_notnan _ _ E). }
    destruct (IH (scan_step f ok st i) Hst1) as (Hn & Hmono & Hall & Hlast).
    remember (fold_left (scan_step f ok) l (scan_step f ok st i)) as st' eqn:Est'.
    assert (snd (scan_step f ok st i) = snd st \/ fgt (snd (scan_step f ok st i)) (snd st) = true) as Hs1.
    { unfold scan_step. destruct (fgt (f i) (snd st) && ok i) eqn:E; [|now left].
      apply andb_prop in E. right. cbn. tauto. }
    assert (snd st' = snd st \/ fgt (snd st') (snd st) = true) as Hmono'.
    { destruct Hmono as [->|Hm]; [exact Hs1|]. right.
      destruct Hs1 as [<-|Hs]; [exact Hm|]. unfold fgt in *. eapply flt_trans; eassumption. }
    split; [exact Hn|]. split; [exact Hmono'|]. split.
    + intros j [<-|Hj] Hok; [|now apply Hall].
      unfold fgt. destruct (flt (snd st') (f i)) eqn:Ef; [|reflexivity]. exfalso.
      unfold scan_step in Hmono. destruct (fgt (f i) (snd st) && ok i) eqn:E.
      * cbn in Hmono. destruct Hmono as [Hm|Hm].
        -- rewrite Hm, flt_irrefl in Ef. discriminate.
        -- unfold fgt in Hm. pose proof (flt_trans _ _ _ Hm Ef) as K.
           rewrite flt_irrefl in K. discriminate.
      * rewrite Hok, andb_true_r in E. unfold fgt in E.
        destruct Hmono as [Hm|Hm].
        -- rewrite Hm in Ef. congruence.
        -- unfold fgt in Hm. pose proof (flt_trans _ _ _ Hm Ef). congruence.
    + assert (forall d, fgt d (snd (scan_step f ok st i)) = true -> ok i = true ->
                        isnan (f i) = false -> flt (f i) d = true) as Hpast.
      { intros d Hd Hok Hfi. unfold scan_step in Hd. rewrite Hok, andb_true_r in Hd.
        unfold fgt in *. destruct (flt (snd st) (f i)) eqn:E; [exact Hd|].
        cbn in Hd. eapply fle_flt_trans; [|exact Hd].
        now apply flt_false_fle. }
      destruct Hlast as [Hl|(l1 & l2 & El & Hok & Hv & Hgt & Hbefore)].
      * unfold scan_step in Hl. destruct (fgt (f i) (snd st) && ok i) eqn:E; [|now left].
        right. exists [], l. rewrite Hl. cbn. apply andb_prop in E.
        repeat split; try tauto.
      * right. exists (i :: l1), l2. rewrite El. repeat split; try assumption.
        -- destruct Hs1 as [<-|Hs]; [exact Hgt|]. unfold fgt in *. eapply flt_trans; eassumption.
        -- intros j [<-|Hj] Hokj Hfj; [now apply Hpast | now apply Hbefore].
Qed.
End Scan.

Section Rounding.
Local Open Scope Z_scope.

(** ** Rounding: the size of a rounded result *)

Lemma digits2_bounds (p : positive) :
  2 ^ (Zpos (digits2_pos p) - 1) <= Zpos p < 2 ^ Zpos (digits2_pos p).
Proof.
  induction p as [p IH|p IH|]; cbn [digits2_pos].
  - rewrite Pos2Z.inj_succ.
    replace (Z.succ (Zpos (digits2_pos p)) - 1) with (Z.succ (Zpos (digits2_pos p) - 1)) by lia.
    rewrite !Z.pow_succ_r by lia. lia.
  - rewrite Pos2Z.inj_succ.
    replace (Z.succ (Zpos (digits2_pos p)) - 1) with (Z.succ (Zpos (digits2_pos p) - 1)) by lia.
    rewrite !Z.pow_succ_r by lia. lia.
  - cbn. lia.
Qed.

Lemma shr_1_digits (mrs : shr_record) :
  Zdigits2 (shr_m (shr_1 mrs)) = Z.max 0 (Zdigits2 (shr_m mrs) - 1).
Proof.
  destruct mrs as [m r s].
  destruct m as [|[p|p|]|[p|p|]]; cbn [shr_m shr_1 Zdigits2 digits2_pos];
    rewrite ?Pos2Z.inj_succ; lia.
Qed.

Lemma shr_1_value (mrs : shr_record) :
  0 <= shr_m mrs -> shr_m (shr_1 mrs) = shr_m mrs / 2.
Proof.
  destruct mrs as [m r s]. cbn [shr_m]. intros H. rewrite <- Z.div2_div.
  destruct m as [|[p|p|]|p]; try reflexivity. lia.
Qed.

Lemma iter_shr_1 (n : positive) (mrs : shr_record) :
  Zdigits2 (shr_m (iter_pos shr_1 n mrs)) = Z.max 0 (Zdigits2 (shr_m mrs) - Zpos n) /\
  (0 <= shr_m mrs -> shr_m (iter_pos shr_1 n mrs) = shr_m mrs / 2 ^ Zpos n).
Proof.
  revert mrs. induction n as [n IH|n IH|]; intros mrs; cbn [iter_pos].
  - destruct (IH (shr_1 mrs)) as [D1 V1].
    destruct (IH (iter_pos shr_1 n (shr_1 mrs))) as [D2 V2].
    split.
    + rewrite D2, D1, shr_1_digits. lia.
    + intros Hm. pose proof (shr_1_value mrs Hm) as V0.
      assert (0 <= shr_m (shr_1 mrs)) as H1 by (rewrite V0; apply Z.div_pos; lia).
      specialize (V1 H1).
      assert (0 <= shr_m (iter_pos shr_1 n (shr_1 mrs))) as H2
        by (rewrite V1; apply Z.div_pos; [lia | apply Z.pow_pos_nonneg; lia]).
      rewrite (V2 H2), V1, V0.
      rewrite !Z.div_div by (try apply Z.pow_pos_nonneg; lia).
      f_equal. change (Zpos n~1) with (2 * Zpos n + 1).
      replace (2 * Zpos n + 1) with (1 + Zpos n + Zpos n) by lia.
      rewrite !Z.pow_add_r by lia. change (2 ^ 1) with 2. lia.
  - destruct (IH mrs) as [D1 V1].
    destruct (IH (iter_pos shr_1 n mrs)) as [D2 V2].
    split.
    + rewrite D2, D1. lia.
    + intros Hm. specialize (V1 Hm).
      assert (0 <= shr_m (iter_pos shr_1 n mrs)) as H2
        by (rewrite V1; apply Z.div_pos; [lia | apply Z.pow_pos_nonneg; lia]).
      rewrite (V2 H2), V1.
      rewrite !Z.div_div by (try apply Z.pow_pos_nonneg; lia).
      f_equal. change (Zpos n~0) with (2 * Zpos n).
      replace (2 * Zpos n) with (Zpos n + Zpos n) by lia.
      rewrite !Z.pow_add_r by lia. lia.
  - split; [apply shr_1_digits|]. intros Hm. rewrite shr_1_value by exact Hm. reflexivity.
Qed.

Lemma shr_spec (mrs mrs2 : shr_record) (e n e2 : Z) :
  shr mrs e n = (mrs2, e2) ->
  e2 = e + Z.max 0 n /\
  Zdigits2 (shr_m mrs2) = Z.max 0 (Zdigits2 (shr_m mrs) - Z.max 0 n) /\
  (0 <= shr_m mrs -> shr_m mrs2 = shr_m mrs / 2 ^ Z.max 0 n).
Proof.
  unfold shr. destruct n as [|p|p]; intros [= <- <-].
  - cbn. split; [lia|]. split; [destruct (shr_m mrs); cbn; lia|].
    intros _. now rewrite Z.div_1_r.
  - destruct (iter_shr_1 p mrs) as [D V].
    replace (Z.max 0 (Zpos p)) with (Zpos p) by lia. repeat split; assumption.
  - cbn. split; [lia|]. split; [destruct (shr_m mrs); cbn; lia|].
    intros _. now rewrite Z.div_1_r.
Qed.

Lemma shr_record_of_loc_m (m : Z) (l : location) : shr_m (shr_record_of_loc m l) = m.
Proof. destruct l as [|[| |]]; reflexivity. Qed.

Lemma shr_fexp_spec (m e : Z) (l : location) (mrs2 : shr_record) (e2 : Z) :
  shr_fexp prec emax m e l = (mrs2, e2) ->
  let n := Z.max 0 (Z.max (Zdigits2 m + e - 53) (-1074) - e) in
  e2 = e + n /\
  Zdigits2 (shr_m mrs2) = Z.max 0 (Zdigits2 m - n) /\
  (0 <= m -> shr_m mrs2 = m / 2 ^ n).
Proof.
  unfold shr_fexp. intros H. apply shr_spec in H. rewrite shr_record_of_loc_m in H.
  exact H.
Qed.

Lemma Zdigits2_bounds (m : Z) :
  0 < m -> 2 ^ (Zdigits2 m - 1) <= m < 2 ^ Zdigits2 m.
Proof.
  destruct m as [|p|p]; try lia. intros _. apply digits2_bounds.
Qed.

Lemma Zdigits2_nonneg (m : Z) : 0 <= Zdigits2 m.
Proof. destruct m; cbn; lia. Qed.

Lemma Zdigits2_le (m k : Z) : 0 <= k -> 0 <= m < 2 ^ k -> Zdigits2 m <= k.
Proof.
  intros Hk [H0 Hm]. destruct (Z.eq_dec m 0) as [->|Hne]; [cbn; lia|].
  destruct (@Zdigits2_bounds m) as [Hlo _]; [lia|].
  destruct (Z_le_gt_dec (Zdigits2 m) k) as [|Hgt]; [assumption|]. exfalso.
  assert (2 ^ k <= 2 ^ (Zdigits2 m - 1)) by (apply Z.pow_le_mono_r; lia). lia.
Qed.

Lemma Zdigits2_ge (m k : Z) : 0 <= k -> 2 ^ k <= m -> k < Zdigits2 m.
Proof.
  intros Hk Hm. assert (0 < 2 ^ k) by (apply Z.pow_pos_nonneg; lia).
  destruct (@Zdigits2_bounds m) as [_ Hhi]; [lia|].
  pose proof (Zdigits2_nonneg m).
  destruct (Z_lt_le_dec k (Zdigits2 m)) as [|Hle]; [assumption|]. exfalso.
  assert (2 ^ Zdigits2 m <= 2 ^ k) by (apply Z.pow_le_mono_r; lia). lia.
Qed.

Lemma round_nearest_even_range (m : Z) (l : location) :
  m <= round_nearest_even m l <= m + 1.
Proof.
  destruct l as [|[| |]]; cbn; try lia. destruct (Z.even m); lia.
Qed.

Lemma binary_round_aux_bounded (s : bool) (m e : Z) (l : location) :
  bounded_float (binary_round_aux prec emax s m e l).
Proof.
  unfold binary_round_aux.
  destruct (shr_fexp prec emax m e l) as [mrs' e'].
  destruct (shr_fexp prec emax _ e' loc_Exact) as [mrs'' e''] eqn:E2.
  apply shr_fexp_spec in E2. cbn zeta in E2. destruct E2 as (He & Hd & _).
  destruct (shr_m mrs'') as [|m''|m''] eqn:Em; cbn; try exact I.
  destruct (Z.leb_spec e'' 971); cbn; [|exact I].
  cbn [Zdigits2] in Hd. lia.
Qed.

Lemma fdiv_bounded (x y : float) : bounded_float (fdiv x y).
Proof.
  destruct x as [sx|sx| |sx mx ex], y as [sy|sy| |sy my ey]; cbn; try exact I.
  unfold fdiv, SFdiv.
  destruct (SFdiv_core_binary prec emax (Zpos mx) ex (Zpos my) ey) as [[mz ez] lz].
  apply binary_round_aux_bounded.
Qed.

(** Five percent of a negative float is not below the float itself. *)
Lemma five_percent_of_negative (mM : positive) (eM : Z) :
  Zpos (digits2_pos mM) <= 53 -> -1074 <= eM <= 971 ->
  isnan (fmul (S754_finite true mM eM) five_percent) = true \/
  fle (S754_finite true mM eM) (fmul (S754_finite true mM eM) five_percent) = true.
Proof.
  intros HdM HeM. unfold fmul, SFmul, five_percent. cbn [xorb].
  unfold binary_round_aux.
  destruct (shr_fexp prec emax (Zpos (mM * 7205759403792794)) (eM + -57) loc_Exact)
    as [mrs' e'] eqn:E1.
  destruct (shr_fexp prec emax _ e' loc_Exact) as [mrs'' e''] eqn:E2.
  apply shr_fexp_spec in E1. apply shr_fexp_spec in E2. cbn zeta in E1, E2.
  destruct E1 as (He1 & Hd1 & Hv1). destruct E2 as (He2 & Hd2 & Hv2).
  specialize (Hv1 ltac:(lia)).
  pose proof (round_nearest_even_range (shr_m mrs') (loc_of_shr_record mrs')) as Hr.
  remember (round_nearest_even (shr_m mrs') (loc_of_shr_record mrs')) as m1 eqn:Em1.
  remember (Zpos (mM * 7205759403792794)) as P eqn:EP.
  assert (P = Zpos mM * 7205759403792794) as HP by (subst P; apply Pos2Z.inj_mul).
  destruct (digits2_bounds mM) as [_ HmHi].
  assert (2 ^ Zpos (digits2_pos mM) <= 2 ^ 53) as Hp53 by (apply Z.pow_le_mono_r; lia).
  change (2 ^ 53) with 9007199254740992 in Hp53.
  assert (Zdigits2 P <= 106) as HdP.
  { apply Zdigits2_le; [lia|]. change (2 ^ 106) with (9007199254740992 * 9007199254740992). nia. }
  pose proof (Zdigits2_nonneg P) as HdP0.
  remember (Z.max 0 (Z.max (Zdigits2 P + (eM + -57) - 53) (-1074) - (eM + -57))) as n1 eqn:En1.
  assert (0 <= n1) as Hn1 by lia.
  assert (0 <= shr_m mrs') as Hm'0.
  { rewrite Hv1. apply Z.div_pos; [lia | apply Z.pow_pos_nonneg; lia]. }
  assert (Zdigits2 (shr_m mrs') <= 53) as Hd' by lia.
  assert (shr_m mrs' < 2 ^ 53) as Hm'53.
  { destruct (Z.eq_dec (shr_m mrs') 0) as [->|Hne]; [reflexivity|].
    destruct (@Zdigits2_bounds (shr_m mrs')) as [_ Hhi]; [lia|].
    assert (2 ^ Zdigits2 (shr_m mrs') <= 2 ^ 53)
      by (apply Z.pow_le_mono_r; [lia | exact Hd']).
    lia. }
  change (2 ^ 53) with 9007199254740992 in Hm'53.
  assert (Zdigits2 m1 <= 54) as Hd1'.
  { apply Zdigits2_le; [lia|]. change (2 ^ 54) with 18014398509481984. lia. }
  pose proof (Zdigits2_nonneg m1) as Hd10.
  assert (0 <= m1) as Hm10 by lia.
  specialize (Hv2 Hm10).
  assert (e'' <= eM /\ (e'' < eM \/ shr_m mrs'' <= Zpos mM)) as [Hle Hcmp].
  { destruct (Z_le_gt_dec (-1072) eM) as [Hbig|Hsmall]; [lia|].
    destruct (Z.eq_dec eM (-1073)) as [->|Hne].
    - assert (n1 = 56) as -> by lia.
      change (2 ^ 56) with 72057594037927936 in Hv1.
      assert (Zdigits2 m1 <= 53) as Hd1''.
      { apply Zdigits2_le; [lia|]. change (2 ^ 53) with 9007199254740992.
        assert (P / 72057594037927936 < 1125899906842624)
          by (apply Z.div_lt_upper_bound; lia).
        lia. }
      lia.
    - assert (eM = -1074) as -> by lia.
      assert (n1 = 57) as -> by lia.
      change (2 ^ 57) with 144115188075855872 in Hv1.
      assert (m1 <= Zpos mM) as Hm1.
      { assert (P / 144115188075855872 <= Zpos mM - 1); [|lia].
        apply Z.lt_succ_r. apply Z.div_lt_upper_bound; lia. }
      assert (Zdigits2 m1 <= 53) as Hd1''.
      { apply Zdigits2_le; [lia|]. change (2 ^ 53) with 9007199254740992. lia. }
      assert (Z.max 0 (Z.max (Zdigits2 m1 + e' - 53) (-1074) - e') = 0) as Hn2 by lia.
      rewrite Hn2 in *. rewrite Z.pow_0_r, Z.div_1_r in Hv2. split; [lia|].
      right. lia. }
  destruct (shr_m mrs'') as [|m''|m''] eqn:Em''.
  - right. reflexivity.
  - replace (e'' <=? emax - prec) with true
      by (symmetry; apply Z.leb_le; unfold emax, prec; lia).
    right. apply fle_key; try reflexivity. unfold key_le, key_lt. cbn [key].
    destruct (Z.eq_dec e'' eM) as [->|Hne'].
    + destruct (Z.eq_dec (Zpos m'') (Zpos mM)) as [Heq|Hneq].
      * right. injection Heq as ->. reflexivity.
      * left. lia.
    + left. lia.
  - left. reflexivity.
Qed.

End Rounding.

Lemma where_from_sorted (mask : list bool) (i : nat) : StronglySorted lt (where_from i mask).
Proof.
  revert i. induction mask as [|b rest IH]; intros i; cbn; [constructor|].
  destruct b; [|apply IH]. constructor; [apply IH|].
  apply Forall_forall. intros k Hk. apply where_from_In in Hk. lia.
Qed.

Lemma sorted_before (l1 l2 : list nat) (k j : nat) :
  StronglySorted lt (l1 ++ k :: l2) -> In j (l1 ++ k :: l2) -> j < k -> In j l1.
Proof.
  induction l1 as [|x l1 IH]; cbn; intros Hs Hj Hlt.
  - inversion Hs as [|? ? _ Hall]; subst. destruct Hj as [<-|Hj]; [lia|].
    rewrite Forall_forall in Hall. specialize (Hall _ Hj). lia.
  - inversion Hs as [|? ? Hs' _]; subst. destruct Hj as [<-|Hj]; [now left|].
    right. now apply IH.
Qed.

Lemma setitem_length {A : Type} (arr : list A) (i : nat) (v : A) :
  length (setitem arr i v) = length arr.
Proof.
  revert i. induction arr as [|x arr IH]; intros [|i]; cbn; auto.
Qed.

Lemma remove_dups_with_length (tiny frac : float) (arr : list float) :
  length (remove_dups_with tiny frac arr) = length arr.
Proof.
  unfold remove_dups_with. generalize (dups_of tiny arr). intros l. revert arr.
  induction l as [|i l IH]; intros arr; cbn; [reflexivity|].
  rewrite IH. unfold remove_dups_step. apply setitem_length.
Qed.

Lemma remove_dups_length (arr : list float) : length (remove_dups arr) = length arr.
Proof. apply remove_dups_with_length. Qed.

Lemma gradient_inner_length (rest : list float) (prev : float) :
  length (gradient_inner prev rest) = length rest.
Proof.
  revert prev. induction rest as [|x [|y rest] IH]; intros prev; cbn; try reflexivity.
  f_equal. apply (IH x).
Qed.

Lemma np_gradient_Ok (f : list float) :
  2 <= length f -> exists g, np_gradient f = Ok g /\ length g = length f.
Proof.
  destruct f as [|x0 [|x1 rest]]; cbn; try lia. intros _.
  eexists. split; [reflexivity|]. cbn. f_equal. apply (gradient_inner_length (x1 :: rest)).
Qed.

Lemma zip_with_length {A B C : Type} (f : A -> B -> C) (a : list A) (b : list B) :
  length a = length b -> length (zip_with f a b) = length a.
Proof.
  revert b. induction a as [|x a IH]; intros [|y b]; cbn; try discriminate; auto.
Qed.

Lemma broadcast_Ok (f : float -> float -> float) (a b : list float) :
  length a = length b ->
  broadcast f a b = Ok (zip_with f a b) /\ length (zip_with f a b) = length a.
Proof.
  intros H. split; [|now apply zip_with_length].
  unfold broadcast. apply Nat.eqb_eq in H. now rewrite H.
Qed.

Lemma deriv_Ok (energy mu : list float) :
  length energy = length mu -> 2 <= length energy ->
  exists dmu, deriv energy mu = Ok dmu /\ length dmu = length energy.
Proof.
  intros Hl H2. unfold deriv.
  destruct (@np_gradient_Ok mu) as (gmu & -> & Hgm); [lia|].
  destruct (@np_gradient_Ok energy) as (ge & -> & Hge); [lia|]. cbn.
  destruct (@broadcast_Ok fdiv gmu ge) as [-> Hz]; [congruence|].
  eexists. split; [reflexivity | congruence].
Qed.

Lemma candidate_In (dmu : list float) (thr : float) (i : nat) :
  In i (np_where (map (fun d => fgt d thr) dmu)) <-> candidate dmu thr i.
Proof.
  rewrite np_where_In, nth_error_map. unfold candidate. split.
  - destruct (nth_error dmu i) as [d|] eqn:E; [|discriminate].
    cbn. intros [= H]. now rewrite (nth_error_nth _ _ _ E).
  - intros H. destruct (nth_error dmu i) as [d|] eqn:E.
    + rewrite (nth_error_nth _ _ nan E) in H. cbn. now rewrite H.
    + apply nth_error_None in E. rewrite nth_overflow in H by exact E.
      unfold fgt in H. rewrite flt_nan_r in H. discriminate.
Qed.

Lemma supported_ok (dmu : list float) (thr : float) (i : nat) :
  let pts := np_where (map (fun d => fgt d thr) dmu) in
  (In i pts /\
   contains pts (i + 1) && match i with O => false | S j => contains pts j end = true)
  <-> supported dmu thr i.
Proof.
  cbn zeta. unfold supported. rewrite <- !candidate_In, andb_true_iff, contains_In.
  split.
  - intros (Hi & Hn & Hp). split; [exact Hi|]. split; [exact Hn|].
    destruct i as [|j]; [discriminate|]. exists j. rewrite <- candidate_In.
    split; [reflexivity | now apply contains_In].
  - intros (Hi & Hn & j & -> & Hp). split; [exact Hi|]. split; [exact Hn|].
    apply contains_In. now apply candidate_In.
Qed.

(** The sign of a rounded result is the one asked for. *)
Lemma binary_round_aux_sign (m e : Z) (l : location) :
  let r := binary_round_aux prec emax false m e l in
  isnan r = true \/ fle fzero r = true.
Proof.
  cbn zeta. unfold binary_round_aux.
  destruct (shr_fexp prec emax m e l) as [mrs' e'].
  destruct (shr_fexp prec emax _ e' loc_Exact) as [mrs'' e''].
  destruct (shr_m mrs''); [now right | | now left].
  destruct (Z.leb e'' (emax - prec)); now right.
Qed.

Lemma five_percent_nonneg (m : float) :
  flt m fzero = false ->
  isnan (fmul m five_percent) = true \/ fle fzero (fmul m five_percent) = true.
Proof.
  destruct m as [s|s| |s mm em]; cbn.
  - intros _. right. now destruct s.
  - destruct s; [discriminate | intros _; now right].
  - intros _. now left.
  - destruct s; [discriminate|]. intros _. unfold fmul, SFmul, five_percent.
    cbn [xorb]. apply binary_round_aux_sign.
Qed.

Lemma candidate_positive (dmu : list float) (m : float) (i : nat) :
  flt m fzero = false ->
  candidate dmu (fmul m five_percent) i -> fgt (nth i dmu nan) fzero = true.
Proof.
  intros Hm Hc. unfold candidate, fgt in *.
  destruct (five_percent_nonneg m Hm) as [Hn|Hle].
  - destruct (flt_notnan _ _ Hc) as [Hc' _]. congruence.
  - eapply fle_flt_trans; eassumption.
Qed.

Lemma edge_scan_step_eq (dmu : list float) (pts : list nat) (st : nat * float) (i : nat) :
  edge_scan_step dmu pts st i =
  (if fgt (nth i dmu nan) (snd st)
      && (contains pts (i + 1) && match i with O => false | S j => contains pts j end)
   then (i, nth i dmu nan) else st).
Proof.
  unfold edge_scan_step. now rewrite andb_assoc.
Qed.

(** What the loop over [high_deriv_pts] leaves in [idmu_max]. *)
Lemma edge_scan_spec (dmu : list float) (thr : float) :
  let pts := np_where (map (fun d => fgt d thr) dmu) in
  let k := fst (edge_scan dmu pts) in
  (k = 0 \/ In k pts) /\
  ((forall j, ~ supported dmu thr j) -> k = 0) /\
  ((forall j, candidate dmu thr j -> fgt (nth j dmu nan) fzero = true) ->
   edge_index dmu thr k).
Proof.
  cbn zeta. set (pts := np_where (map (fun d => fgt d thr) dmu)).
  set (f := fun i => nth i dmu nan).
  set (ok := fun i => contains pts (i + 1) && match i with O => false | S j => contains pts j end).
  assert (edge_scan dmu pts
          = fold_left (scan_step f ok) pts (0, fzero)) as E.
  { unfold edge_scan.
    assert (forall l st,
              fold_left (edge_scan_step dmu pts) l st
              = fold_left (scan_step f ok) l st)
      as Hfold.
    { induction l as [|i l IH]; intros st; cbn; [reflexivity|].
      now rewrite IH, edge_scan_step_eq. }
    apply Hfold. }
  rewrite E.
  destruct (@scan_inv f ok pts (0, fzero) eq_refl) as (Hn & _ & Hall & Hlast).
  remember (fold_left _ pts (0, fzero)) as st' eqn:Est'.
  assert (forall j, supported dmu thr j <-> In j pts /\ ok j = true) as Hsup.
  { intros j. symmetry. apply supported_ok. }
  destruct Hlast as [Hl|(l1 & l2 & El & Hok & Hv & Hgt & Hbefore)].
  - rewrite Hl in *. cbn in *. split; [now left|]. split; [reflexivity|].
    intros Hpos. right. split; [reflexivity|]. intros j Hj.
    pose proof Hj as (Hc & _). apply Hpos in Hc. apply Hsup in Hj.
    destruct Hj as [Hj Hokj]. specialize (Hall j Hj Hokj). unfold f in Hall. congruence.
  - assert (In (fst st') pts) as Hk by (rewrite El; apply in_elt).
    split; [now right|]. split.
    + intros Hnone. exfalso. apply (Hnone (fst st')). apply Hsup. now split.
    + intros _. left. split; [apply Hsup; now split|].
      intros j Hj. pose proof Hj as (Hc & _). apply Hsup in Hj. destruct Hj as [Hj Hokj].
      split.
      * specialize (Hall j Hj Hokj). now rewrite Hv in Hall.
      * intros Hlt. change (flt (f j) (f (fst st')) = true). rewrite <- Hv.
        apply Hbefore; [|exact Hokj|].
        -- apply sorted_before with l2 (fst st'); [|now rewrite <- El|exact Hlt].
           rewrite <- El. apply where_from_sorted.
        -- unfold candidate, fgt in Hc. now destruct (flt_notnan _ _ Hc).
Qed.

Lemma max_from_In (xs : list float) (x : float) : In (max_from x xs) (x :: xs).
Proof.
  unfold max_from. revert x. induction xs as [|y xs IH]; intros x; cbn; [now left|].
  destruct (fgt y x); [right; apply IH|].
  destruct (IH x) as [H|H]; [left; exact H | right; right; exact H].
Qed.

Lemma max_from_nan (xs : list float) (x : float) :
  isnan x = true -> max_from x xs = x.
Proof.
  intros Hx. destruct x; try discriminate. unfold max_from.
  induction xs as [|y xs IH]; cbn; [reflexivity | exact IH].
Qed.

Lemma broadcast_fdiv_bounded (a b dmu : list float) :
  broadcast fdiv a b = Ok dmu -> Forall bounded_float dmu.
Proof.
  assert (forall a b, Forall bounded_float (zip_with fdiv a b)) as Hz.
  { clear. induction a as [|x a IH]; intros [|y b]; cbn; constructor;
      [apply fdiv_bounded | apply IH]. }
  assert (forall x b, Forall bounded_float (map (fdiv x) b)) as Hl.
  { intros x l. apply Forall_forall. intros z Hz'. apply in_map_iff in Hz'.
    destruct Hz' as (w & <- & _). apply fdiv_bounded. }
  assert (forall y a, Forall bounded_float (map (fun x => fdiv x y) a)) as Hr.
  { intros y l. apply Forall_forall. intros z Hz'. apply in_map_iff in Hz'.
    destruct Hz' as (w & <- & _). apply fdiv_bounded. }
  unfold broadcast. destruct (Nat.eqb (length a) (length b)).
  - intros [= <-]. apply Hz.
  - destruct a as [|x [|x' a]]; [destruct b as [|y [|y' b]] | | destruct b as [|y [|y' b]]];
      try discriminate; intros [= <-];
      repeat first [apply Hl | apply Hr | apply fdiv_bounded | constructor].
Qed.

Lemma deriv_bounded (energy mu dmu : list float) :
  deriv energy mu = Ok dmu -> Forall bounded_float dmu.
Proof.
  unfold deriv. destruct (np_gradient mu) as [gmu|]; [|discriminate].
  destruct (np_gradient energy) as [ge|]; [|discriminate]. cbn.
  apply broadcast_fdiv_bounded.
Qed.

(** When the largest derivative is negative nothing exceeds 5% of it. *)
Lemma negative_max_no_candidate (d0 : float) (ds : list float) (i : nat) :
  Forall bounded_float (d0 :: ds) ->
  flt (max_from d0 ds) fzero = true ->
  ~ candidate (d0 :: ds) (fmul (max_from d0 ds) five_percent) i.
Proof.
  intros Hb Hneg Hc. set (m := max_from d0 ds) in *.
  unfold candidate, fgt in Hc. destruct (flt_notnan _ _ Hc) as [Hthr Hdi].
  assert (fle m (fmul m five_percent) = true) as Hm.
  { assert (bounded_float m) as Hbm
      by (rewrite Forall_forall in Hb; apply Hb; apply max_from_In).
    destruct m as [s|s| |s mm em] eqn:Em; try discriminate.
    - destruct s; [reflexivity | discriminate].
    - destruct s; [|discriminate]. cbn in Hbm.
      destruct (@five_percent_of_negative mm em) as [K|K]; [tauto | tauto | congruence | exact K]. }
  assert (isnan d0 = false) as Hd0.
  { destruct (isnan d0) eqn:E; [|reflexivity].
    unfold m in Hneg. rewrite (max_from_nan ds d0 E) in Hneg.
    destruct d0; discriminate. }
  assert (In (nth i (d0 :: ds) nan) (d0 :: ds)) as Hin.
  { destruct (Nat.lt_ge_cases i (length (d0 :: ds))) as [Hlt|Hge]; [now apply nth_In|].
    rewrite nth_overflow in Hdi by exact Hge. discriminate. }
  destruct (max_from_spec ds d0 Hd0) as [_ Hall].
  pose proof (Hall _ Hin Hdi) as Hle. fold m in Hle.
  pose proof (fle_trans _ _ _ Hle Hm) as Hle'.
  apply fle_flt_false in Hle'. congruence.
Qed.

Lemma last_cons {A : Type} (x d : A) (xs : list A) : last (x :: xs) d = last xs x.
Proof.
  revert x d. induction xs as [|y xs IH]; intros x d; [reflexivity|].
  change (last (x :: y :: xs) d) with (last (y :: xs) d).
  now rewrite !IH.
Qed.

Lemma e0_unusable_true (energy : list float) (e0 : option float) :
  energy <> [] -> edge_missing_or_outside energy e0 -> e0_unusable energy e0 = Ok true.
Proof.
  intros Hne H. destruct e0 as [v|]; [|reflexivity].
  destruct energy as [|x xs]; [now elim Hne|]. cbn in *.
  destruct (flt v x) eqn:E; [reflexivity|].
  destruct H as [H|H]; [congruence|]. cbn. f_equal.
  rewrite <- H. f_equal. symmetry. apply (last_cons x nan xs).
Qed.

(** ** The stages of preedge *)

Ltac bind_inv H :=
  repeat match type of H with
         | bind ?c _ = Ok _ =>
             let E := fresh "E" in
             destruct c as [?|?] eqn:E; [cbn [bind] in H | discriminate H]
         | match ?p with (_, _) => _ end = Ok _ => destruct p
         end.

Lemma find_e0_energy (energy mu energy' : list float) (e1 : float) :
  find_e0 energy mu = Ok (energy', e1) -> energy' = remove_dups energy.
Proof.
  unfold find_e0. intros H. bind_inv H. now injection H as <- _.
Qed.

Lemma locate_edge_energy (energy mu : list float) (e0 : option float)
  (energy' : list float) (e1 : float) :
  locate_edge energy mu e0 = Ok (energy', e1) ->
  energy' = remove_dups energy \/ energy' = remove_dups (remove_dups energy).
Proof.
  unfold locate_edge. intros H. bind_inv H.
  destruct a; [right; now apply find_e0_energy with mu e1|].
  destruct e0 as [v|]; [left; now injection H as <- _ | right; now apply find_e0_energy with mu e1].
Qed.


Lemma resolve_bounds_norm2_negative (energy : list float) (e0 : float)
  (pre1 : option float) (pre2 norm1 n b1 b2 b3 b4 : float) :
  resolve_bounds energy e0 pre1 pre2 norm1 (Some n) = Ok (b1, b2, b3, b4) ->
  flt n fzero = true ->
  exists hi, py_max energy = Ok hi /\
    let top := fsub hi e0 in
    let clamped := py_min2 (fsub top n) top in
    b4 = (if fgt norm1 clamped then norm1 else clamped).
Proof.
  unfold resolve_bounds. intros H Hn. cbn [bind] in H. rewrite Hn in H.
  destruct (py_max energy) as [hi|] eqn:Ehi.
  2:{ destruct pre1; cbn in H; [discriminate|]. destruct (py_min energy); discriminate. }
  exists hi. split; [reflexivity|]. cbn zeta.
  destruct (match pre1 with None => _ | Some v => Ok v end) as [p|]; [|discriminate].
  cbn [bind] in H. destruct (py_min energy) as [lo|]; [|discriminate]. cbn [bind] in H.
  destruct (fgt (py_max2 p (fsub lo e0)) pre2);
    destruct (fgt norm1 (py_min2 (fsub (fsub hi e0) n) (fsub hi e0)));
    now injection H as _ _ _ <-.
Qed.

Lemma fdiv_by_zero (x z : float) :
  is_zero z = true -> isinf (fdiv x z) = true \/ isnan (fdiv x z) = true.
Proof.
  destruct z; try discriminate. intros _. destruct x; cbn; auto.
Qed.

Lemma normalize_zero_entries (mu pre_edge : list float) (post_edge : npval) (ie0 : nat)
  (step : option float) (edge_step : float) (norm : list float) :
  normalize mu pre_edge post_edge ie0 step = Ok (edge_step, norm) ->
  is_zero edge_step = true ->
  Forall (fun x => isinf x = true \/ isnan x = true) norm.
Proof.
  unfold normalize. intros H Hz. bind_inv H. injection H as <- <-.
  apply Forall_forall. intros y Hy. apply in_map_iff in Hy.
  destruct Hy as (x & <- & _). now apply fdiv_by_zero.
Qed.

(** With arrays of one length and the edge index inside them the
    normalization returns: the step is the supplied one or the difference
    of the two curves at the edge, the spectrum is divided by it. *)
Lemma normalize_returns (mu pre_edge post : list float) (ie0 : nat)
  (step : option float) :
  length mu = length pre_edge -> ie0 < length pre_edge -> ie0 < length post ->
  exists edge_step norm,
    normalize mu pre_edge (NpArray post) ie0 step = Ok (edge_step, norm) /\
    edge_step = match step with
                | Some s => s
                | None => fsub (nth ie0 post nan) (nth ie0 pre_edge nan)
                end /\
    length norm = length mu.
Proof.
  intros Hlen Hpre Hpost.
  destruct (@broadcast_Ok fsub mu pre_edge Hlen) as [Eb Hlb].
  assert (exists es, (match step with
                      | Some s => Ok s
                      | None => hi <- npval_getitem (NpArray post) ie0 ;;
                                lo <- getitem pre_edge ie0 ;; Ok (fsub hi lo)
                      end) = Ok es /\
                     es = match step with
                          | Some s => s
                          | None => fsub (nth ie0 post nan) (nth ie0 pre_edge nan)
                          end) as (es & Ees & Hes).
  { destruct step as [s|]; [now exists s|]. cbn. unfold getitem.
    destruct (nth_error post ie0) as [hi|] eqn:Ehi; [|apply nth_error_None in Ehi; lia].
    destruct (nth_error pre_edge ie0) as [lo|] eqn:Elo; [|apply nth_error_None in Elo; lia].
    cbn. eexists. split; [reflexivity|].
    now rewrite (nth_error_nth _ _ nan Ehi), (nth_error_nth _ _ nan Elo). }
  exists es, (map (fun x => fdiv x es) (zip_with fsub mu pre_edge)).
  split; [|split; [exact Hes | now rewrite length_map]].
  unfold normalize. rewrite Ees. cbn [bind]. now rewrite Eb.
Qed.

(** C2, as the code has it: the normalization step has no test of the edge
    step.  For a spectrum and two curves of one length it returns for every
    step, supplied or derived; when that step is a zero it is returned as
    the edge step and every entry of the normalized array is an infinity
    or a NaN, the binary64 quotients by zero. *)
Theorem normalize_accepts_zero_step (mu pre_edge post : list float) (ie0 : nat)
  (step : option float) :
  length mu = length pre_edge -> ie0 < length pre_edge -> ie0 < length post ->
  exists edge_step norm,
    normalize mu pre_edge (NpArray post) ie0 step = Ok (edge_step, norm) /\
    edge_step = match step with
                | Some s => s
                | None => fsub (nth ie0 post nan) (nth ie0 pre_edge nan)
                end /\
    length norm = length mu /\
    (is_zero edge_step = true ->
     Forall (fun x => isinf x = true \/ isnan x = true) norm).
Proof.
  intros Hlen Hpre Hpost.
  destruct (@normalize_returns mu pre_edge post ie0 step Hlen Hpre Hpost)
    as (es & nm & En & Hes & Hl).
  exists es, nm. split; [exact En|]. split; [exact Hes|]. split; [exact Hl|].
  intros Hz. eapply normalize_zero_entries; eassumption.
Qed.

Section PreedgeFacts.
Variable polyfit : list float -> list float -> Z -> exc (list float).
Variable fpow : float -> Z -> float.
Variable pol : oob_policy.

(** Every returned dictionary comes with the results of the stages. *)
Lemma preedge_stages energy mu e0 step nnorm nvict pre1 pre2 norm1 norm2 out :
  preedge polyfit fpow pol energy mu e0 step nnorm nvict pre1 pre2 norm1 norm2 = Ok out ->
  exists energy' e1 ie0 b1 b2 b3 b4 p1 p2 q1 q2,
    locate_edge energy mu e0 = Ok (energy', e1) /\
    snap_e0 energy' e1 = Ok (ie0, out_e0 out) /\
    resolve_bounds energy' (out_e0 out) pre1 pre2 norm1 norm2 = Ok (b1, b2, b3, b4) /\
    out_pre1 out = b1 /\ out_pre2 out = b2 /\ out_norm1 out = b3 /\ out_norm2 out = b4 /\
    fit_window energy' (out_e0 out) b1 b2 = Ok (p1, p2) /\
    fit_window energy' (out_e0 out) b3 b4 = Ok (q1, q2) /\
    normalize mu (out_pre_edge out) (out_post_edge out) ie0 step
    = Ok (out_edge_step out, out_norm out).
Proof.
  unfold preedge. intros H. bind_inv H. injection H as <-. cbn.
  repeat eexists; eassumption.
Qed.


(** C7: the e0 of every returned dictionary lies between the minimum and
    the maximum of the de-duplicated energy array the call works on. *)
Theorem preedge_e0_within_span energy mu e0 step nnorm nvict pre1 pre2 norm1 norm2 out :
  preedge polyfit fpow pol energy mu e0 step nnorm nvict pre1 pre2 norm1 norm2 = Ok out ->
  exists energy' e1 lo hi,
    locate_edge energy mu e0 = Ok (energy', e1) /\
    (energy' = remove_dups energy \/ energy' = remove_dups (remove_dups energy)) /\
    py_min energy' = Ok lo /\ py_max energy' = Ok hi /\
    fle lo (out_e0 out) = true /\ fle (out_e0 out) hi = true.
Proof.
  intros H. destruct (preedge_stages _ _ _ _ _ _ _ _ _ _ H)
    as (energy' & e1 & ie0 & b1 & b2 & b3 & b4 & p1 & p2 & q1 & q2
        & Hloc & Hsnap & _ & _ & _ & _ & _ & Hwin & _).
  destruct (snap_e0_spec _ _ Hsnap) as [Hi Hn].
  assert (isnan (out_e0 out) = false) as Hnan.
  { unfold fit_window in Hwin.
    destruct (index_of energy' (fadd b1 (out_e0 out))) as [p|] eqn:Ep; [|discriminate].
    apply index_of_notnan in Ep. destruct (out_e0 out); try reflexivity.
    now rewrite fadd_nan_r in Ep. }
  destruct (nearest_within_span _ _ Hi Hn Hnan) as (lo & hi & Hlo & Hhi & H1 & H2).
  exists energy', e1, lo, hi. repeat split; try assumption.
  now apply locate_edge_energy with mu e0 e1.
Qed.

(** Inside preedge: a zero edge step comes back in the dictionary,
    next to a normalized array without one finite entry. *)
Lemma preedge_zero_step energy mu e0 step nnorm nvict pre1 pre2 norm1 norm2 out :
  preedge polyfit fpow pol energy mu e0 step nnorm nvict pre1 pre2 norm1 norm2 = Ok out ->
  is_zero (out_edge_step out) = true ->
  Forall (fun x => isinf x = true \/ isnan x = true) (out_norm out).
Proof.
  intros H Hz. destruct (preedge_stages _ _ _ _ _ _ _ _ _ _ H)
    as (energy' & e1 & ie0 & b1 & b2 & b3 & b4 & p1 & p2 & q1 & q2
        & _ & _ & _ & _ & _ & _ & _ & _ & _ & Hnorm).
  now apply normalize_zero_entries with mu (out_pre_edge out) (out_post_edge out) ie0 step
                                       (out_edge_step out).
Qed.

(** C3, as the code has it: with a negative norm2 the bound
    max(energy) - e0 - norm2 is clamped to max(energy) - e0 before it is
    returned.  The returned norm2 is that clamped value, or norm1 when
    norm1 exceeds it and the two are exchanged; the clamped value is
    max(energy) - e0 whenever the subtraction raised the bound, and
    never exceeds it. *)
Theorem preedge_negative_norm2_clamped energy mu e0 step nnorm nvict pre1 pre2 norm1 n out :
  preedge polyfit fpow pol energy mu e0 step nnorm nvict pre1 pre2 norm1 (Some n) = Ok out ->
  flt n fzero = true ->
  exists energy' e1 hi,
    locate_edge energy mu e0 = Ok (energy', e1) /\ py_max energy' = Ok hi /\
    let top := fsub hi (out_e0 out) in
    let clamped := py_min2 (fsub top n) top in
    out_norm2 out = (if fgt norm1 clamped then norm1 else clamped) /\
    (flt top (fsub top n) = true -> clamped = top) /\
    flt top clamped = false.
Proof.
  intros H Hn. destruct (preedge_stages _ _ _ _ _ _ _ _ _ _ H)
    as (energy' & e1 & ie0 & b1 & b2 & b3 & b4 & p1 & p2 & q1 & q2
        & Hloc & _ & Hb & _ & _ & _ & H4 & _).
  destruct (resolve_bounds_norm2_negative _ _ _ _ _ _ Hb Hn) as (hi & Hhi & Hb4).
  exists energy', e1, hi. split; [exact Hloc|]. split; [exact Hhi|]. cbn zeta in *.
  split; [congruence|]. unfold py_min2.
  destruct (flt (fsub hi (out_e0 out)) (fsub (fsub hi (out_e0 out)) n)) eqn:E.
  - split; [reflexivity | apply flt_irrefl].
  - split; [discriminate | exact E].
Qed.
End PreedgeFacts.

(** ** The derivative the edge is read from *)

Lemma nth_zip_with {A B C : Type} (f : A -> B -> C) (a : list A) (b : list B)
  (i : nat) (da : A) (db : B) (dc : C) :
  length a = length b -> i < length a ->
  nth i (zip_with f a b) dc = f (nth i a da) (nth i b db).
Proof.
  revert b i. induction a as [|x a IH]; intros [|y b] [|i]; cbn; try discriminate; try lia;
    try reflexivity.
  intros [= H] Hi. apply IH; [exact H | lia].
Qed.

Lemma gradient_inner_nth (rest : list float) (prev : float) (j : nat) :
  j < length rest ->
  nth j (gradient_inner prev rest) nan
  = if S j =? length rest
    then fdiv (fsub (nth j rest nan) (nth j (prev :: rest) nan)) fone
    else fdiv (fsub (nth (S j) rest nan) (nth j (prev :: rest) nan)) ftwo.
Proof.
  revert prev j. induction rest as [|x [|y rest] IH]; intros prev j Hj.
  - cbn in Hj. lia.
  - destruct j as [|j]; [reflexivity | cbn in Hj; lia].
  - destruct j as [|j]; [reflexivity|].
    change (gradient_inner prev (x :: y :: rest))
      with (fdiv (fsub y prev) ftwo :: gradient_inner x (y :: rest)).
    cbn [nth]. rewrite IH by (cbn in Hj |- *; lia). reflexivity.
Qed.

Lemma np_gradient_nth (f g : list float) (i : nat) :
  np_gradient f = Ok g -> i < length f -> nth i g nan = difference f i.
Proof.
  destruct f as [|x0 [|x1 rest]]; try discriminate. unfold np_gradient.
  intros H Hi. injection H as <-.
  destruct i as [|j]; [reflexivity|].
  change (nth j (gradient_inner x0 (x1 :: rest)) nan = difference (x0 :: x1 :: rest) (S j)).
  rewrite gradient_inner_nth by (cbn in Hi |- *; lia).
  unfold difference. rewrite Nat.add_1_r. cbn [Nat.eqb Nat.sub]. rewrite Nat.sub_0_r.
  reflexivity.
Qed.

(** The derivative entry by entry: the quotient of the two gradients. *)
Lemma deriv_nth (energy mu dmu : list float) (i : nat) :
  length energy = length mu -> deriv energy mu = Ok dmu -> i < length energy ->
  nth i dmu nan = fdiv (difference mu i) (difference energy i).
Proof.
  intros Hlen H Hi. unfold deriv in H.
  destruct (np_gradient mu) as [gmu|] eqn:Eg; [|discriminate]. cbn [bind] in H.
  destruct (np_gradient energy) as [ge|] eqn:Ee; [|discriminate]. cbn [bind] in H.
  assert (2 <= length mu) as H2 by (destruct mu as [|? [|? ?]]; try discriminate; cbn; lia).
  destruct (@np_gradient_Ok mu H2) as (gmu' & Eg' & Lg). rewrite Eg in Eg'. injection Eg' as <-.
  assert (2 <= length energy) as H2' by lia.
  destruct (@np_gradient_Ok energy H2') as (ge' & Ee' & Le). rewrite Ee in Ee'.
  injection Ee' as <-.
  assert (length gmu = length ge) as Hl by congruence.
  destruct (@broadcast_Ok fdiv gmu ge Hl) as [Eb _]. rewrite Eb in H. injection H as <-.
  rewrite (@nth_zip_with _ _ _ fdiv gmu ge i nan nan nan Hl) by lia.
  now rewrite (np_gradient_nth _ Eg), (np_gradient_nth _ Ee) by lia.
Qed.

(** C8, as the code has it: for a spectrum of at least two samples with
    one mu per energy, and no edge energy or one outside
    [[energy[0], energy[-1]]], the edge stage does not fail.  The
    derivative is the quotient, index by index, of the gradient of mu by
    the gradient of the de-duplicated energies.  The stage returns the
    entry of those energies at an index k: among the candidates, the
    indices whose derivative exceeds 5% of the maximum, k is the first
    index of largest derivative whose two neighbours are candidates too,
    and k is 0 when no index has that support.  Every dictionary that
    preedge then returns holds as e0 the energy nearest to that entry. *)
Theorem locate_edge_rederives (energy mu : list float) (e0 : option float) :
  length energy = length mu -> 2 <= length energy ->
  edge_missing_or_outside (remove_dups energy) e0 ->
  let energy' := remove_dups (remove_dups energy) in
  exists dmu m k,
    deriv energy' mu = Ok dmu /\
    length dmu = length energy' /\
    (forall i, i < length energy' ->
       nth i dmu nan = fdiv (difference mu i) (difference energy' i)) /\
    py_max dmu = Ok m /\
    k < length energy' /\
    locate_edge energy mu e0 = Ok (energy', nth k energy' nan) /\
    edge_index dmu (fmul m five_percent) k /\
    (forall (polyfit : list float -> list float -> Z -> exc (list float))
            (fpow : float -> Z -> float) (pol : oob_policy) (step : option float)
            (nnorm nvict : Z) (pre1 : option float) (pre2 norm1 : float)
            (norm2 : option float) (out : preedge_out),
       preedge polyfit fpow pol energy mu e0 step nnorm nvict pre1 pre2 norm1 norm2 = Ok out ->
       exists ie0, index_nearest energy' (nth k energy' nan) = Ok ie0 /\
                   nth_error energy' ie0 = Some (out_e0 out)).
Proof.
  intros Hlen H2 He0. cbn zeta.
  set (energy' := remove_dups (remove_dups energy)).
  assert (length energy' = length energy) as Hl'
    by (unfold energy'; now rewrite !remove_dups_length).
  destruct (@deriv_Ok energy' mu) as (dmu & Ed & Hld); [congruence | lia |].
  pose proof (deriv_bounded _ _ Ed) as Hbd.
  destruct dmu as [|d0 ds] eqn:Edmu; [cbn in Hld; lia|]. rewrite <- Edmu in *.
  assert (py_max dmu = Ok (max_from d0 ds)) as Em by (now rewrite Edmu).
  set (m := max_from d0 ds) in *.
  set (thr := fmul m five_percent).
  destruct (edge_scan_spec dmu thr) as (Hk & Hnone & Hspec).
  set (pts := np_where (map (fun d => fgt d thr) dmu)) in *.
  set (k := fst (edge_scan dmu pts)) in *.
  assert (k < length energy') as Hklt.
  { destruct Hk as [->|Hk]; [lia|].
    apply np_where_lt in Hk. rewrite length_map in Hk. lia. }
  assert (locate_edge energy mu e0 = Ok (energy', nth k energy' nan)) as Hloc.
  { unfold locate_edge.
    rewrite e0_unusable_true;
      [|intros K; apply (f_equal (@length float)) in K; rewrite remove_dups_length in K; cbn in K; lia
       |exact He0].
    cbn [bind]. unfold find_e0. fold energy'. rewrite Ed. cbn [bind].
    unfold high_deriv_pts. rewrite Em. cbn [bind]. fold thr. fold pts. fold k.
    unfold getitem. destruct (nth_error energy' k) as [x|] eqn:Ex.
    - cbn. now rewrite (nth_error_nth _ _ nan Ex).
    - apply nth_error_None in Ex. lia. }
  exists dmu, m, k.
  split; [exact Ed|]. split; [exact Hld|].
  split; [intros i Hi; apply deriv_nth; [congruence | exact Ed | exact Hi]|].
  split; [exact Em|]. split; [exact Hklt|]. split; [exact Hloc|]. split.
  - destruct (flt m fzero) eqn:Hm.
    + assert (forall j, ~ supported dmu thr j) as Hno.
      { intros j (Hc & _). revert Hc. unfold thr, m. rewrite Edmu.
        apply negative_max_no_candidate; [now rewrite <- Edmu | exact Hm]. }
      right. split; [now apply Hnone | exact Hno].
    + apply Hspec. intros j Hj. now apply candidate_positive with m.
  - intros polyfit fpow pol step nnorm nvict pre1 pre2 norm1 norm2 out Hout.
    apply preedge_stages in Hout.
    destruct Hout as (energy'' & e1 & ie0 & b1 & b2 & b3 & b4 & p1 & p2 & q1 & q2
                      & Hloc' & Hsnap & _).
    rewrite Hloc in Hloc'. injection Hloc' as <- <-.
    destruct (snap_e0_spec _ _ Hsnap) as [Hi Hn]. now exists ie0.
Qed.

Section FitFacts.
Variable polyfit : list float -> list float -> Z -> exc (list float).
Variable fpow : float -> Z -> float.
Variable pol : oob_policy.

Lemma post_edge_fold_array (energy : list float) (nvict : Z) (l : list (nat * float))
  (a : list float) :
  length a = length energy ->
  exists a', fold_left (post_edge_add fpow energy nvict) l (NpArray a) = NpArray a' /\
             length a' = length energy.
Proof.
  revert a. induction l as [|nc l IH]; intros a Ha; cbn.
  - now exists a.
  - apply IH. rewrite zip_with_length; [exact Ha | now rewrite length_map].
Qed.

Lemma post_edge_fold (energy : list float) (nvict : Z) (l : list (nat * float)) :
  l <> [] ->
  exists a', fold_left (post_edge_add fpow energy nvict) l (NpScalar fzero) = NpArray a' /\
             length a' = length energy.
Proof.
  destruct l as [|nc l]; [intros H; now elim H|]. intros _. cbn.
  apply post_edge_fold_array. now rewrite !length_map.
Qed.

(** C4, as the code has it: preedge counts no points.  The two windows
    go to [polyfit] as they are, and a dictionary is returned whenever
    the edge and window searches, [remove_nans2] and the two calls of
    [polyfit] return, however few points the windows hold. *)
Theorem preedge_counts_no_points energy mu e0 step nnorm nvict pre1 pre2 norm1 norm2
  energy' e1 ie0 e0' b1 b2 b3 b4 p1 p2 q1 q2 ex mx precoefs coefs :
  length energy = length mu ->
  locate_edge energy mu e0 = Ok (energy', e1) ->
  snap_e0 energy' e1 = Ok (ie0, e0') ->
  resolve_bounds energy' e0' pre1 pre2 norm1 norm2 = Ok (b1, b2, b3, b4) ->
  fit_window energy' e0' b1 b2 = Ok (p1, p2) ->
  fit_window energy' e0' b3 b4 = Ok (q1, q2) ->
  let omu := zip_with fmul mu (map (fun e => fpow e nvict) energy') in
  remove_nans2 pol (slice p1 p2 energy') (slice p1 p2 omu) = Ok (ex, mx) ->
  polyfit ex mx 1%Z = Ok precoefs -> 2 <= length precoefs ->
  polyfit (slice q1 q2 energy') (slice q1 q2 omu) (Z.max (Z.min nnorm 5) 1) = Ok coefs ->
  coefs <> [] ->
  exists out,
    preedge polyfit fpow pol energy mu e0 step nnorm nvict pre1 pre2 norm1 norm2 = Ok out /\
    out_precoefs out = precoefs /\ out_norm_coefs out = rev coefs.
Proof.
  intros Hlen Hloc Hsnap Hb Hw1 Hw2 omu Hrn Hfit1 Hpc Hfit2 Hc.
  assert (length energy' = length mu) as Hl'.
  { destruct (locate_edge_energy _ _ _ Hloc) as [->| ->];
      now rewrite ?remove_dups_length. }
  destruct (snap_e0_spec _ _ Hsnap) as [Hi Hn].
  assert (ie0 < length energy') as Hie0 by (apply nth_error_Some; congruence).
  unfold preedge. rewrite Hloc. cbn [bind]. rewrite Hsnap. cbn [bind].
  rewrite Hb. cbn [bind]. rewrite Hw1. cbn [bind].
  assert (weighted fpow energy' mu nvict = Ok omu) as Ew.
  { unfold weighted. apply broadcast_Ok. now rewrite length_map. }
  rewrite Ew. cbn [bind].
  destruct precoefs as [|c0 [|c1 crest]]; try (cbn in Hpc; lia).
  unfold fit_pre_edge. rewrite Hrn. cbn [bind]. rewrite Hfit1. cbn [bind getitem nth_error].
  rewrite Hw2. cbn [bind].
  unfold fit_post_edge. rewrite Hfit2. cbn [bind].
  destruct (@post_edge_fold energy' nvict (combine (seq 0 (length (rev coefs))) (rev coefs)))
    as (post & Epost & Hlpost).
  { intros K. apply (f_equal (@length _)) in K.
    rewrite length_combine, length_seq, Nat.min_id, length_rev in K.
    destruct coefs; [now elim Hc | discriminate]. }
  rewrite Epost.
  destruct (@normalize_returns mu
              (map (fun e => fmul (fadd (fmul c0 e) c1) (fpow e (- nvict)%Z)) energy')
              post ie0 step) as (es & nm & En & _).
  { now rewrite length_map. }
  { now rewrite length_map. }
  { lia. }
  rewrite En. cbn [bind]. eexists. split; [reflexivity|]. cbn. now split.
Qed.
End FitFacts.

(** ** The claims on concrete spectra *)

(** C1: on the arrays of its own docstring [remove_nans2] removes nothing:
    both arrays come back whole, the NaN still at index 3 of the first. *)
Theorem remove_nans2_docstring_example (pol : oob_policy) :
  remove_nans2 pol docstring_x docstring_y = Ok (docstring_x, docstring_y) /\
  nth_error docstring_x 3 = Some nan.
Proof.
  split; [destruct pol; vm_compute; reflexivity | reflexivity].
Qed.

(** Without a +inf entry nothing is ever removed: NaN and -inf pass. *)
Lemma remove_nans2_without_pinf (pol : oob_policy) (a b : list float) :
  existsb (fun x => feq x pinf) a = false ->
  existsb (fun x => feq x pinf) b = false ->
  remove_nans2 pol a b = Ok (a, b).
Proof.
  intros Ha Hb. unfold remove_nans2. destruct (_ || _); [|reflexivity].
  rewrite delete_where_absent by exact Ha. cbn [bind].
  rewrite delete_where_absent by exact Hb. cbn [bind].
  rewrite delete_where_nan. cbn [bind]. apply delete_where_nan.
Qed.

Lemma remove_nans2_keeps_ninf (pol : oob_policy) :
  remove_nans2 pol [ninf; of_Z 1] [of_Z 1; of_Z 2] = Ok ([ninf; of_Z 1], [of_Z 1; of_Z 2]).
Proof.
  now apply remove_nans2_without_pinf.
Qed.


(** [np.gradient] needs two samples. *)
Lemma single_sample_has_no_gradient :
  locate_edge [of_Z 5] [of_Z 1] None = Raise ValueError.
Proof.
  vm_compute. reflexivity.
Qed.

Lemma remove_nans2_keeps_pairs_witness :
  length [of_Z 0; pinf; of_Z 2; nan] = length [of_Z 1; of_Z 2; ninf; of_Z 4] /\
  remove_nans2 OobRaises [of_Z 0; pinf; of_Z 2; nan] [of_Z 1; of_Z 2; ninf; of_Z 4]
  = Ok ([of_Z 0; of_Z 2; nan], [of_Z 1; ninf; of_Z 4]) /\
  match remove_nans2 OobRaises [of_Z 0; pinf; of_Z 2; nan] [of_Z 1; of_Z 2; ninf; of_Z 4] with
  | Ok (a', b') =>
      paired [of_Z 0; pinf; of_Z 2; nan] [of_Z 1; of_Z 2; ninf; of_Z 4] a' b'
  | Raise e =>
      OobRaises = OobRaises /\ e = IndexError /\
      existsb (fun x => feq x pinf) [of_Z 0; pinf; of_Z 2; nan] = true /\
      existsb (fun x => feq x pinf) [of_Z 1; of_Z 2; ninf; of_Z 4] = true
  end.
Proof.
  split; [reflexivity|]. split; [vm_compute; reflexivity|].
  apply (@remove_nans2_keeps_pairs OobRaises [of_Z 0; pinf; of_Z 2; nan]
           [of_Z 1; of_Z 2; ninf; of_Z 4]).
  reflexivity.
Defined.

(** C2 as stated fails: a zero edge step, supplied or derived, is divided
    by, and the result is returned. *)
Lemma zero_step_is_divided_by :
  normalize [of_Z 1; of_Z 2; of_Z 3] [of_Z 0; of_Z 0; of_Z 0]
    (NpArray [of_Z 5; of_Z 5; of_Z 5]) 1 (Some fzero)
  = Ok (fzero, [pinf; pinf; pinf]) /\
  normalize [of_Z 1; of_Z 2; of_Z 3] [of_Z 0; of_Z 2; of_Z 0]
    (NpArray [of_Z 5; of_Z 2; of_Z 5]) 1 None
  = Ok (fzero, [pinf; nan; pinf]) /\
  exists out, zero_step_run = Ok out /\ out_edge_step out = fzero /\
              length (out_norm out) = 21 /\
              forallb (fun x => isinf x || isnan x) (out_norm out) = true.
Proof.
  split; [vm_compute; reflexivity|]. split; [vm_compute; reflexivity|].
  eexists. split; [vm_compute; reflexivity|]. repeat split.
Qed.

Lemma normalize_accepts_zero_step_witness :
  length [of_Z 1; of_Z 2; of_Z 3] = length [of_Z 0; of_Z 2; of_Z 0] /\
  exists edge_step norm,
    normalize [of_Z 1; of_Z 2; of_Z 3] [of_Z 0; of_Z 2; of_Z 0]
      (NpArray [of_Z 5; of_Z 2; of_Z 5]) 1 None = Ok (edge_step, norm) /\
    edge_step = fsub (nth 1 [of_Z 5; of_Z 2; of_Z 5] nan) (nth 1 [of_Z 0; of_Z 2; of_Z 0] nan) /\
    length norm = 3 /\
    (is_zero edge_step = true ->
     Forall (fun x => isinf x = true \/ isnan x = true) norm).
Proof.
  split; [reflexivity|].
  apply (@normalize_accepts_zero_step [of_Z 1; of_Z 2; of_Z 3] [of_Z 0; of_Z 2; of_Z 0]
           [of_Z 5; of_Z 2; of_Z 5] 1 None); cbn; lia.
Defined.

(** C3 as stated fails: with norm2 = -20 on energies 0..200 and e0 = 100
    the returned bound is 100 = max(energy) - e0, not 120. *)
Lemma negative_norm2_not_returned :
  negative_norm2_run = Ok negative_norm2_out /\
  out_e0 negative_norm2_out = of_Z 100 /\
  out_norm2 negative_norm2_out = of_Z 100 /\
  fsub (fsub (of_Z 200) (of_Z 100)) (of_Z (-20)) = of_Z 120 /\
  out_norm2 negative_norm2_out <> fsub (fsub (of_Z 200) (of_Z 100)) (of_Z (-20)).
Proof.
  repeat split; try (vm_compute; reflexivity). vm_compute. discriminate.
Qed.

Lemma preedge_negative_norm2_clamped_witness :
  negative_norm2_run = Ok negative_norm2_out /\
  flt (of_Z (-20)) fzero = true /\
  exists energy' e1 hi,
    locate_edge (ramp 21) (step_mu 21) (Some (of_Z 100)) = Ok (energy', e1) /\
    py_max energy' = Ok hi /\
    let top := fsub hi (out_e0 negative_norm2_out) in
    let clamped := py_min2 (fsub top (of_Z (-20))) top in
    out_norm2 negative_norm2_out = (if fgt (of_Z 50) clamped then of_Z 50 else clamped) /\
    (flt top (fsub top (of_Z (-20))) = true -> clamped = top) /\
    flt top clamped = false.
Proof.
  split; [vm_compute; reflexivity|]. split; [reflexivity|].
  apply (@preedge_negative_norm2_clamped lstsq_polyfit pow_int OobRaises
           (ramp 21) (step_mu 21) (Some (of_Z 100)) None 3%Z 0%Z None (of_Z (-50)) (of_Z 50)
           (of_Z (-20)) negative_norm2_out);
    vm_compute; reflexivity.
Defined.

(** C4 as stated fails: the post-edge window of this call holds one point,
    the cubic asks for four, and a dictionary is returned. *)
Lemma single_point_window_is_fitted :
  fit_window (ramp 3) (of_Z 10) (of_Z 10) (of_Z 100) = Ok (2, 3) /\
  length (slice 2 3 (ramp 3)) = 1 /\
  exists out, short_run = Ok out /\ out_nnorm out = 3%Z /\
              out_norm1 out = of_Z 10 /\ out_norm2 out = of_Z 100 /\
              length (out_norm_coefs out) = 4.
Proof.
  split; [vm_compute; reflexivity|]. split; [reflexivity|].
  eexists. split; [vm_compute; reflexivity|]. repeat split.
Qed.

(** C6 as stated fails: a window that starts at the last sample holds that
    sample alone. *)
Lemma window_at_last_sample :
  resolve_bounds (ramp 5) (of_Z 20) None (of_Z (-50)) (of_Z 100) None
  = Ok (of_Z (-50), of_Z (-20), of_Z 20, of_Z 100) /\
  fit_window (ramp 5) (of_Z 20) (of_Z 20) (of_Z 100) = Ok (4, 5) /\
  length (slice 4 5 (ramp 5)) = 1 /\
  ~ 2 <= length (slice 4 5 (ramp 5)).
Proof.
  split; [vm_compute; reflexivity|]. split; [vm_compute; reflexivity|].
  split; [reflexivity|]. cbn. lia.
Qed.

Lemma fit_window_samples_witness :
  index_nearest (ramp 21) (fadd (of_Z (-45)) (of_Z 100)) = Ok 5 /\
  fit_window (ramp 21) (of_Z 100) (of_Z (-50)) (of_Z (-45)) = Ok (5, 7) /\
  (exists q2,
     index_of (ramp 21) (fadd (of_Z (-50)) (of_Z 100)) = Ok 5 /\
     index_nearest (ramp 21) (fadd (of_Z (-45)) (of_Z 100)) = Ok q2 /\
     (5 + 2 <= q2 -> 7 = q2) /\
     (q2 < 5 + 2 -> 7 = Nat.min (length (ramp 21)) (5 + 2))) /\
  5 < length (ramp 21) /\ 7 <= length (ramp 21) /\
  length (slice 5 7 (ramp 21)) = 7 - 5 /\
  1 <= 7 - 5 /\
  (5 + 2 <= length (ramp 21) -> 2 <= 7 - 5) /\
  (5 + 1 = length (ramp 21) -> 7 - 5 = 1).
Proof.
  split; [vm_compute; reflexivity|]. split; [vm_compute; reflexivity|].
  apply (@fit_window_samples (ramp 21) (of_Z 100) (of_Z (-50)) (of_Z (-45)) 5 7).
  vm_compute; reflexivity.
Defined.

Lemma preedge_counts_no_points_witness :
  length (ramp 3) = length [of_Z 1; of_Z 2; of_Z 3] /\
  length (slice 2 3 (ramp 3)) = 1 /\
  exists out, short_run = Ok out.
Proof.
  split; [reflexivity|]. split; [reflexivity|].
  edestruct (@preedge_counts_no_points lstsq_polyfit pow_int OobRaises
               (ramp 3) [of_Z 1; of_Z 2; of_Z 3] (Some (of_Z 10)) None 3%Z 0%Z None
               (of_Z (-50)) (of_Z 100) None) as (out & Hout & _).
  - reflexivity.
  - vm_compute; reflexivity.
  - vm_compute; reflexivity.
  - vm_compute; reflexivity.
  - vm_compute; reflexivity.
  - vm_compute; reflexivity.
  - vm_compute; reflexivity.
  - vm_compute; reflexivity.
  - cbn; lia.
  - vm_compute; reflexivity.
  - discriminate.
  - exists out. exact Hout.
Defined.

Lemma preedge_e0_within_span_witness :
  step_run = Ok step_out /\
  exists energy' e1 lo hi,
    locate_edge (ramp 21) (step_mu 21) (Some (of_Z 104)) = Ok (energy', e1) /\
    (energy' = remove_dups (ramp 21) \/ energy' = remove_dups (remove_dups (ramp 21))) /\
    py_min energy' = Ok lo /\ py_max energy' = Ok hi /\
    fle lo (out_e0 step_out) = true /\ fle (out_e0 step_out) hi = true.
Proof.
  split; [vm_compute; reflexivity|].
  apply (@preedge_e0_within_span lstsq_polyfit pow_int OobRaises
           (ramp 21) (step_mu 21) (Some (of_Z 104)) None 3%Z 0%Z None (of_Z (-50)) (of_Z 30)
           None step_out).
  vm_compute; reflexivity.
Defined.


(** C8 as stated fails: a spectrum of one sample, or one with fewer mus
    than energies, is not given an edge: preedge raises ValueError, without
    an edge energy and with one beyond the last energy. *)
Lemma edge_is_not_rederived :
  edge_missing_or_outside (remove_dups [of_Z 5]) None /\
  locate_edge [of_Z 5] [of_Z 1] None = Raise ValueError /\
  preedge_ref [of_Z 5] [of_Z 1] None None 3 0 None (of_Z (-50)) (of_Z 100) None
  = Raise ValueError /\
  edge_missing_or_outside (remove_dups (ramp 5)) (Some (of_Z 50)) /\
  locate_edge (ramp 5) [of_Z 1; of_Z 2; of_Z 3] (Some (of_Z 50)) = Raise ValueError /\
  preedge_ref (ramp 5) [of_Z 1; of_Z 2; of_Z 3] (Some (of_Z 50)) None 3 0 None
    (of_Z (-50)) (of_Z 100) None
  = Raise ValueError.
Proof.
  split; [exact I|]. split; [vm_compute; reflexivity|]. split; [vm_compute; reflexivity|].
  split; [right; vm_compute; reflexivity|].
  split; vm_compute; reflexivity.
Qed.

Lemma locate_edge_rederives_witness :
  length uneven_energy = length uneven_mu /\ 2 <= length uneven_energy /\
  edge_missing_or_outside (remove_dups uneven_energy) None /\
  locate_edge uneven_energy uneven_mu None = Ok (uneven_energy, of_Z 1) /\
  let energy' := remove_dups (remove_dups uneven_energy) in
  exists dmu m k,
    deriv energy' uneven_mu = Ok dmu /\
    length dmu = length energy' /\
    (forall i, i < length energy' ->
       nth i dmu nan = fdiv (difference uneven_mu i) (difference energy' i)) /\
    py_max dmu = Ok m /\
    k < length energy' /\
    locate_edge uneven_energy uneven_mu None = Ok (energy', nth k energy' nan) /\
    edge_index dmu (fmul m five_percent) k /\
    (forall (polyfit : list float -> list float -> Z -> exc (list float))
            (fpow : float -> Z -> float) (pol : oob_policy) (step : option float)
            (nnorm nvict : Z) (pre1 : option float) (pre2 norm1 : float)
            (norm2 : option float) (out : preedge_out),
       preedge polyfit fpow pol uneven_energy uneven_mu None step nnorm nvict pre1 pre2
         norm1 norm2 = Ok out ->
       exists ie0, index_nearest energy' (nth k energy' nan) = Ok ie0 /\
                   nth_error energy' ie0 = Some (out_e0 out)).
Proof.
  split; [reflexivity|]. split; [cbn; lia|]. split; [exact I|].
  split; [vm_compute; reflexivity|].
  apply (@locate_edge_rederives uneven_energy uneven_mu None);
    [reflexivity | cbn; lia | exact I].
Defined.

(** C9 as stated fails: 0 and 5e-9 are increasing, distinct and not NaN,
    and [remove_dups] moves the first to -1e-8. *)
Lemma close_pair_is_moved :
  strictly_increasing close_pair /\
  Forall (fun x => isnan x = false) close_pair /\
  NoDup close_pair /\
  remove_dups close_pair = [SFopp tiny_default; dec 5 1000000000] /\
  remove_dups close_pair <> close_pair.
Proof.
  split.
  { intros [|i] Hi; [vm_compute; reflexivity | cbn in Hi; lia]. }
  split; [repeat constructor|].
  split.
  { repeat constructor; cbn; intuition discriminate. }
  split; [vm_compute; reflexivity | vm_compute; discriminate].
Qed.

Lemma remove_dups_noop_witness :
  well_separated tiny_default [of_Z 0; dec 11 10; dec 22 10; dec 33 10] /\
  remove_dups [of_Z 0; dec 11 10; dec 22 10; dec 33 10]
  = [of_Z 0; dec 11 10; dec 22 10; dec 33 10] /\
  remove_dups (remove_dups [of_Z 0; dec 11 10; dec 22 10; dec 33 10])
  = remove_dups [of_Z 0; dec 11 10; dec 22 10; dec 33 10].
Proof.
  assert (well_separated tiny_default [of_Z 0; dec 11 10; dec 22 10; dec 33 10]) as H.
  { intros [|[|[|i]]] Hi; cbn in Hi; try lia; vm_compute; reflexivity. }
  split; [exact H|].
  apply (@remove_dups_noop [of_Z 0; dec 11 10; dec 22 10; dec 33 10] H).
Defined.

(** ** More on the index searches *)

Lemma fold_max_ge (rest : list nat) (i : nat) : i <= fold_left Nat.max rest i.
Proof.
  revert i. induction rest as [|k rest IH]; intros i; cbn; [lia|].
  specialize (IH (Nat.max i k)). lia.
Qed.

Lemma fold_max_upper (rest : list nat) (i j : nat) :
  In j (i :: rest) -> j <= fold_left Nat.max rest i.
Proof.
  revert i. induction rest as [|k rest IH]; intros i; cbn.
  - intros [<-|[]]. lia.
  - pose proof (fold_max_ge rest (Nat.max i k)).
    intros [Hj|[Hj|H']]; [lia | lia | apply IH; now right].
Qed.

Lemma min_from_In (xs : list float) (x : float) : In (min_from x xs) (x :: xs).
Proof.
  unfold min_from. revert x. induction xs as [|y xs IH]; intros x; cbn; [now left|].
  destruct (flt y x); [right; apply IH|].
  destruct (IH x) as [H|H]; [left; exact H | right; right; exact H].
Qed.

Lemma where_nil_all_false (mask : list bool) :
  Forall (fun b => b = false) mask -> np_where mask = [].
Proof.
  intros H. apply where_from_nil. now apply Forall_forall.
Qed.

(** X1: [index_of] raises ValueError on an empty array, and on a NaN value
    whatever the array: no entry is at or below NaN, and the maximum of no
    indices is asked for. *)
Theorem index_of_raises (arrval : list float) (value : float) :
  index_of [] value = Raise ValueError /\ index_of arrval nan = Raise ValueError.
Proof.
  split; [reflexivity|]. unfold index_of.
  destruct arrval as [|x xs]; [reflexivity|]. cbn [py_min bind].
  rewrite flt_nan_l. rewrite where_nil_all_false; [reflexivity|].
  apply Forall_forall. intros b Hb. apply in_map_iff in Hb.
  destruct Hb as (y & <- & _). apply fle_nan_r.
Qed.

(** X2: a returned index is 0 for a value below the minimum, and otherwise
    the largest index whose entry is at or below the value: the entry there
    is at or below it and no later entry is. *)
Theorem index_of_floor (arrval : list float) (value : float) (p : nat) :
  index_of arrval value = Ok p ->
  exists lo, py_min arrval = Ok lo /\
    ((flt value lo = true /\ p = 0) \/
     (flt value lo = false /\ fle (nth p arrval nan) value = true /\
      forall j, p < j -> fle (nth j arrval nan) value = false)).
Proof.
  unfold index_of. destruct (py_min arrval) as [lo|] eqn:Em; [|discriminate].
  cbn [bind]. intros H. exists lo. split; [reflexivity|].
  destruct (flt value lo) eqn:E.
  - left. injection H as <-. now split.
  - right. split; [reflexivity|].
    remember (np_where (map (fun x => fle x value) arrval)) as l eqn:El.
    assert (forall k, In k l <-> fle (nth k arrval nan) value = true) as Hl.
    { intros k. rewrite El, np_where_In, nth_error_map. split.
      - destruct (nth_error arrval k) as [x|] eqn:Ex; [|discriminate].
        cbn. intros [= Hx]. now rewrite (nth_error_nth _ _ nan Ex).
      - intros Hk. destruct (nth_error arrval k) as [x|] eqn:Ex.
        + rewrite (nth_error_nth _ _ nan Ex) in Hk. cbn. now rewrite Hk.
        + apply nth_error_None in Ex. rewrite nth_overflow in Hk by exact Ex.
          discriminate. }
    split; [apply Hl; now apply py_max_index_In|].
    intros j Hj. destruct (fle (nth j arrval nan) value) eqn:Ej; [|reflexivity].
    apply Hl in Ej. destruct l as [|i rest]; [contradiction|].
    injection H as <-. pose proof (@fold_max_upper rest i j Ej). lia.
Qed.

Lemma index_of_floor_witness :
  index_of [of_Z 0; of_Z 10; of_Z 20] (of_Z 15) = Ok 1 /\
  exists lo, py_min [of_Z 0; of_Z 10; of_Z 20] = Ok lo /\
    ((flt (of_Z 15) lo = true /\ 1 = 0) \/
     (flt (of_Z 15) lo = false /\ fle (nth 1 [of_Z 0; of_Z 10; of_Z 20] nan) (of_Z 15) = true /\
      forall j, 1 < j -> fle (nth j [of_Z 0; of_Z 10; of_Z 20] nan) (of_Z 15) = false)).
Proof.
  split; [vm_compute; reflexivity|].
  apply (@index_of_floor [of_Z 0; of_Z 10; of_Z 20] (of_Z 15) 1). vm_compute; reflexivity.
Defined.

(** X3: on an array that does not start with a NaN, [index_of] returns an
    index of the array for every value that is not NaN. *)
Theorem index_of_returns (x : float) (xs : list float) (value : float) :
  isnan x = false -> isnan value = false ->
  exists p, index_of (x :: xs) value = Ok p /\ p < length (x :: xs).
Proof.
  intros Hx Hv.
  assert (exists p, index_of (x :: xs) value = Ok p) as (p & Hp).
  { unfold index_of. cbn [py_min bind].
    destruct (flt value (min_from x xs)) eqn:E; [now exists 0|].
    destruct (@min_from_spec xs x Hx) as [Hm _].
    pose proof (@flt_false_fle value (min_from x xs) Hv Hm E) as Hle.
    destruct (In_nth_error _ _ (min_from_In xs x)) as (k & Hk).
    assert (In k (np_where (map (fun y => fle y value) (x :: xs)))) as Hin.
    { apply np_where_In. rewrite nth_error_map, Hk. cbn. now rewrite Hle. }
    destruct (np_where _) as [|i rest]; [contradiction|].
    eexists. reflexivity. }
  exists p. split; [exact Hp | now apply index_of_lt with value].
Qed.

Lemma index_of_returns_witness :
  isnan (of_Z 0) = false /\ isnan (of_Z 15) = false /\
  exists p, index_of [of_Z 0; of_Z 10; of_Z 20] (of_Z 15) = Ok p /\ p < 3.
Proof.
  split; [reflexivity|]. split; [reflexivity|].
  apply (@index_of_returns (of_Z 0) [of_Z 10; of_Z 20] (of_Z 15)); reflexivity.
Defined.

(** X4: [index_nearest] raises ValueError on an empty array and on no
    other: on every array with an entry it returns an index of the array,
    whatever the value, NaN and infinities included. *)
Theorem index_nearest_raises_on_empty_only (x : float) (xs : list float) (value : float) :
  index_nearest [] value = Raise ValueError /\
  exists p, index_nearest (x :: xs) value = Ok p /\ p < length (x :: xs).
Proof.
  split; [reflexivity|].
  exists (argmin_from 1 0 (fabs (fsub x value)) (map (fun y => fabs (fsub y value)) xs)).
  split; [reflexivity|].
  pose proof (@argmin_from_lt (map (fun y => fabs (fsub y value)) xs) 1 0
                (fabs (fsub x value)) Nat.lt_0_1) as H.
  rewrite length_map in H. cbn [length]. lia.
Qed.

(** The scan of [argmin] over entries without NaN. *)
Lemma argmin_from_spec (rest pre : list float) (best : nat) (mp : float) :
  Forall (fun y => isnan y = false) (pre ++ rest) ->
  best < length pre -> nth best pre nan = mp ->
  (forall j, j < length pre -> flt (nth j pre nan) mp = false) ->
  (forall j, j < best -> flt mp (nth j pre nan) = true) ->
  let p := argmin_from (length pre) best mp rest in
  let d := pre ++ rest in
  p < length d /\
  forall j, j < length d ->
    flt (nth j d nan) (nth p d nan) = false /\
    (j < p -> flt (nth p d nan) (nth j d nan) = true).
Proof.
  revert pre best mp. induction rest as [|x rest IH]; intros pre best mp Hnan Hb Hmp Hmin Hfirst.
  - cbn. rewrite app_nil_r. split; [exact Hb|]. intros j Hj. rewrite Hmp. split.
    + now apply Hmin.
    + now apply Hfirst.
  - cbn [argmin_from].
    assert (isnan mp = false) as Hmpn.
    { rewrite Forall_forall in Hnan. apply Hnan. apply in_or_app. left.
      rewrite <- Hmp. now apply nth_In. }
    assert (isnan x = false) as Hxn.
    { rewrite Forall_forall in Hnan. apply Hnan. apply in_or_app. right. now left. }
    rewrite Hmpn.
    assert (pre ++ x :: rest = (pre ++ [x]) ++ rest) as Happ by now rewrite <- app_assoc.
    assert (length (pre ++ [x]) = S (length pre)) as Hlen
      by (rewrite length_app; cbn; lia).
    assert (forall j, j < length pre -> nth j (pre ++ [x]) nan = nth j pre nan) as Hold
      by (intros j Hj; now rewrite app_nth1).
    assert (nth (length pre) (pre ++ [x]) nan = x) as Hnew
      by (rewrite app_nth2 by lia; now rewrite Nat.sub_diag).
    cbn zeta. rewrite Happ. rewrite <- Hlen.
    unfold fge. destruct (fle mp x) eqn:E; cbn [negb].
    + apply IH.
      * now rewrite <- Happ.
      * lia.
      * now rewrite Hold.
      * intros j Hj. rewrite Hlen in Hj.
        destruct (Nat.eq_dec j (length pre)) as [->|Hne].
        -- rewrite Hnew. now apply fle_flt_false.
        -- rewrite Hold by lia. apply Hmin. lia.
      * intros j Hj. rewrite Hold by lia. now apply Hfirst.
    + assert (flt x mp = true) as Hlt.
      { destruct (flt x mp) eqn:E'; [reflexivity|].
        pose proof (@flt_false_fle x mp Hxn Hmpn E'). congruence. }
      apply IH.
      * now rewrite <- Happ.
      * lia.
      * exact Hnew.
      * intros j Hj. rewrite Hlen in Hj.
        destruct (Nat.eq_dec j (length pre)) as [->|Hne].
        -- rewrite Hnew. apply flt_irrefl.
        -- rewrite Hold by lia.
           destruct (flt (nth j pre nan) x) eqn:E'; [|reflexivity].
           pose proof (flt_trans _ _ _ E' Hlt) as K. rewrite Hmin in K by lia. discriminate.
      * intros j Hj. rewrite Hold by lia.
        assert (isnan (nth j pre nan) = false) as Hjn.
        { rewrite Forall_forall in Hnan. apply Hnan. apply in_or_app. left.
          apply nth_In. lia. }
        assert (fle mp (nth j pre nan) = true) as Hle
          by (apply flt_false_fle; [exact Hjn | exact Hmpn | apply Hmin; lia]).
        eapply flt_fle_trans; eassumption.
Qed.

(** X5: when no distance [abs(array - value)] is NaN, the index returned by
    [index_nearest] is the first index of least distance: no entry is
    nearer to the value, and every earlier entry is farther from it. *)
Theorem index_nearest_minimal (array : list float) (value : float) (p : nat) :
  index_nearest array value = Ok p ->
  (forall x, In x array -> isnan (fsub x value) = false) ->
  forall j, j < length array ->
    flt (fabs (fsub (nth j array nan) value)) (fabs (fsub (nth p array nan) value)) = false /\
    (j < p ->
     flt (fabs (fsub (nth p array nan) value)) (fabs (fsub (nth j array nan) value)) = true).
Proof.
  intros Hp Hnan j Hj.
  set (dist := fun x => fabs (fsub x value)).
  assert (forall k, k < length array -> nth k (map dist array) nan = dist (nth k array nan)) as Hnth.
  { intros k Hk. rewrite (nth_indep _ nan (dist nan)) by (now rewrite length_map).
    apply map_nth. }
  pose proof (index_nearest_lt _ _ Hp) as Hplt.
  unfold index_nearest in Hp. fold dist in Hp.
  destruct array as [|x xs]; [discriminate|]. cbn [map np_argmin] in Hp.
  injection Hp as Hp.
  destruct (@argmin_from_spec (map dist xs) [dist x] 0 (dist x)) as [_ Hspec].
  - apply Forall_forall. intros y Hy. change ([dist x] ++ map dist xs) with (map dist (x :: xs)) in Hy.
    apply in_map_iff in Hy. destruct Hy as (z & <- & Hz). unfold dist.
    rewrite fabs_isnan. now apply Hnan.
  - cbn; lia.
  - reflexivity.
  - intros [|k] Hk; [apply flt_irrefl | cbn in Hk; lia].
  - intros k Hk. lia.
  - cbn zeta in Hspec. cbn [length] in Hspec. rewrite Hp in Hspec.
    change ([dist x] ++ map dist xs) with (map dist (x :: xs)) in Hspec.
    specialize (Hspec j). rewrite length_map in Hspec. specialize (Hspec Hj).
    rewrite !Hnth in Hspec by assumption. exact Hspec.
Qed.

Lemma index_nearest_minimal_witness :
  index_nearest [of_Z 0; of_Z 10; of_Z 20] (of_Z 14) = Ok 1 /\
  forall j, j < 3 ->
    flt (fabs (fsub (nth j [of_Z 0; of_Z 10; of_Z 20] nan) (of_Z 14)))
        (fabs (fsub (nth 1 [of_Z 0; of_Z 10; of_Z 20] nan) (of_Z 14))) = false /\
    (j < 1 ->
     flt (fabs (fsub (nth 1 [of_Z 0; of_Z 10; of_Z 20] nan) (of_Z 14)))
         (fabs (fsub (nth j [of_Z 0; of_Z 10; of_Z 20] nan) (of_Z 14))) = true).
Proof.
  split; [vm_compute; reflexivity|].
  apply (@index_nearest_minimal [of_Z 0; of_Z 10; of_Z 20] (of_Z 14) 1).
  - vm_compute; reflexivity.
  - intros x [<-|[<-|[<-|[]]]]; vm_compute; reflexivity.
Defined.

Lemma argmin_from_stops (rest : list float) (i best : nat) (mp : float) :
  isnan mp = true -> argmin_from i best mp rest = best.
Proof.
  intros H. destruct rest; cbn; [reflexivity | now rewrite H].
Qed.

Lemma argmin_from_first_nan (r1 r2 : list float) (n : float) (i best : nat) (mp : float) :
  isnan mp = false -> Forall (fun y => isnan y = false) r1 -> isnan n = true ->
  argmin_from i best mp (r1 ++ n :: r2) = i + length r1.
Proof.
  revert i best mp. induction r1 as [|x r1 IH]; intros i best mp Hmp Hr Hn.
  - cbn [app argmin_from length]. rewrite Hmp. unfold fge.
    destruct n; try discriminate. rewrite fle_nan_r. cbn [negb].
    rewrite argmin_from_stops by reflexivity. lia.
  - inversion Hr as [|? ? Hx Hr']; subst.
    cbn [app argmin_from length]. rewrite Hmp.
    destruct (negb (fge x mp)); rewrite IH by assumption; lia.
Qed.

(** X6: a NaN distance wins.  When some difference [array[k] - value] is
    NaN, [index_nearest] returns the first such index, whatever the other
    distances are. *)
Theorem index_nearest_first_nan (array : list float) (value : float) (k : nat) :
  k < length array ->
  isnan (fsub (nth k array nan) value) = true ->
  (forall j, j < k -> isnan (fsub (nth j array nan) value) = false) ->
  index_nearest array value = Ok k.
Proof.
  intros Hk Hn Hfirst. unfold index_nearest.
  set (dist := fun x => fabs (fsub x value)).
  destruct array as [|x xs]; [cbn in Hk; lia|]. cbn [map np_argmin].
  destruct k as [|k].
  - cbn [nth] in Hn. rewrite argmin_from_stops; [reflexivity|].
    unfold dist. now rewrite fabs_isnan.
  - cbn [length] in Hk. cbn [nth] in Hn.
    assert (k < length xs) as Hk' by lia.
    rewrite <- (firstn_skipn k xs) at 1.
    destruct (skipn k xs) as [|y r2] eqn:Es.
    { apply (f_equal (@length _)) in Es. rewrite length_skipn in Es. cbn in Es. lia. }
    assert (nth k xs nan = y) as Hy.
    { rewrite <- (firstn_skipn k xs), Es. rewrite app_nth2; rewrite length_firstn, Nat.min_l by lia; [|lia].
      now rewrite Nat.sub_diag. }
    rewrite map_app. cbn [map].
    rewrite argmin_from_first_nan.
    + rewrite length_map, length_firstn, Nat.min_l by lia. reflexivity.
    + unfold dist. rewrite fabs_isnan. apply (Hfirst 0). lia.
    + apply Forall_forall. intros d Hd. apply in_map_iff in Hd.
      destruct Hd as (z & <- & Hz). unfold dist. rewrite fabs_isnan.
      apply (In_nth _ _ nan) in Hz. destruct Hz as (j & Hj & <-).
      rewrite length_firstn in Hj.
      assert (nth j (firstn k xs) nan = nth (S j) (x :: xs) nan) as ->.
      { cbn [nth]. rewrite <- (firstn_skipn k xs) at 2. rewrite app_nth1; [reflexivity|].
        rewrite length_firstn. lia. }
      apply Hfirst. lia.
    + unfold dist. rewrite fabs_isnan. now rewrite <- Hy.
Qed.

Lemma index_nearest_first_nan_witness :
  index_nearest [of_Z 0; nan; of_Z 4; nan] (of_Z 4) = Ok 1.
Proof.
  apply (@index_nearest_first_nan [of_Z 0; nan; of_Z 4; nan] (of_Z 4) 1).
  - cbn; lia.
  - vm_compute; reflexivity.
  - intros j Hj. assert (j = 0) as -> by lia. vm_compute; reflexivity.
Defined.

(** ** More on remove_dups *)

Lemma nth_setitem_eq {A : Type} (arr : list A) (i : nat) (v d : A) :
  i < length arr -> nth i (setitem arr i v) d = v.
Proof.
  revert i. induction arr as [|x arr IH]; intros [|i]; cbn; try lia; auto.
  intros H. apply IH. lia.
Qed.

Lemma nth_setitem_neq {A : Type} (arr : list A) (i j : nat) (v d : A) :
  j <> i -> nth j (setitem arr i v) d = nth j arr d.
Proof.
  revert i j. induction arr as [|x arr IH]; intros [|i] [|j] H; cbn; try reflexivity;
    try congruence.
  apply IH. congruence.
Qed.

Lemma nth_error_zip_adjacent {C : Type} (f : float -> float -> C) (arr : list float) (i : nat) :
  nth_error (zip_with f (removelast arr) (tl arr)) i =
  if S i <? length arr then Some (f (nth i arr nan) (nth (S i) arr nan)) else None.
Proof.
  revert i. induction arr as [|x [|y rest] IH]; intros i.
  - now destruct i.
  - now destruct i.
  - change (zip_with f (removelast (x :: y :: rest)) (tl (x :: y :: rest)))
      with (f x y :: zip_with f (removelast (y :: rest)) (tl (y :: rest))).
    destruct i as [|i]; [reflexivity|].
    cbn [nth_error]. rewrite IH. reflexivity.
Qed.

Lemma sub_nan_r (x : float) : fsub x nan = nan.
Proof. now destruct x. Qed.

Lemma dups_of_In (tiny : float) (arr : list float) (i : nat) :
  In i (dups_of tiny arr) <->
  flt (fabs (fsub (nth i arr nan) (nth (S i) arr nan))) tiny = true.
Proof.
  unfold dups_of. rewrite np_where_In, nth_error_zip_adjacent.
  destruct (S i <? length arr) eqn:E.
  - split; [now intros [= ->] | now intros ->].
  - apply Nat.ltb_ge in E. rewrite (nth_overflow arr nan E), sub_nan_r.
    split; discriminate.
Qed.

Lemma dups_of_lt (tiny : float) (arr : list float) (i : nat) :
  In i (dups_of tiny arr) -> S i < length arr.
Proof.
  unfold dups_of. rewrite np_where_In, nth_error_zip_adjacent.
  destruct (S i <? length arr) eqn:E; [|discriminate].
  intros _. now apply Nat.ltb_lt.
Qed.

(** The loop of [remove_dups] over ascending indices: an index that is not
    visited keeps its entry, a visited one is lowered by the largest of
    tiny and the two scaled gaps, the left gap taken to the entry as the
    loop left it. *)
Lemma remove_dups_fold (tiny frac : float) (l : list nat) (cur : list float) :
  StronglySorted lt l -> (forall i, In i l -> S i < length cur) ->
  let out := fold_left (remove_dups_step tiny frac) l cur in
  (forall j, ~ In j l -> nth j out nan = nth j cur nan) /\
  (forall i, In i l ->
     nth i out nan =
     fsub (nth i cur nan)
       (max_from tiny
          ((if 0 <? i
            then [fmul frac (fabs (fsub (nth i cur nan) (nth (i - 1) out nan)))] else [])
           ++ [fmul frac (fabs (fsub (nth (i + 1) cur nan) (nth i cur nan)))]))).
Proof.
  revert cur. induction l as [|i l IH]; intros cur Hs Hlt; cbn zeta.
  - split; [reflexivity | contradiction].
  - inversion Hs as [|? ? Hs' Hall]; subst. rewrite Forall_forall in Hall.
    cbn [fold_left].
    set (cur1 := remove_dups_step tiny frac cur i).
    assert (S i < length cur) as Hi by (apply Hlt; now left).
    assert (length cur1 = length cur) as Hlen by apply setitem_length.
    assert (forall j, j <> i -> nth j cur1 nan = nth j cur nan) as Hother
      by (intros j Hj; now apply nth_setitem_neq).
    destruct (IH cur1 Hs') as [IH1 IH2].
    { intros k Hk. rewrite Hlen. apply Hlt. now right. }
    assert (~ In i l) as Hil by (intros K; specialize (Hall _ K); lia).
    assert (forall j, j < i -> nth j (fold_left (remove_dups_step tiny frac) l cur1) nan
                                = nth j cur nan) as Hbefore.
    { intros j Hj. rewrite IH1, Hother; [reflexivity | lia |].
      intros K. specialize (Hall _ K). lia. }
    split.
    + intros j Hj. rewrite IH1 by (intros K; apply Hj; now right).
      apply Hother. intros ->. apply Hj. now left.
    + intros k [<-|Hk].
      * rewrite IH1 by exact Hil.
        assert ((i <? length cur - 1) = true) as Elast by (apply Nat.ltb_lt; lia).
        destruct (0 <? i) eqn:E0.
        -- apply Nat.ltb_lt in E0. rewrite Hbefore by lia.
           unfold cur1, remove_dups_step. rewrite nth_setitem_eq by lia.
           rewrite Elast. apply Nat.ltb_lt in E0. now rewrite E0.
        -- unfold cur1, remove_dups_step. rewrite nth_setitem_eq by lia.
           now rewrite Elast, E0.
      * pose proof (Hall _ Hk) as Hik.
        rewrite (IH2 _ Hk). rewrite !Hother by lia. reflexivity.
Qed.

Lemma remove_dups_with_entry (tiny frac : float) (arr : list float) (i : nat) :
  let out := remove_dups_with tiny frac arr in
  nth i out nan =
  if flt (fabs (fsub (nth i arr nan) (nth (i + 1) arr nan))) tiny
  then fsub (nth i arr nan)
         (max_from tiny
            ((if 0 <? i
              then [fmul frac (fabs (fsub (nth i arr nan) (nth (i - 1) out nan)))] else [])
             ++ [fmul frac (fabs (fsub (nth (i + 1) arr nan) (nth i arr nan)))]))
  else nth i arr nan.
Proof.
  cbn zeta.
  destruct (@remove_dups_fold tiny frac (dups_of tiny arr) arr) as [H1 H2].
  { apply where_from_sorted. }
  { intros k. apply dups_of_lt. }
  fold (remove_dups_with tiny frac arr) in H1, H2.
  rewrite Nat.add_1_r.
  destruct (flt (fabs (fsub (nth i arr nan) (nth (S i) arr nan))) tiny) eqn:E.
  - rewrite H2 by (now apply dups_of_In). now rewrite Nat.add_1_r.
  - apply H1. rewrite dups_of_In. congruence.
Qed.

(** X7: what [remove_dups] returns, entry by entry.  The array keeps its
    length.  An entry closer than tiny to its right neighbour is lowered by
    the largest of tiny, frac times its distance to the (already treated)
    left neighbour and frac times its distance to the right neighbour;
    every other entry, the last one included, is returned as it was. *)
Theorem remove_dups_entries (tiny frac : float) (arr : list float) (i : nat) :
  let out := remove_dups_with tiny frac arr in
  length out = length arr /\
  nth i out nan =
  if flt (fabs (fsub (nth i arr nan) (nth (i + 1) arr nan))) tiny
  then fsub (nth i arr nan)
         (max_from tiny
            ((if 0 <? i
              then [fmul frac (fabs (fsub (nth i arr nan) (nth (i - 1) out nan)))] else [])
             ++ [fmul frac (fabs (fsub (nth (i + 1) arr nan) (nth i arr nan)))]))
  else nth i arr nan.
Proof.
  cbn zeta. split; [apply remove_dups_with_length | apply remove_dups_with_entry].
Qed.

Lemma max_from_lower (xs : list float) (x : float) :
  isnan x = false -> fle x (max_from x xs) = true.
Proof.
  intros Hx. destruct (@max_from_spec xs x Hx) as [_ H]. apply H; [now left | exact Hx].
Qed.

(** X8: the shift of a moved entry is never below tiny: an entry of the
    input closer than 1e-8 to its right neighbour comes back as
    [arr[i] - dx] for a [dx] that is not NaN and at least 1e-8. *)
Theorem remove_dups_shift (arr : list float) (i : nat) :
  flt (fabs (fsub (nth i arr nan) (nth (i + 1) arr nan))) tiny_default = true ->
  exists dx, nth i (remove_dups arr) nan = fsub (nth i arr nan) dx /\
             isnan dx = false /\ fle tiny_default dx = true.
Proof.
  intros H. pose proof (@remove_dups_with_entry tiny_default frac_default arr i) as E.
  cbn zeta in E. rewrite H in E. eexists. split; [exact E|].
  split; [now apply max_from_spec | now apply max_from_lower].
Qed.

Lemma remove_dups_shift_witness :
  exists dx,
    nth 2 (remove_dups [of_Z 0; dec 11 10; dec 22 10; dec 22 10; dec 33 10]) nan
    = fsub (nth 2 [of_Z 0; dec 11 10; dec 22 10; dec 22 10; dec 33 10] nan) dx /\
    isnan dx = false /\ fle tiny_default dx = true.
Proof.
  apply (@remove_dups_shift [of_Z 0; dec 11 10; dec 22 10; dec 22 10; dec 33 10] 2).
  vm_compute. reflexivity.
Defined.

(** ** More on remove_nans2 *)

Lemma feq_pinf (x : float) : feq x pinf = true <-> x = pinf.
Proof.
  destruct x as [| [|] | |[|] m e]; cbn; split; intros H; try discriminate; reflexivity.
Qed.

Lemma no_pinf (l : list float) :
  ~ In pinf l -> existsb (fun x => feq x pinf) l = false.
Proof.
  intros H. destruct (existsb _ l) eqn:E; [|reflexivity].
  apply existsb_exists in E. destruct E as (x & Hx & Ex).
  apply feq_pinf in Ex. subst. contradiction.
Qed.

Lemma drop_from_skip {A : Type} (arr : list A) (obj : list nat) (i k : nat) :
  k < i -> drop_from i (k :: obj) arr = drop_from i obj arr.
Proof.
  revert i. induction arr as [|x arr IH]; intros i Hk; cbn; [reflexivity|].
  assert ((i =? k) = false) as -> by (apply Nat.eqb_neq; lia).
  cbn. rewrite IH by lia. reflexivity.
Qed.

Lemma contains_where_from (mask : list bool) (i k : nat) :
  k < i -> contains (where_from i mask) k = false.
Proof.
  intros Hk. destruct (contains _ k) eqn:E; [|reflexivity].
  apply contains_In, where_from_In in E. lia.
Qed.

(** Deleting the indices at which a mask holds keeps the entries at which
    it does not. *)
Lemma drop_where_mask {A : Type} (mask : list bool) (arr : list A) (i : nat) :
  length mask = length arr ->
  drop_from i (where_from i mask) arr
  = map snd (filter (fun p => negb (fst p)) (combine mask arr)).
Proof.
  revert arr i. induction mask as [|b mask IH]; intros [|x arr] i; try discriminate;
    try reflexivity.
  intros [= H]. destruct b; cbn [where_from drop_from combine filter map fst snd negb].
  - assert (contains (i :: where_from (S i) mask) i = true) as ->
      by (apply contains_In; now left).
    rewrite drop_from_skip by lia. now apply IH.
  - rewrite contains_where_from by lia. f_equal. now apply IH.
Qed.

Lemma filter_mask_pairs (h : float * float -> bool) (a b : list float) :
  length a = length b ->
  map snd (filter (fun p => negb (fst p)) (combine (map h (combine a b)) a))
  = map fst (filter (fun p => negb (h p)) (combine a b)) /\
  map snd (filter (fun p => negb (fst p)) (combine (map h (combine a b)) b))
  = map snd (filter (fun p => negb (h p)) (combine a b)).
Proof.
  revert b. induction a as [|x a IH]; intros [|y b]; cbn; try discriminate; [now split|].
  intros [= H]. destruct (IH b H) as [H1 H2].
  destruct (h (x, y)); cbn; [now split | now rewrite H1, H2].
Qed.

Lemma map_fst_pairs (f : float -> bool) (a b : list float) :
  length a = length b ->
  map f a = map (fun p => f (fst p)) (combine a b) /\
  map f b = map (fun p => f (snd p)) (combine a b).
Proof.
  revert b. induction a as [|x a IH]; intros [|y b]; cbn; try discriminate; [now split|].
  intros [= H]. destruct (IH b H) as [H1 H2]. now rewrite H1, H2.
Qed.

(** One guarded deletion on the untouched pair of arrays. *)
Lemma delete_where_pairs (pol : oob_policy) (guard : bool) (h : float * float -> bool)
  (src a b : list float) (target : float) :
  length a = length b ->
  map (fun x => feq x target) src = map h (combine a b) ->
  (guard = false -> existsb (fun x => feq x target) src = false) ->
  delete_where pol guard src target (a, b)
  = Ok (map fst (filter (fun p => negb (h p)) (combine a b)),
        map snd (filter (fun p => negb (h p)) (combine a b))).
Proof.
  intros Hlen Hmask Hguard.
  assert (length (map h (combine a b)) = length a) as La
    by (rewrite length_map, length_combine; lia).
  assert (length (map h (combine a b)) = length b) as Lb by congruence.
  destruct (@filter_mask_pairs h a b Hlen) as [F1 F2].
  destruct guard.
  - unfold delete_where. cbn [fst snd]. rewrite Hmask.
    rewrite !np_delete_in_range by assumption. cbn [bind].
    unfold np_where. rewrite !drop_where_mask by assumption. now rewrite F1, F2.
  - rewrite delete_where_absent by (now apply Hguard).
    pose proof (@np_where_absent target src (Hguard eq_refl)) as Hw. rewrite Hmask in Hw.
    rewrite <- F1, <- F2.
    rewrite <- (@drop_where_mask _ (map h (combine a b)) a 0 La).
    rewrite <- (@drop_where_mask _ (map h (combine a b)) b 0 Lb).
    fold (np_where (map h (combine a b))). rewrite Hw, !drop_from_none. reflexivity.
Qed.

Lemma isinf_guard (l : list float) :
  existsb isinf l = false -> existsb (fun x => feq x pinf) l = false.
Proof.
  intros H. destruct (existsb (fun x => feq x pinf) l) eqn:E; [|reflexivity].
  apply existsb_exists in E. destruct E as (x & Hx & Ex). apply feq_pinf in Ex. subst.
  assert (existsb isinf l = true) as K by (apply existsb_exists; now exists pinf).
  congruence.
Qed.

(** X9: [remove_nans2] removes nothing but +inf: two arrays without a +inf
    entry are returned as they are, whatever their lengths, with every NaN
    and every -inf they hold. *)
Theorem remove_nans2_keeps_nan_and_ninf (pol : oob_policy) (a b : list float) :
  ~ In pinf a -> ~ In pinf b -> remove_nans2 pol a b = Ok (a, b).
Proof.
  intros Ha Hb. apply remove_nans2_without_pinf; now apply no_pinf.
Qed.

Lemma remove_nans2_keeps_nan_and_ninf_witness :
  remove_nans2 OobRaises [of_Z 0; nan; ninf] [of_Z 1; of_Z 2; of_Z 3; nan]
  = Ok ([of_Z 0; nan; ninf], [of_Z 1; of_Z 2; of_Z 3; nan]).
Proof.
  apply (@remove_nans2_keeps_nan_and_ninf OobRaises [of_Z 0; nan; ninf]
           [of_Z 1; of_Z 2; of_Z 3; nan]);
    vm_compute; intuition discriminate.
Defined.

(** X10: when only one of two arrays of equal length holds +inf, the
    result is the two arrays without the index pairs at which a +inf
    stands, in the original order, under both policies of [np.delete]. *)
Theorem remove_nans2_drops_pinf_pairs (pol : oob_policy) (a b : list float) :
  length a = length b -> ~ In pinf a \/ ~ In pinf b ->
  let kept := filter (fun p => negb (feq (fst p) pinf || feq (snd p) pinf)) (combine a b) in
  remove_nans2 pol a b = Ok (map fst kept, map snd kept).
Proof.
  intros Hlen Hone. cbn zeta.
  destruct (@map_fst_pairs (fun x => feq x pinf) a b Hlen) as [Ma Mb].
  assert (forall l1 l2 : list float, existsb (fun x => feq x pinf) l1 = false ->
            forall p, In p (combine l1 l2) -> feq (fst p) pinf = false) as Hfst.
  { intros l1 l2 H [x y] Hp. apply in_combine_l in Hp. cbn.
    destruct (feq x pinf) eqn:E; [|reflexivity].
    assert (existsb (fun x => feq x pinf) l1 = true) as K
      by (apply existsb_exists; now exists x). congruence. }
  assert (forall l1 l2 : list float, existsb (fun x => feq x pinf) l2 = false ->
            forall p, In p (combine l1 l2) -> feq (snd p) pinf = false) as Hsnd.
  { intros l1 l2 H [x y] Hp. apply in_combine_r in Hp. cbn.
    destruct (feq y pinf) eqn:E; [|reflexivity].
    assert (existsb (fun x => feq x pinf) l2 = true) as K
      by (apply existsb_exists; now exists y). congruence. }
  assert (remove_nans2 pol a b
          = (ab1 <- delete_where pol (existsb isinf a) a pinf (a, b) ;;
             ab2 <- delete_where pol (existsb isinf b) b pinf ab1 ;;
             ab3 <- delete_where pol (existsb isnan a) a nan ab2 ;;
             delete_where pol (existsb isnan b) b nan ab3)) as E.
  { unfold remove_nans2. destruct (_ || _) eqn:G; [reflexivity|].
    apply orb_false_iff in G. destruct G as [G _].
    apply orb_false_iff in G. destruct G as [G _].
    apply orb_false_iff in G. destruct G as [Ga Gb].
    rewrite Ga, Gb.
    rewrite delete_where_absent by (now apply isinf_guard). cbn [bind].
    rewrite delete_where_absent by (now apply isinf_guard). cbn [bind].
    rewrite delete_where_nan. cbn [bind]. now rewrite delete_where_nan. }
  rewrite E. clear E.
  destruct Hone as [Ha|Hb].
  - apply no_pinf in Ha.
    rewrite delete_where_absent by exact Ha. cbn [bind].
    rewrite (@delete_where_pairs pol (existsb isinf b) (fun p => feq (snd p) pinf) b a b pinf
               Hlen Mb (@isinf_guard b)).
    cbn [bind]. rewrite delete_where_nan. cbn [bind]. rewrite delete_where_nan.
    rewrite (@filter_ext_in _ (fun p => negb (feq (snd p) pinf))
               (fun p => negb (feq (fst p) pinf || feq (snd p) pinf))); [reflexivity|].
    intros p Hp. now rewrite (Hfst a b Ha p Hp).
  - apply no_pinf in Hb.
    rewrite (@delete_where_pairs pol (existsb isinf a) (fun p => feq (fst p) pinf) a a b pinf
               Hlen Ma (@isinf_guard a)).
    cbn [bind].
    set (kept := filter (fun p => negb (feq (fst p) pinf)) (combine a b)).
    unfold delete_where at 1.
    destruct (existsb isinf b).
    + rewrite np_where_absent by exact Hb. rewrite !np_delete_none. cbn [bind fst snd].
      rewrite delete_where_nan. cbn [bind]. rewrite delete_where_nan.
      unfold kept.
      rewrite (@filter_ext_in _ (fun p => negb (feq (fst p) pinf))
                 (fun p => negb (feq (fst p) pinf || feq (snd p) pinf))); [reflexivity|].
      intros p Hp. rewrite (Hsnd a b Hb p Hp). now rewrite orb_false_r.
    + cbn [bind]. rewrite delete_where_nan. cbn [bind]. rewrite delete_where_nan.
      unfold kept.
      rewrite (@filter_ext_in _ (fun p => negb (feq (fst p) pinf))
                 (fun p => negb (feq (fst p) pinf || feq (snd p) pinf))); [reflexivity|].
      intros p Hp. rewrite (Hsnd a b Hb p Hp). now rewrite orb_false_r.
Qed.

Lemma remove_nans2_drops_pinf_pairs_witness :
  let a := [of_Z 0; pinf; of_Z 2; nan] in
  let b := [of_Z 1; of_Z 2; ninf; of_Z 4] in
  remove_nans2 OobRaises a b = Ok ([of_Z 0; of_Z 2; nan], [of_Z 1; ninf; of_Z 4]) /\
  let kept := filter (fun p => negb (feq (fst p) pinf || feq (snd p) pinf)) (combine a b) in
  remove_nans2 OobRaises a b = Ok (map fst kept, map snd kept).
Proof.
  split; [vm_compute; reflexivity|].
  apply (@remove_nans2_drops_pinf_pairs OobRaises [of_Z 0; pinf; of_Z 2; nan]
           [of_Z 1; of_Z 2; ninf; of_Z 4]).
  - reflexivity.
  - right. vm_compute. intuition discriminate.
Defined.

(** ** More on the dictionary of preedge *)

Lemma fadd_notnan (x y : float) :
  isnan (fadd x y) = false -> isnan x = false /\ isnan y = false.
Proof.
  destruct x, y; try discriminate; auto.
Qed.

Lemma flt_asym (x y : float) : flt x y = true -> flt y x = false.
Proof.
  intros H. destruct (flt y x) eqn:E; [|reflexivity].
  pose proof (flt_trans _ _ _ H E) as K. rewrite flt_irrefl in K. discriminate.
Qed.

(** The four bounds as [resolve_bounds] leaves them: each pair is in
    order, and the unclamped member of each pair is on the data's side of
    the clamp. *)
Lemma resolve_bounds_ordered (energy : list float) (e0 : float) (pre1 : option float)
  (pre2 norm1 : float) (norm2 : option float) (b1 b2 b3 b4 : float) :
  resolve_bounds energy e0 pre1 pre2 norm1 norm2 = Ok (b1, b2, b3, b4) ->
  fgt b1 b2 = false /\ fgt b3 b4 = false.
Proof.
  unfold resolve_bounds. intros H.
  repeat match type of H with
         | bind ?c _ = Ok _ => destruct c as [?|?]; [cbn [bind] in H | discriminate H]
         end.
  repeat match type of H with
         | context [if fgt ?x ?y then _ else _] =>
             let G := fresh "G" in destruct (fgt x y) eqn:G
         end;
    injection H as <- <- <- <-; unfold fgt in *;
    split; first [assumption | now apply flt_asym].
Qed.

Section PreedgeMore.
Variable polyfit : list float -> list float -> Z -> exc (list float).
Variable fpow : float -> Z -> float.
Variable pol : oob_policy.

(** Every returned dictionary comes with the results of all the stages,
    the two fits included. *)
Lemma preedge_fits energy mu e0 step nnorm nvict pre1 pre2 norm1 norm2 out :
  preedge polyfit fpow pol energy mu e0 step nnorm nvict pre1 pre2 norm1 norm2 = Ok out ->
  exists energy' e1 ie0 p1 p2 q1 q2 omu,
    locate_edge energy mu e0 = Ok (energy', e1) /\
    snap_e0 energy' e1 = Ok (ie0, out_e0 out) /\
    resolve_bounds energy' (out_e0 out) pre1 pre2 norm1 norm2
    = Ok (out_pre1 out, out_pre2 out, out_norm1 out, out_norm2 out) /\
    fit_window energy' (out_e0 out) (out_pre1 out) (out_pre2 out) = Ok (p1, p2) /\
    weighted fpow energy' mu nvict = Ok omu /\
    fit_pre_edge polyfit fpow pol energy' omu nvict p1 p2
    = Ok (out_precoefs out, out_pre_edge out) /\
    fit_window energy' (out_e0 out) (out_norm1 out) (out_norm2 out) = Ok (q1, q2) /\
    fit_post_edge polyfit fpow energy' omu nvict (out_nnorm out) q1 q2
    = Ok (out_post_edge out, out_norm_coefs out) /\
    out_nnorm out = Z.max (Z.min nnorm 5) 1 /\
    normalize mu (out_pre_edge out) (out_post_edge out) ie0 step
    = Ok (out_edge_step out, out_norm out).
Proof.
  unfold preedge. intros H. bind_inv H. injection H as <-. cbn.
  do 8 eexists.
  repeat match goal with |- _ /\ _ => split end; first [reflexivity | eassumption].
Qed.

(** X11: the degree of the post-edge polynomial is the requested one
    brought into 1..5: it is what [polyfit] is called with on the
    normalization window, and the returned norm_coefs are the coefficients
    of that call, lowest power first. *)
Theorem preedge_post_edge_degree energy mu e0 step nnorm nvict pre1 pre2 norm1 norm2 out :
  preedge polyfit fpow pol energy mu e0 step nnorm nvict pre1 pre2 norm1 norm2 = Ok out ->
  (1 <= out_nnorm out <= 5)%Z /\
  ((1 <= nnorm <= 5)%Z -> out_nnorm out = nnorm) /\
  ((nnorm < 1)%Z -> out_nnorm out = 1%Z) /\
  ((5 < nnorm)%Z -> out_nnorm out = 5%Z) /\
  exists energy' e1 omu q1 q2 coefs,
    locate_edge energy mu e0 = Ok (energy', e1) /\
    weighted fpow energy' mu nvict = Ok omu /\
    fit_window energy' (out_e0 out) (out_norm1 out) (out_norm2 out) = Ok (q1, q2) /\
    polyfit (slice q1 q2 energy') (slice q1 q2 omu) (out_nnorm out) = Ok coefs /\
    out_norm_coefs out = rev coefs.
Proof.
  intros H. destruct (preedge_fits _ _ _ _ _ _ _ _ _ _ H)
    as (energy' & e1 & ie0 & p1 & p2 & q1 & q2 & omu & Hloc & _ & _ & _ & Hw & _ & Hwin
        & Hpost & Hn & _).
  split; [lia|]. split; [lia|]. split; [lia|]. split; [lia|].
  unfold fit_post_edge in Hpost.
  destruct (polyfit (slice q1 q2 energy') (slice q1 q2 omu) (out_nnorm out)) as [coefs|] eqn:E;
    [|discriminate].
  cbn in Hpost. injection Hpost as _ Hc.
  exists energy', e1, omu, q1, q2, coefs. now repeat split.
Qed.

(** X12: the bounds of a returned dictionary are in order: pre1 is never
    above pre2 and norm1 never above norm2, and neither pre1 nor norm1 is
    NaN. *)
Theorem preedge_bounds_ordered energy mu e0 step nnorm nvict pre1 pre2 norm1 norm2 out :
  preedge polyfit fpow pol energy mu e0 step nnorm nvict pre1 pre2 norm1 norm2 = Ok out ->
  fgt (out_pre1 out) (out_pre2 out) = false /\
  fgt (out_norm1 out) (out_norm2 out) = false /\
  isnan (out_pre1 out) = false /\ isnan (out_norm1 out) = false /\
  (isnan (out_pre2 out) = false -> fle (out_pre1 out) (out_pre2 out) = true) /\
  (isnan (out_norm2 out) = false -> fle (out_norm1 out) (out_norm2 out) = true).
Proof.
  intros H. destruct (preedge_fits _ _ _ _ _ _ _ _ _ _ H)
    as (energy' & e1 & ie0 & p1 & p2 & q1 & q2 & omu & _ & _ & Hb & Hw1 & _ & _ & Hw2 & _).
  destruct (resolve_bounds_ordered _ _ _ _ _ _ Hb) as [H1 H2].
  assert (forall lo hi p q, fit_window energy' (out_e0 out) lo hi = Ok (p, q) ->
                            isnan lo = false) as Hnan.
  { intros lo hi p q Hw. unfold fit_window in Hw.
    destruct (index_of energy' (fadd lo (out_e0 out))) as [k|] eqn:Ek; [|discriminate].
    apply index_of_notnan in Ek. now apply fadd_notnan in Ek. }
  pose proof (Hnan _ _ _ _ Hw1) as N1. pose proof (Hnan _ _ _ _ Hw2) as N3.
  split; [exact H1|]. split; [exact H2|]. split; [exact N1|]. split; [exact N3|].
  split; intros N; apply flt_false_fle; assumption.
Qed.

(** X13: with one mu per energy, the arrays of a returned dictionary have
    one entry per energy: pre_edge and norm always, post_edge unless
    [polyfit] returned no coefficient, in which case it is the scalar 0 it
    started as and a step was supplied.  Entry by entry norm is
    [(mu - pre_edge)/edge_step]. *)
Theorem preedge_array_shapes energy mu e0 step nnorm nvict pre1 pre2 norm1 norm2 out :
  length energy = length mu ->
  preedge polyfit fpow pol energy mu e0 step nnorm nvict pre1 pre2 norm1 norm2 = Ok out ->
  length (out_pre_edge out) = length energy /\
  length (out_norm out) = length energy /\
  (forall i, i < length energy ->
     nth i (out_norm out) nan
     = fdiv (fsub (nth i mu nan) (nth i (out_pre_edge out) nan)) (out_edge_step out)) /\
  match out_post_edge out with
  | NpArray post => length post = length energy
  | NpScalar s => s = fzero /\ out_norm_coefs out = [] /\ step <> None
  end.
Proof.
  intros Hlen H. destruct (preedge_fits _ _ _ _ _ _ _ _ _ _ H)
    as (energy' & e1 & ie0 & p1 & p2 & q1 & q2 & omu & Hloc & _ & _ & _ & _ & Hpre & _
        & Hpost & _ & Hnorm).
  assert (length energy' = length energy) as Hl'.
  { destruct (locate_edge_energy _ _ _ Hloc) as [->| ->];
      now rewrite ?remove_dups_length. }
  assert (length (out_pre_edge out) = length energy) as Lpre.
  { unfold fit_pre_edge in Hpre. bind_inv Hpre. injection Hpre as _ <-.
    now rewrite length_map. }
  assert (length mu = length (out_pre_edge out)) as Lmu by congruence.
  split; [exact Lpre|].
  unfold normalize in Hnorm.
  destruct (match step with Some s => Ok s | None => _ end) as [es|] eqn:Estep; [|discriminate].
  cbn [bind] in Hnorm.
  destruct (@broadcast_Ok fsub mu (out_pre_edge out) Lmu) as [Eb Lz].
  rewrite Eb in Hnorm. cbn [bind] in Hnorm. injection Hnorm as <- <-.
  split; [rewrite length_map; congruence|].
  split.
  - intros i Hi.
    rewrite (nth_indep _ nan (fdiv nan es)) by (rewrite length_map; lia).
    rewrite (map_nth (fun x => fdiv x es)).
    now rewrite (@nth_zip_with _ _ _ fsub mu (out_pre_edge out) i nan nan nan Lmu) by lia.
  - unfold fit_post_edge in Hpost.
    destruct (polyfit _ _ _) as [coefs|]; [|discriminate]. cbn [bind] in Hpost.
    revert Estep. injection Hpost as <- <-.
    destruct (rev coefs) as [|c rc] eqn:Erc; intros Estep.
    + cbn. split; [reflexivity|]. split; [reflexivity|].
      intros ->. cbn in Estep. discriminate.
    + destruct (@post_edge_fold fpow energy' nvict
                  (combine (seq 0 (length (c :: rc))) (c :: rc))) as (post & -> & Lp).
      { cbn. discriminate. }
      congruence.
Qed.
(** The value of the post-edge sum at one energy: the terms
    [c * e**(n - nvict)] added in the order of the loop. *)
Lemma post_edge_fold_nth (energy : list float) (nvict : Z) (l : list (nat * float))
  (a : list float) (i : nat) :
  length a = length energy -> i < length energy ->
  exists a', fold_left (post_edge_add fpow energy nvict) l (NpArray a) = NpArray a' /\
    nth i a' nan
    = fold_left (fun acc nc =>
                   fadd acc (fmul (snd nc) (fpow (nth i energy nan) (Z.of_nat (fst nc) - nvict))))
        l (nth i a nan).
Proof.
  revert a. induction l as [|[n c] l IH]; intros a Ha Hi; cbn [fold_left post_edge_add].
  - now exists a.
  - set (term := map (fun e => fmul (snd (n, c)) (fpow e (Z.of_nat (fst (n, c)) - nvict))) energy).
    assert (length term = length energy) as Lt by apply length_map.
    destruct (IH (zip_with fadd a term)) as (a' & Ea & Hn).
    { rewrite zip_with_length; congruence. }
    { exact Hi. }
    exists a'. split; [exact Ea|]. rewrite Hn. f_equal.
    rewrite (@nth_zip_with _ _ _ fadd a term i nan nan nan) by congruence.
    f_equal. unfold term.
    rewrite (nth_indep _ nan (fmul (snd (n, c)) (fpow nan (Z.of_nat (fst (n, c)) - nvict))))
      by (rewrite length_map; lia).
    now rewrite (map_nth (fun e => fmul (snd (n, c)) (fpow e (Z.of_nat (fst (n, c)) - nvict)))).
Qed.

Lemma post_edge_sum_nth (energy : list float) (nvict : Z) (l : list (nat * float)) (i : nat) :
  l <> [] -> i < length energy ->
  exists post, fold_left (post_edge_add fpow energy nvict) l (NpScalar fzero) = NpArray post /\
    nth i post nan
    = fold_left (fun acc nc =>
                   fadd acc (fmul (snd nc) (fpow (nth i energy nan) (Z.of_nat (fst nc) - nvict))))
        l fzero.
Proof.
  destruct l as [|[n c] l]; [intros H; now elim H|]. intros _ Hi.
  cbn [fold_left post_edge_add].
  set (term := map (fun e => fmul (snd (n, c)) (fpow e (Z.of_nat (fst (n, c)) - nvict))) energy).
  destruct (@post_edge_fold_nth energy nvict l (map (fadd fzero) term) i) as (post & Ep & Hn).
  { unfold term. now rewrite !length_map. }
  { exact Hi. }
  exists post. split; [exact Ep|]. rewrite Hn. f_equal.
  rewrite (nth_indep _ nan (fadd fzero nan)) by (unfold term; rewrite !length_map; lia).
  rewrite (map_nth (fadd fzero)). f_equal. unfold term.
  rewrite (nth_indep _ nan (fmul (snd (n, c)) (fpow nan (Z.of_nat (fst (n, c)) - nvict))))
    by (rewrite length_map; lia).
  now rewrite (map_nth (fun e => fmul (snd (n, c)) (fpow e (Z.of_nat (fst (n, c)) - nvict)))).
Qed.

(** X14: the post-edge curve of a returned dictionary is the polynomial of
    its norm_coefs: at every energy of the de-duplicated array it is the
    sum of [norm_coefs[n] * energy**(n - nvict)], added to 0 from the
    lowest power up. *)
Theorem preedge_post_edge_values energy mu e0 step nnorm nvict pre1 pre2 norm1 norm2 out :
  preedge polyfit fpow pol energy mu e0 step nnorm nvict pre1 pre2 norm1 norm2 = Ok out ->
  out_norm_coefs out <> [] ->
  exists energy' e1 post,
    locate_edge energy mu e0 = Ok (energy', e1) /\
    out_post_edge out = NpArray post /\
    forall i, i < length energy' ->
      nth i post nan
      = fold_left (fun acc nc =>
                     fadd acc (fmul (snd nc)
                                 (fpow (nth i energy' nan) (Z.of_nat (fst nc) - nvict))))
          (combine (seq 0 (length (out_norm_coefs out))) (out_norm_coefs out)) fzero.
Proof.
  intros H Hc. destruct (preedge_fits _ _ _ _ _ _ _ _ _ _ H)
    as (energy' & e1 & ie0 & p1 & p2 & q1 & q2 & omu & Hloc & _ & _ & _ & _ & _ & _
        & Hpost & _).
  unfold fit_post_edge in Hpost.
  destruct (polyfit _ _ _) as [coefs|]; [|discriminate]. cbn [bind] in Hpost.
  injection Hpost as Ep Ec. rewrite <- Ec in *.
  assert (combine (seq 0 (length (rev coefs))) (rev coefs) <> []) as Hl.
  { intros K. apply (f_equal (@length _)) in K.
    rewrite length_combine, length_seq, Nat.min_id in K.
    destruct (rev coefs); [now elim Hc | discriminate]. }
  destruct (@post_edge_fold fpow energy' nvict _ Hl) as (post & Epost & _).
  exists energy', e1, post. split; [exact Hloc|]. split; [congruence|].
  intros i Hi. destruct (@post_edge_sum_nth energy' nvict _ i Hl Hi) as (post' & Ep' & Hn).
  rewrite Epost in Ep'. injection Ep' as <-. exact Hn.
Qed.

(** X15: the edge step of a returned dictionary is the supplied step, as
    it is, or else the post-edge curve minus the pre-edge curve at the
    index of the returned e0. *)
Theorem preedge_edge_step energy mu e0 step nnorm nvict pre1 pre2 norm1 norm2 out :
  preedge polyfit fpow pol energy mu e0 step nnorm nvict pre1 pre2 norm1 norm2 = Ok out ->
  match step with
  | Some s => out_edge_step out = s
  | None =>
      exists energy' e1 ie0 post,
        locate_edge energy mu e0 = Ok (energy', e1) /\
        index_nearest energy' e1 = Ok ie0 /\
        nth_error energy' ie0 = Some (out_e0 out) /\
        out_post_edge out = NpArray post /\
        out_edge_step out = fsub (nth ie0 post nan) (nth ie0 (out_pre_edge out) nan)
  end.
Proof.
  intros H. destruct (preedge_fits _ _ _ _ _ _ _ _ _ _ H)
    as (energy' & e1 & ie0 & p1 & p2 & q1 & q2 & omu & Hloc & Hsnap & _ & _ & _ & _ & _
        & _ & _ & Hnorm).
  unfold normalize in Hnorm. destruct step as [s|]; cbn [bind] in Hnorm.
  - destruct (broadcast fsub mu (out_pre_edge out)); [|discriminate].
    cbn [bind] in Hnorm. now injection Hnorm as <- _.
  - destruct (snap_e0_spec _ _ Hsnap) as [Hi Hn].
    destruct (out_post_edge out) as [s|post] eqn:Epost; [discriminate|].
    cbn [npval_getitem] in Hnorm. unfold getitem in Hnorm.
    destruct (nth_error post ie0) as [hi|] eqn:Ehi; [|discriminate]. cbn [bind] in Hnorm.
    destruct (nth_error (out_pre_edge out) ie0) as [lo|] eqn:Elo; [|discriminate].
    cbn [bind] in Hnorm.
    destruct (broadcast fsub mu (out_pre_edge out)); [|discriminate].
    cbn [bind] in Hnorm. injection Hnorm as <- _.
    exists energy', e1, ie0, post. repeat (split; [assumption || reflexivity|]).
    now rewrite (nth_error_nth _ _ nan Ehi), (nth_error_nth _ _ nan Elo).
Qed.
End PreedgeMore.

(** ** The exceptions of preedge *)

Lemma np_gradient_Raise (f : list float) :
  length f < 2 -> np_gradient f = Raise ValueError.
Proof.
  destruct f as [|x0 [|x1 rest]]; cbn; intros H; try reflexivity. lia.
Qed.

Lemma broadcast_Raise (f : float -> float -> float) (a b : list float) :
  2 <= length a -> 2 <= length b -> length a <> length b ->
  broadcast f a b = Raise ValueError.
Proof.
  intros Ha Hb Hne. unfold broadcast.
  assert (Nat.eqb (length a) (length b) = false) as -> by now apply Nat.eqb_neq.
  destruct a as [|x [|x' a]]; cbn in Ha; try lia.
  destruct b as [|y [|y' b]]; cbn in Hb; try lia. reflexivity.
Qed.

Lemma deriv_Raise (energy mu : list float) :
  length energy < 2 \/ length mu < 2 \/ length energy <> length mu ->
  deriv energy mu = Raise ValueError.
Proof.
  intros H. unfold deriv.
  destruct (Nat.lt_ge_cases (length mu) 2) as [Hm|Hm].
  { now rewrite np_gradient_Raise. }
  destruct (@np_gradient_Ok mu Hm) as (gmu & -> & Lg). cbn [bind].
  destruct (Nat.lt_ge_cases (length energy) 2) as [He|He].
  { now rewrite np_gradient_Raise. }
  destruct (@np_gradient_Ok energy He) as (ge & -> & Le). cbn [bind].
  apply broadcast_Raise; lia.
Qed.

Lemma find_e0_Raise (energy mu : list float) :
  length energy < 2 \/ length mu < 2 \/ length energy <> length mu ->
  find_e0 energy mu = Raise ValueError.
Proof.
  intros H. unfold find_e0. rewrite deriv_Raise; [reflexivity|].
  now rewrite remove_dups_length.
Qed.

Lemma index_of_error (arrval : list float) (value : float) (e : pyerr) :
  index_of arrval value = Raise e -> e = ValueError.
Proof.
  unfold index_of. destruct arrval as [|x xs]; cbn [py_min bind]; [now intros [= <-]|].
  destruct (flt value _); [discriminate|].
  destruct (np_where _); cbn; [now intros [= <-] | discriminate].
Qed.

Lemma fit_window_error (energy : list float) (e0 lo hi : float) (e : pyerr) :
  fit_window energy e0 lo hi = Raise e -> e = ValueError.
Proof.
  unfold fit_window.
  destruct (index_of energy (fadd lo e0)) as [p1|e1] eqn:E1; cbn [bind].
  - destruct energy as [|x xs]; [discriminate E1|].
    unfold index_nearest. cbn [map np_argmin bind].
    destruct (_ <? _)%Z; discriminate.
  - intros [= <-]. now apply index_of_error in E1.
Qed.

Lemma resolve_bounds_Ok (x : float) (xs : list float) (e0 : float) (pre1 : option float)
  (pre2 norm1 : float) (norm2 : option float) :
  exists b, resolve_bounds (x :: xs) e0 pre1 pre2 norm1 norm2 = Ok b.
Proof.
  unfold resolve_bounds. cbn [py_min py_max bind].
  destruct pre1, norm2; cbn [bind];
    repeat match goal with
           | |- context [if ?c then _ else _] => destruct c; cbn [bind]
           end; eexists; reflexivity.
Qed.

Lemma snap_e0_Ok (x : float) (xs : list float) (e1 : float) :
  exists ie0 e0, snap_e0 (x :: xs) e1 = Ok (ie0, e0).
Proof.
  unfold snap_e0.
  destruct (index_nearest (x :: xs) e1) as [ie0|] eqn:E; [|discriminate E].
  cbn [bind]. pose proof (index_nearest_lt _ _ E) as Hlt.
  unfold getitem. destruct (nth_error (x :: xs) ie0) as [v|] eqn:Ev.
  - cbn. now exists ie0, v.
  - apply nth_error_None in Ev. lia.
Qed.

(** With at least two energies and a mu of another length (at least two
    as well) the edge stage returns only for a supplied e0, and with the
    energies as long as the input. *)
Lemma locate_edge_mismatch (energy mu : list float) (e0 : option float) :
  2 <= length energy -> 2 <= length mu -> length energy <> length mu ->
  locate_edge energy mu e0 = Raise ValueError \/
  exists v, locate_edge energy mu e0 = Ok (remove_dups energy, v).
Proof.
  intros He Hm Hne. unfold locate_edge.
  assert (find_e0 (remove_dups energy) mu = Raise ValueError) as Ef
    by (apply find_e0_Raise; rewrite remove_dups_length; lia).
  rewrite Ef.
  destruct e0 as [v|]; [|now left]. cbn [e0_unusable].
  pose proof (remove_dups_length energy) as Hl.
  destruct (remove_dups energy) as [|x xs] eqn:Er; [cbn in Hl; lia|].
  cbn [getitem nth_error bind getlast].
  destruct (flt v x); [now left|]. cbn [bind].
  destruct (fgt v (last xs x)); [now left | right; now exists v].
Qed.

Section PreedgeErrors.
Variable polyfit : list float -> list float -> Z -> exc (list float).
Variable fpow : float -> Z -> float.
Variable pol : oob_policy.

(** X16: deriving e0 takes two samples: without a supplied e0, a spectrum
    whose energy or mu has fewer than two entries raises ValueError,
    the empty spectrum included. *)
Theorem preedge_needs_two_samples energy mu step nnorm nvict pre1 pre2 norm1 norm2 :
  length energy < 2 \/ length mu < 2 ->
  preedge polyfit fpow pol energy mu None step nnorm nvict pre1 pre2 norm1 norm2
  = Raise ValueError.
Proof.
  intros H. unfold preedge, locate_edge. cbn [e0_unusable bind].
  rewrite find_e0_Raise; [reflexivity|]. rewrite remove_dups_length. tauto.
Qed.

(** X17: energy and mu of different lengths, both of two entries or more,
    raise ValueError whether e0 is supplied or not: the division of the
    two gradients or the product [mu*energy**nvict] cannot be broadcast. *)
Theorem preedge_length_mismatch energy mu e0 step nnorm nvict pre1 pre2 norm1 norm2 :
  2 <= length energy -> 2 <= length mu -> length energy <> length mu ->
  preedge polyfit fpow pol energy mu e0 step nnorm nvict pre1 pre2 norm1 norm2
  = Raise ValueError.
Proof.
  intros He Hm Hne. unfold preedge.
  destruct (@locate_edge_mismatch energy mu e0 He Hm Hne) as [-> | (v & ->)]; [reflexivity|].
  cbn [bind].
  pose proof (remove_dups_length energy) as Hl.
  destruct (remove_dups energy) as [|x xs] eqn:Er; [cbn in Hl; lia|].
  destruct (snap_e0_Ok x xs v) as (ie0 & e0' & ->). cbn [bind].
  destruct (resolve_bounds_Ok x xs e0' pre1 pre2 norm1 norm2) as ([[[b1 b2] b3] b4] & ->).
  cbn [bind].
  destruct (fit_window (x :: xs) e0' b1 b2) as [[p1 p2]|e] eqn:Ew.
  - cbn [bind]. unfold weighted. rewrite broadcast_Raise; [reflexivity | lia | |].
    + rewrite length_map. lia.
    + rewrite length_map. lia.
  - cbn [bind]. now rewrite (fit_window_error _ _ _ _ Ew).
Qed.

(** X18: the empty spectrum never gets a dictionary: without e0 the
    gradient raises ValueError, with a supplied e0 the first test,
    [e0 < energy[0]], raises IndexError. *)
Theorem preedge_empty_energy mu e0 step nnorm nvict pre1 pre2 norm1 norm2 :
  preedge polyfit fpow pol [] mu e0 step nnorm nvict pre1 pre2 norm1 norm2
  = Raise (match e0 with Some _ => IndexError | None => ValueError end).
Proof.
  destruct e0 as [v|]; [reflexivity|].
  unfold preedge, locate_edge. cbn [e0_unusable bind].
  rewrite find_e0_Raise; [reflexivity|]. left. rewrite remove_dups_length. cbn. lia.
Qed.
End PreedgeErrors.

(** ** A spectrum without an edge *)

Lemma fsub_self (c : float) : zero_or_nan (fsub c c) = true.
Proof.
  destruct c as [s|s| |s m e]; try (destruct s; reflexivity); try reflexivity.
  unfold fsub, SFsub. rewrite Z.sub_diag. reflexivity.
Qed.

Lemma fdiv_zero_or_nan (x y : float) : zero_or_nan x = true -> zero_or_nan (fdiv x y) = true.
Proof.
  destruct x as [s| | |]; try discriminate; intros _; destruct y; reflexivity.
Qed.

Lemma fmul_zero_or_nan (x y : float) : zero_or_nan x = true -> isinf y = false ->
  zero_or_nan (fmul x y) = true.
Proof.
  destruct x as [s| | |]; try discriminate; intros _; destruct y; try discriminate; reflexivity.
Qed.

Lemma flt_zero_or_nan (x y : float) :
  zero_or_nan x = true -> zero_or_nan y = true -> flt x y = false.
Proof.
  destruct x as [s| | |]; try discriminate; destruct y as [s'| | |]; try discriminate;
    reflexivity.
Qed.

Lemma gradient_inner_flat (c : float) (rest : list float) :
  Forall (eq c) rest -> Forall (fun x => zero_or_nan x = true) (gradient_inner c rest).
Proof.
  induction rest as [|x [|y rest] IH]; intros H; cbn [gradient_inner].
  - constructor.
  - inversion H; subst. constructor; [|constructor].
    apply fdiv_zero_or_nan, fsub_self.
  - inversion H as [|? ? <- H']; subst. inversion H' as [|? ? <- _]; subst.
    constructor; [apply fdiv_zero_or_nan, fsub_self | now apply IH].
Qed.

Lemma np_gradient_flat (c : float) (f g : list float) :
  Forall (eq c) f -> np_gradient f = Ok g -> Forall (fun x => zero_or_nan x = true) g.
Proof.
  destruct f as [|x0 [|x1 rest]]; try discriminate.
  intros H [= <-]. inversion H as [|? ? <- H']; subst.
  pose proof H' as H''. inversion H'' as [|? ? <- _]; subst.
  constructor; [apply fdiv_zero_or_nan, fsub_self|].
  exact (@gradient_inner_flat x1 (x1 :: rest) H').
Qed.

Lemma zip_fdiv_flat (a b : list float) :
  Forall (fun x => zero_or_nan x = true) a ->
  Forall (fun x => zero_or_nan x = true) (zip_with fdiv a b).
Proof.
  revert b. induction a as [|x a IH]; intros [|y b] H; cbn; try constructor;
    inversion H; subst; [now apply fdiv_zero_or_nan | now apply IH].
Qed.

Lemma broadcast_fdiv_flat (a b d : list float) :
  Forall (fun x => zero_or_nan x = true) a -> broadcast fdiv a b = Ok d ->
  Forall (fun x => zero_or_nan x = true) d.
Proof.
  intros Ha. unfold broadcast. destruct (Nat.eqb _ _).
  - intros [= <-]. now apply zip_fdiv_flat.
  - assert (forall y, Forall (fun x => zero_or_nan x = true) (map (fun x => fdiv x y) a)) as Hr.
    { intros y. apply Forall_map. eapply Forall_impl; [|exact Ha].
      intros x Hx. now apply fdiv_zero_or_nan. }
    destruct a as [|x [|x' a]].
    + destruct b as [|y [|y' b]]; try discriminate. intros [= <-]. constructor.
    + intros [= <-]. inversion Ha; subst. apply Forall_map, Forall_forall.
      intros z _. now apply fdiv_zero_or_nan.
    + destruct b as [|y [|y' b]]; try discriminate. intros [= <-]. apply Hr.
Qed.

Lemma high_deriv_pts_flat (dmu : list float) :
  dmu <> [] -> Forall (fun x => zero_or_nan x = true) dmu -> high_deriv_pts dmu = Ok [].
Proof.
  intros Hne H. destruct dmu as [|d rest]; [now elim Hne|].
  unfold high_deriv_pts. cbn [py_max bind]. f_equal.
  apply where_from_nil. intros b Hb. apply in_map_iff in Hb. destruct Hb as (y & <- & Hy).
  rewrite Forall_forall in H. unfold fgt. apply flt_zero_or_nan; [|now apply H].
  apply fmul_zero_or_nan; [|reflexivity]. apply H. apply max_from_In.
Qed.

Lemma find_e0_flat (energy mu : list float) (c : float) :
  length energy = length mu -> 2 <= length energy -> Forall (eq c) mu ->
  find_e0 energy mu = Ok (remove_dups energy, nth 0 (remove_dups energy) nan).
Proof.
  intros Hlen H2 Hc. unfold find_e0.
  pose proof (remove_dups_length energy) as Hl.
  destruct (@deriv_Ok (remove_dups energy) mu) as (dmu & Ed & Ld); try lia.
  rewrite Ed. cbn [bind].
  assert (Forall (fun x => zero_or_nan x = true) dmu) as Hflat.
  { unfold deriv in Ed.
    destruct (np_gradient mu) as [gmu|] eqn:Eg; [|discriminate]. cbn [bind] in Ed.
    destruct (np_gradient (remove_dups energy)) as [ge|] eqn:Ee; [|discriminate].
    cbn [bind] in Ed.
    exact (@broadcast_fdiv_flat gmu ge dmu (@np_gradient_flat c mu gmu Hc Eg) Ed). }
  rewrite high_deriv_pts_flat; [|destruct dmu; [cbn in Ld; lia | discriminate] | exact Hflat].
  cbn [bind edge_scan fold_left fst]. unfold getitem.
  destruct (nth_error (remove_dups energy) 0) as [x|] eqn:Ex.
  - cbn [bind]. now rewrite (nth_error_nth _ _ nan Ex).
  - apply nth_error_None in Ex. lia.
Qed.

(** X19: a flat spectrum has its edge at the first energy.  When every mu
    is one and the same value and e0 is missing or outside the energies,
    no point passes the derivative test and the derived e0 is the first
    entry of the de-duplicated energies. *)
Theorem flat_spectrum_edge (energy mu : list float) (e0 : option float) (c : float) :
  length energy = length mu -> 2 <= length energy -> Forall (eq c) mu ->
  edge_missing_or_outside (remove_dups energy) e0 ->
  locate_edge energy mu e0
  = Ok (remove_dups (remove_dups energy), nth 0 (remove_dups (remove_dups energy)) nan).
Proof.
  intros Hlen H2 Hc Hout. unfold locate_edge.
  pose proof (remove_dups_length energy) as Hl.
  rewrite e0_unusable_true; [|intros K; rewrite K in Hl; cbn in Hl; lia | exact Hout].
  cbn [bind]. apply find_e0_flat with c; [lia | lia | exact Hc].
Qed.

Lemma flat_spectrum_edge_witness :
  locate_edge (ramp 5) (repeat (of_Z 7) 5) None
  = Ok (remove_dups (remove_dups (ramp 5)), nth 0 (remove_dups (remove_dups (ramp 5))) nan).
Proof.
  apply (@flat_spectrum_edge (ramp 5) (repeat (of_Z 7) 5) None (of_Z 7)).
  - reflexivity.
  - cbn; lia.
  - repeat constructor.
  - exact I.
Defined.

(** ** The XANES window of the spectrum page *)

(** The largest index at or below a value. *)
Lemma at_or_below_In (arrval : list float) (value : float) (k : nat) :
  In k (np_where (map (fun x => fle x value) arrval)) <->
  fle (nth k arrval nan) value = true.
Proof.
  rewrite np_where_In, nth_error_map. split.
  - destruct (nth_error arrval k) as [x|] eqn:Ex; [|discriminate].
    cbn. intros [= Hx]. now rewrite (nth_error_nth _ _ nan Ex).
  - intros Hk. destruct (nth_error arrval k) as [x|] eqn:Ex.
    + rewrite (nth_error_nth _ _ nan Ex) in Hk. cbn. now rewrite Hk.
    + apply nth_error_None in Ex. rewrite nth_overflow in Hk by exact Ex.
      discriminate.
Qed.

Lemma last_at_or_below (arrval : list float) (value : float) (p : nat) :
  py_max_index (np_where (map (fun x => fle x value) arrval)) = Ok p ->
  p < length arrval /\ fle (nth p arrval nan) value = true /\
  forall j, p < j -> fle (nth j arrval nan) value = false.
Proof.
  intros H. pose proof (py_max_index_In _ H) as Hin.
  split; [apply np_where_lt in Hin; now rewrite length_map in Hin|].
  split; [now apply at_or_below_In|].
  intros j Hj. destruct (fle (nth j arrval nan) value) eqn:Ej; [|reflexivity].
  apply at_or_below_In in Ej.
  destruct (np_where _) as [|i rest]; [contradiction|].
  injection H as <-. pose proof (@fold_max_upper rest i j Ej). lia.
Qed.

Lemma none_at_or_below (arrval : list float) (value : float) :
  py_max_index (np_where (map (fun x => fle x value) arrval)) = Raise ValueError <->
  forall x, In x arrval -> fle x value = false.
Proof.
  split.
  - intros H x Hx. destruct (fle x value) eqn:E; [|reflexivity].
    destruct (In_nth_error _ _ Hx) as (k & Hk).
    assert (In k (np_where (map (fun y => fle y value) arrval))) as Hin.
    { apply np_where_In. rewrite nth_error_map, Hk. cbn. now rewrite E. }
    destruct (np_where _); [contradiction | discriminate].
  - intros H. rewrite where_nil_all_false; [reflexivity|].
    apply Forall_forall. intros b Hb. apply in_map_iff in Hb.
    destruct Hb as (y & <- & Hy). now apply H.
Qed.

Lemma py_max_index_error (l : list nat) (e : pyerr) :
  py_max_index l = Raise e -> e = ValueError.
Proof.
  destruct l; cbn; [now intros [= <-] | discriminate].
Qed.

(** X20: the window search of the spectrum page raises ValueError, and no
    other exception, exactly when no energy is at or below e0 - 30 or none
    is at or below e0 + 70: a spectrum that starts less than 30 eV below
    the edge has no XANES plot, and neither has one with a NaN edge. *)
Theorem xanes_window_raises (energy norm : list float) (e0 : float) :
  (xanes_window energy norm e0 = Raise ValueError <->
   (forall x, In x energy -> fle x (fsub e0 (of_Z 30)) = false) \/
   (forall x, In x energy -> fle x (fadd e0 (of_Z 70)) = false)) /\
  (forall e, xanes_window energy norm e0 = Raise e -> e = ValueError) /\
  xanes_window energy norm nan = Raise ValueError.
Proof.
  unfold xanes_window.
  split; [|split].
  - destruct (py_max_index (np_where (map (fun x => fle x (fsub e0 (of_Z 30))) energy)))
      as [i1|e1] eqn:E1; cbn [bind].
    + destruct (py_max_index (np_where (map (fun x => fle x (fadd e0 (of_Z 70))) energy)))
        as [i2|e2] eqn:E2; cbn [bind].
      * split; [discriminate|]. intros [H|H].
        -- apply none_at_or_below in H. congruence.
        -- apply none_at_or_below in H. congruence.
      * pose proof (py_max_index_error _ E2) as ->. split; [|reflexivity].
        intros _. right. now apply none_at_or_below.
    + pose proof (py_max_index_error _ E1) as ->. split; [|reflexivity].
      intros _. left. now apply none_at_or_below.
  - intros e.
    destruct (py_max_index (np_where (map (fun x => fle x (fsub e0 (of_Z 30))) energy)))
      as [i1|e1] eqn:E1; cbn [bind].
    + destruct (py_max_index (np_where (map (fun x => fle x (fadd e0 (of_Z 70))) energy)))
        as [i2|e2] eqn:E2; cbn [bind]; [discriminate|].
      intros [= <-]. now apply py_max_index_error in E2.
    + intros [= <-]. now apply py_max_index_error in E1.
  - assert (py_max_index (np_where (map (fun x => fle x (fsub nan (of_Z 30))) energy))
            = Raise ValueError) as ->; [|reflexivity].
    apply none_at_or_below. intros x _. apply fle_nan_r.
Qed.

(** X21: when the window search returns, the window starts at the last
    sample at or below e0 - 30 and ends with the last sample at or below
    e0 + 70; the energies come back relative to e0, and with one norm per
    energy the two arrays have one length. *)
Theorem xanes_window_returns (energy norm : list float) (e0 : float)
  (xanes_en xanes_mu : list float) :
  xanes_window energy norm e0 = Ok (xanes_en, xanes_mu) ->
  exists i1 i2,
    i1 < length energy /\ i2 < length energy /\
    fle (nth i1 energy nan) (fsub e0 (of_Z 30)) = true /\
    (forall j, i1 < j -> fle (nth j energy nan) (fsub e0 (of_Z 30)) = false) /\
    fle (nth i2 energy nan) (fadd e0 (of_Z 70)) = true /\
    (forall j, i2 < j -> fle (nth j energy nan) (fadd e0 (of_Z 70)) = false) /\
    xanes_en = map (fun x => fsub x e0) (slice i1 (i2 + 1) energy) /\
    xanes_mu = slice i1 (i2 + 1) norm /\
    (length norm = length energy ->
     length xanes_en = i2 + 1 - i1 /\ length xanes_mu = i2 + 1 - i1).
Proof.
  unfold xanes_window. intros H.
  destruct (py_max_index (np_where (map (fun x => fle x (fsub e0 (of_Z 30))) energy)))
    as [i1|] eqn:E1; [|discriminate]. cbn [bind] in H.
  destruct (py_max_index (np_where (map (fun x => fle x (fadd e0 (of_Z 70))) energy)))
    as [i2|] eqn:E2; [|discriminate]. cbn [bind] in H.
  injection H as <- <-.
  destruct (last_at_or_below _ _ E1) as (L1 & A1 & B1).
  destruct (last_at_or_below _ _ E2) as (L2 & A2 & B2).
  exists i1, i2. repeat (split; [assumption|]).
  split; [reflexivity|]. split; [reflexivity|].
  intros Hlen. rewrite length_map. unfold slice.
  rewrite !length_firstn, !length_skipn. lia.
Qed.

Lemma xanes_window_returns_witness :
  xanes_window (ramp 21) (ramp 21) (of_Z 100)
  = Ok (map (fun x => fsub x (of_Z 100)) (slice 7 18 (ramp 21)), slice 7 18 (ramp 21)) /\
  exists i1 i2,
    i1 < length (ramp 21) /\ i2 < length (ramp 21) /\
    fle (nth i1 (ramp 21) nan) (fsub (of_Z 100) (of_Z 30)) = true /\
    (forall j, i1 < j -> fle (nth j (ramp 21) nan) (fsub (of_Z 100) (of_Z 30)) = false) /\
    fle (nth i2 (ramp 21) nan) (fadd (of_Z 100) (of_Z 70)) = true /\
    (forall j, i2 < j -> fle (nth j (ramp 21) nan) (fadd (of_Z 100) (of_Z 70)) = false) /\
    map (fun x => fsub x (of_Z 100)) (slice 7 18 (ramp 21))
    = map (fun x => fsub x (of_Z 100)) (slice i1 (i2 + 1) (ramp 21)) /\
    slice 7 18 (ramp 21) = slice i1 (i2 + 1) (ramp 21) /\
    (length (ramp 21) = length (ramp 21) ->
     length (map (fun x => fsub x (of_Z 100)) (slice 7 18 (ramp 21))) = i2 + 1 - i1 /\
     length (slice 7 18 (ramp 21)) = i2 + 1 - i1).
Proof.
  split; [vm_compute; reflexivity|].
  apply (@xanes_window_returns (ramp 21) (ramp 21) (of_Z 100)).
  vm_compute; reflexivity.
Defined.

(** ** The dictionary of the step spectrum *)

Lemma preedge_post_edge_degree_witness :
  step_run = Ok step_out /\
  (1 <= out_nnorm step_out <= 5)%Z /\
  ((1 <= 3 <= 5)%Z -> out_nnorm step_out = 3%Z) /\
  ((3 < 1)%Z -> out_nnorm step_out = 1%Z) /\
  ((5 < 3)%Z -> out_nnorm step_out = 5%Z) /\
  exists energy' e1 omu q1 q2 coefs,
    locate_edge (ramp 21) (step_mu 21) (Some (of_Z 104)) = Ok (energy', e1) /\
    weighted pow_int energy' (step_mu 21) 0 = Ok omu /\
    fit_window energy' (out_e0 step_out) (out_norm1 step_out) (out_norm2 step_out)
    = Ok (q1, q2) /\
    lstsq_polyfit (slice q1 q2 energy') (slice q1 q2 omu) (out_nnorm step_out) = Ok coefs /\
    out_norm_coefs step_out = rev coefs.
Proof.
  split; [vm_compute; reflexivity|].
  apply (@preedge_post_edge_degree lstsq_polyfit pow_int OobRaises
           (ramp 21) (step_mu 21) (Some (of_Z 104)) None 3%Z 0%Z None (of_Z (-50)) (of_Z 30)
           None step_out).
  vm_compute; reflexivity.
Defined.

Lemma preedge_bounds_ordered_witness :
  step_run = Ok step_out /\
  fgt (out_pre1 step_out) (out_pre2 step_out) = false /\
  fgt (out_norm1 step_out) (out_norm2 step_out) = false /\
  isnan (out_pre1 step_out) = false /\
  isnan (out_norm1 step_out) = false /\
  (isnan (out_pre2 step_out) = false -> fle (out_pre1 step_out) (out_pre2 step_out) = true) /\
  (isnan (out_norm2 step_out) = false -> fle (out_norm1 step_out) (out_norm2 step_out) = true).
Proof.
  split; [vm_compute; reflexivity|].
  apply (@preedge_bounds_ordered lstsq_polyfit pow_int OobRaises
           (ramp 21) (step_mu 21) (Some (of_Z 104)) None 3%Z 0%Z None (of_Z (-50)) (of_Z 30)
           None step_out).
  vm_compute; reflexivity.
Defined.

Lemma preedge_array_shapes_witness :
  step_run = Ok step_out /\
  length (out_pre_edge step_out) = length (ramp 21) /\
  length (out_norm step_out) = length (ramp 21) /\
  (forall i, i < length (ramp 21) ->
     nth i (out_norm step_out) nan
     = fdiv (fsub (nth i (step_mu 21) nan) (nth i (out_pre_edge step_out) nan))
         (out_edge_step step_out)) /\
  match out_post_edge step_out with
  | NpArray post => length post = length (ramp 21)
  | NpScalar s => s = fzero /\ out_norm_coefs step_out = [] /\ @None float <> None
  end.
Proof.
  split; [vm_compute; reflexivity|].
  apply (@preedge_array_shapes lstsq_polyfit pow_int OobRaises
           (ramp 21) (step_mu 21) (Some (of_Z 104)) None 3%Z 0%Z None (of_Z (-50)) (of_Z 30)
           None step_out).
  - reflexivity.
  - vm_compute; reflexivity.
Defined.

Lemma preedge_post_edge_values_witness :
  step_run = Ok step_out /\ length (out_norm_coefs step_out) = 4 /\
  exists energy' e1 post,
    locate_edge (ramp 21) (step_mu 21) (Some (of_Z 104)) = Ok (energy', e1) /\
    out_post_edge step_out = NpArray post /\
    forall i, i < length energy' ->
      nth i post nan
      = fold_left (fun acc nc =>
                     fadd acc (fmul (snd nc)
                                 (pow_int (nth i energy' nan) (Z.of_nat (fst nc) - 0))))
          (combine (seq 0 (length (out_norm_coefs step_out))) (out_norm_coefs step_out)) fzero.
Proof.
  split; [vm_compute; reflexivity|]. split; [reflexivity|].
  apply (@preedge_post_edge_values lstsq_polyfit pow_int OobRaises
           (ramp 21) (step_mu 21) (Some (of_Z 104)) None 3%Z 0%Z None (of_Z (-50)) (of_Z 30)
           None step_out).
  - vm_compute; reflexivity.
  - vm_compute; discriminate.
Defined.

Lemma preedge_edge_step_witness :
  step_run = Ok step_out /\
  exists energy' e1 ie0 post,
    locate_edge (ramp 21) (step_mu 21) (Some (of_Z 104)) = Ok (energy', e1) /\
    index_nearest energy' e1 = Ok ie0 /\
    nth_error energy' ie0 = Some (out_e0 step_out) /\
    out_post_edge step_out = NpArray post /\
    out_edge_step step_out = fsub (nth ie0 post nan) (nth ie0 (out_pre_edge step_out) nan).
Proof.
  split; [vm_compute; reflexivity|].
  apply (@preedge_edge_step lstsq_polyfit pow_int OobRaises
           (ramp 21) (step_mu 21) (Some (of_Z 104)) None 3%Z 0%Z None (of_Z (-50)) (of_Z 30)
           None step_out).
  vm_compute; reflexivity.
Defined.

Lemma preedge_needs_two_samples_witness :
  preedge_ref [of_Z 5] [of_Z 1] None None 3 0 None (of_Z (-50)) (of_Z 100) None
  = Raise ValueError.
Proof.
  apply (@preedge_needs_two_samples lstsq_polyfit pow_int OobRaises
           [of_Z 5] [of_Z 1] None 3%Z 0%Z None (of_Z (-50)) (of_Z 100) None).
  left. cbn. lia.
Defined.

Lemma preedge_length_mismatch_witness :
  preedge_ref (ramp 5) [of_Z 1; of_Z 2; of_Z 3] (Some (of_Z 20)) None 3 0 None
    (of_Z (-50)) (of_Z 100) None
  = Raise ValueError.
Proof.
  apply (@preedge_length_mismatch lstsq_polyfit pow_int OobRaises
           (ramp 5) [of_Z 1; of_Z 2; of_Z 3] (Some (of_Z 20)) None 3%Z 0%Z None
           (of_Z (-50)) (of_Z 100) None); cbn; lia.
Defined.
